(** * TuftsBCB/seq: profile HMM scoring and global alignment

    A shallow embedding of the parts of the Go package [seq] that the
    dynamic-programming engines are made of:

    - [hmm.go]: [Prob] ([NewProb], [Less], [IsMin], [String]), [EProbs]
      ([NewEProbs], [Lookup], [Set]), [TProbs], [HMMNode], [HMM],
      [DynamicTable] ([AllocTable], [index], [set], [reset]),
      [ViterbiScore], [ViterbiScoreMem], [HMM.Slice], [HMMCat], [NewHMM];
    - the alignment code: [Alignment], [max], [max3], [NeedlemanWunsch]
      (the version that takes a [MatLookup]);
    - the alphabet code: [Alphabet.Equals], [Alphabet.Index];
    - the sequence code: [Residue] ([HMMState]), [Sequence] ([Len],
      [Slice], [Copy]);
    - the tests: the helper [newEProbs].

    Conventions.
    - A Go run-time panic is a value: every operation that indexes a slice
      returns a [res], and the proofs show which panics cannot happen.
    - [Residue] is a Go [byte]; arithmetic on residues is written out
      modulo 256.
    - [Prob] is a Go [float64]: an IEEE 754 binary64 number, taken from
      [SpecFloat] with precision 53 and maximal exponent 1024.
    - A Go [int] that holds a score is a [Z] wrapped to 64 bits after each
      operation.
    - A Go [int] that holds a length, a loop counter that runs upwards or
      an index into a table is a [nat].  In Go the length of a table
      ([3 * nodes * (seqLen + 1)] scores, [(len(A) + 1) * (len(B) + 1)]
      cells) is a product of [int]s that wraps around when it reaches
      2^63.  The statements about a run that allocates or indexes such a
      table therefore carry the hypothesis [fits_int] of that length (or of
      the greatest index); under it every length and index of the run is
      below 2^63, and Go computes them as they are computed here
      ([table_len_int_fits], [index_int_fits], [matrix_len_int_fits],
      [cell_index_int_fits]).  Where one of the two inputs is empty the
      length of the table is the length of a slice plus one (times 3 for
      the scores), and an equality of two results needs no bound.  A
      subtraction ([i-1], [j-1], [p-c-1], [p-c], [p-1]) is written where
      the source has it, under the guard [i > 0] or [j > 0] that keeps it
      from going below 0.
    - The arguments of [Slice] are arbitrary [int]s, so they are [Z]. *)

From Stdlib Require Import ZArith Lia Strings.Byte Floats.SpecFloat Strings.String.
From stdpp Require Import base option list gmap.

(** * The program and the notions of its specification *)

(** ** Go run-time layer: panics, indexing, loops *)

Inductive panic : Type :=
  | IndexOutOfRange            (* index out of range *)
  | SliceBoundsOutOfRange      (* slice bounds out of range *)
  | MakeLenOutOfRange          (* makeslice: len out of range *)
  | NoPath (i j : nat)         (* panic("BUG in NeedlemanWunsch: No path at (i, j)") *)
  | FuelExhausted.             (* not a Go panic: a loop of the model ran out of steps *)

Inductive res (A : Type) : Type :=
  | Ok (a : A)
  | Panic (p : panic).

Arguments Ok {A} a.

Arguments Panic {A} p.

#[global] Instance res_ret : MRet res := λ A a, Ok a.

#[global] Instance res_bind : MBind res := λ A B k m,
  match m with
  | Ok a => k a
  | Panic p => Panic p
  end.

#[global] Instance res_fmap : FMap res := λ A B f m,
  match m with
  | Ok a => Ok (f a)
  | Panic p => Panic p
  end.

(** [l[i]] as an r-value and [l[i] = x] as a statement, with Go's bounds
    check. *)
Definition get {A : Type} (l : list A) (i : nat) : res A :=
  match l !! i with
  | Some x => Ok x
  | None => Panic IndexOutOfRange
  end.

Definition store {A : Type} (l : list A) (i : nat) (x : A) : res (list A) :=
  if decide (i < length l) then Ok (<[i := x]> l) else Panic IndexOutOfRange.

(** [for i := lo; i < lo + n; i++ { body }] over a threaded state. *)
Fixpoint for_range {St : Type} (lo n : nat) (body : nat → St → res St)
    (s : St) : res St :=
  match n with
  | O => Ok s
  | S n' => s' ← body lo s; for_range (S lo) n' body s'
  end.

(** ** Residues *)

(** [type Residue byte] *)
Abbreviation Residue := byte (only parsing).

#[global] Instance Residue_eq_dec : EqDecision Residue := Byte.byte_eq_dec.

Definition rnum (r : Residue) : nat := Byte.to_nat r.

(** Subtraction and addition of two bytes, as numbers below 256. *)
Definition sub8 (a b : nat) : nat := (a + 256 - b) mod 256.

Definition add8 (a b : nat) : nat := (a + b) mod 256.

Definition gap : Residue := "-"%byte.

(** ** Probabilities *)

(** [type Prob float64] *)
Abbreviation Prob := spec_float (only parsing).

Definition prec64 : Z := 53.

Definition emax64 : Z := 1024.

Definition padd (p q : Prob) : Prob := SFadd prec64 emax64 p q.

Definition pzero : Prob := S754_zero false.

(** [MinProb = Prob(math.MaxFloat64)], that is (2^53 - 1) * 2^971. *)
Definition MinProb : Prob := S754_finite false 9007199254740991 971.

(** [invalidProb = Prob(math.NaN())] *)
Definition invalidProb : Prob := S754_nan.

(** [func (p1 Prob) Less(p2 Prob) bool { return p1 > p2 }] *)
Definition Less (p1 p2 : Prob) : bool := SFltb p2 p1.

(** [func (p Prob) IsMin() bool { return p == MinProb }] *)
Definition IsMin (p : Prob) : bool := SFeqb p MinProb.

(** *** Probabilities as text *)

(** [NewProb] and [Prob.String] call [strconv.ParseFloat] and
    [fmt.Sprintf("%v", ...)] of Go's library; these two are taken as they
    come.  [ParseFloat] answers a number or the text of an error. *)
Section ProbText.

Variable ParseFloat : string → Prob + string.

Variable FormatFloat : Prob → string.

(** The result pair [(Prob, error)]; [None] is the [nil] error. *)
Definition NewProb (fstr : string) : Prob * option string :=
  if decide (fstr = "*"%string) then (MinProb, None)
  else
    match ParseFloat fstr with
    | inr err =>
        (invalidProb,
         Some ("Could not convert '" ++ fstr ++ "' to a log probability: "
               ++ err)%string)
    | inl f => (f, None)
    end.

(** [func (p Prob) String() string] *)
Definition String_ (p : Prob) : string :=
  if IsMin p then "*"%string else FormatFloat p.

End ProbText.

(** ** Emission tables *)

Record EProbs : Type := mkEProbs {
  Offset : Residue;
  Probs : list Prob
}.

(** The loop of [NewEProbs] that finds the least and the greatest residue. *)
Definition span_step (acc : Residue * Residue) (r : Residue)
  : Residue * Residue :=
  let '(offset, max) := acc in
  let offset := if decide (rnum r < rnum offset) then r else offset in
  let max := if decide (rnum max < rnum r) then r else max in
  (offset, max).

Definition NewEProbs (alphabet : list Residue) : EProbs :=
  let '(offset, max) := foldl span_step (xff, x00) alphabet in
  (* make([]Prob, 1+max-offset): the length is computed in type Residue *)
  let n := sub8 (add8 1 (rnum max)) (rnum offset) in
  mkEProbs offset (replicate n MinProb).

Definition Lookup (ep : EProbs) (r : Residue) : res Prob :=
  let i := sub8 (rnum r) (rnum (Offset ep)) in
  if (i <? 0) || (length (Probs ep) <=? i) then Ok MinProb
  else get (Probs ep) (sub8 (rnum r) (rnum (Offset ep))).

Definition Set_ (ep : EProbs) (r : Residue) (p : Prob) : res EProbs :=
  probs ← store (Probs ep) (sub8 (rnum r) (rnum (Offset ep))) p;
  Ok (mkEProbs (Offset ep) probs).

(** *** Notions for the statements about emission tables *)

(** A table made by [NewEProbs] and filled by any number of [Set]s. *)
Inductive built_from (alphabet : list Residue) : EProbs → Prop :=
  | built_new : built_from alphabet (NewEProbs alphabet)
  | built_set ep r p ep' :
      built_from alphabet ep → Set_ ep r p = Ok ep' → built_from alphabet ep'.

(** [r] lies in the byte span [Offset, Offset + len(Probs) - 1]. *)
Definition in_span (ep : EProbs) (r : Residue) : Prop :=
  rnum (Offset ep) ≤ rnum r < rnum (Offset ep) + length (Probs ep).

(** The table over the alphabet {A, B, C} after [Set('B', 0)]. *)
Definition eprobs_ABC : EProbs := mkEProbs "A"%byte [MinProb; pzero; MinProb].

(** ** Profile HMMs *)

(** [const ( Match HMMState = iota; Deletion; Insertion; Begin; End )] *)
Inductive HMMState : Type := Match | Deletion | Insertion | Begin | End_.

#[global] Instance HMMState_eq_dec : EqDecision HMMState.
Proof. solve_decision. Defined.

(** [int(state)] *)
Definition state_int (s : HMMState) : nat :=
  match s with
  | Match => 0 | Deletion => 1 | Insertion => 2 | Begin => 3 | End_ => 4
  end.

Record TProbs : Type := mkTProbs {
  MM : Prob; MI : Prob; MD : Prob; IM : Prob; II : Prob; DM : Prob; DD : Prob
}.

Record HMMNode : Type := mkHMMNode {
  NodeResidue : Residue;
  NodeNum : Z;
  InsEmit : EProbs;
  MatEmit : EProbs;
  Transitions : TProbs;
  NeffM : Prob; NeffI : Prob; NeffD : Prob
}.

(** The Viterbi engine only reads a model, so it is given the contents of
    [hmm.Nodes]; [Slice], which allocates and writes, is embedded further
    down over a store of backing arrays. *)
Record HMM : Type := mkHMM {
  Nodes : list HMMNode;
  Alphabet : list Residue;
  Null : EProbs
}.

Record Sequence : Type := mkSequence {
  Name : string;
  Residues : list Residue
}.

Definition Len (s : Sequence) : nat := length (Residues s).

(** ** The dynamic table *)

Record DynamicTable : Type := mkTable {
  scores : list Prob;
  nodes : nat
}.

Definition reset (t : DynamicTable) : res DynamicTable :=
  sc ← for_range 0 (length (scores t)) (λ i sc, store sc i MinProb) (scores t);
  Ok (mkTable sc (nodes t)).

Definition AllocTable (numNodes seqLen : nat) : res DynamicTable :=
  let nodes := numNodes + 1 in
  reset (mkTable (replicate (3 * nodes * (seqLen + 1)) pzero) nodes).

Definition index (t : DynamicTable) (state : HMMState) (node obs : nat) : nat :=
  state_int state + 3 * (node + nodes t * obs).

(** [table.scores[table.index(state, node, obs)]] *)
Definition cell (t : DynamicTable) (state : HMMState) (node obs : nat)
  : res Prob :=
  get (scores t) (index t state node obs).

Definition set (t : DynamicTable) (state : HMMState) (node obs : nat) (p : Prob)
  : res DynamicTable :=
  let i := index t state node obs in
  cur ← get (scores t) i;
  if Less cur p then
    sc ← store (scores t) i p; Ok (mkTable sc (nodes t))
  else Ok t.

(** ** The Viterbi engine *)

(** The body of the two nested loops of [ViterbiScoreMem].  It is written
    once, over the two ways in which it touches the table, so that it can be
    run on the dynamic table and also on a counter of the calls of [set]. *)
Section LoopBody.

Context {T : Type}.

Variable read : T → HMMState → nat → nat → res Prob.

Variable write : T → HMMState → nat → nat → Prob → res T.

Definition viterbi_body (hmm : HMM) (seq : Sequence) (node obs : nat)
    (table : T) : res T :=
  trans ← Transitions <$> get (Nodes hmm) node;
  residue ← get (Residues seq) obs;
  iemit ← (nd ← get (Nodes hmm) node; Lookup (InsEmit nd) residue);
  memit ← (if decide (node + 1 < length (Nodes hmm)) then
             nd ← get (Nodes hmm) (node + 1); Lookup (MatEmit nd) residue
           else Ok pzero);
  here ← read table Match node obs;
  table ← write table Insertion node (obs + 1) (padd (padd here (MI trans)) iemit);
  table ← write table Match (node + 1) (obs + 1) (padd (padd here (MM trans)) memit);
  table ← write table Deletion (node + 1) obs (padd here (MD trans));
  here ← read table Insertion node obs;
  table ← write table Insertion node (obs + 1) (padd (padd here (II trans)) iemit);
  table ← write table Match (node + 1) (obs + 1) (padd (padd here (IM trans)) memit);
  here ← read table Deletion node obs;
  table ← write table Match (node + 1) (obs + 1) (padd (padd here (DM trans)) memit);
  table ← write table Deletion (node + 1) obs (padd here (DD trans));
  Ok table.

End LoopBody.

Definition ViterbiScoreMem (hmm : HMM) (seq : Sequence) (table : DynamicTable)
  : res (Prob * DynamicTable) :=
  table ← reset table;
  sc ← store (scores table) (index table Match 0 0) pzero;
  let table := mkTable sc (nodes table) in
  table ← for_range 0 (length (Nodes hmm)) (λ node table,
             for_range 0 (Len seq) (λ obs table,
               viterbi_body cell set hmm seq node obs table) table) table;
  p ← cell table Match (length (Nodes hmm)) (Len seq);
  Ok (p, table).

Definition ViterbiScore (hmm : HMM) (seq : Sequence) : res Prob :=
  table ← AllocTable (length (Nodes hmm)) (Len seq);
  fst <$> ViterbiScoreMem hmm seq table.

(** The body run on a counter: every [set] adds one, every read of a cell
    answers 0. *)
Definition count_read (c : nat) (_ : HMMState) (_ _ : nat) : res Prob := Ok pzero.

Definition count_set (c : nat) (_ : HMMState) (_ _ : nat) (_ : Prob) : res nat :=
  Ok (S c).

(** ** The dynamic program of the specification (section 4.3) *)

Module ViterbiSpec.

(** The table, addressed by (state, node, observation). *)
Definition cells : Type := HMMState → nat → nat → Prob.

(** Boundary: cell(Match, 0, 0) = 0, every other cell the sentinel. *)
Definition boundary : cells := λ s n o,
  if decide (s = Match ∧ n = 0 ∧ o = 0) then pzero else MinProb.

(** A propose keeps the numerically smaller value; on a tie the value
    already present stays. *)
Definition propose (T : cells) (s : HMMState) (n o : nat) (v : Prob) : cells :=
  λ s' n' o',
    if decide (s' = s ∧ n' = n ∧ o' = o) then
      if SFltb v (T s n o) then v else T s n o
    else T s' n' o'.

(** Lookup in an emission table: the sentinel on a miss. *)
Definition lookup (ep : EProbs) (r : Residue) : Prob :=
  default MinProb (Probs ep !! sub8 (rnum r) (rnum (Offset ep))).

(** One transition of the recurrence: from which state, to which state,
    by how many nodes and observations, and at which cost. *)
Record edge : Type := mkEdge {
  src : HMMState; dst : HMMState; dnode : nat; dobs : nat;
  cost : Prob → Prob
}.

Definition edges (trans : TProbs) (iemit memit : Prob) : list edge :=
  [ mkEdge Match Insertion 0 1 (λ here, padd (padd here (MI trans)) iemit);
    mkEdge Match Match 1 1 (λ here, padd (padd here (MM trans)) memit);
    mkEdge Match Deletion 1 0 (λ here, padd here (MD trans));
    mkEdge Insertion Insertion 0 1 (λ here, padd (padd here (II trans)) iemit);
    mkEdge Insertion Match 1 1 (λ here, padd (padd here (IM trans)) memit);
    mkEdge Deletion Match 1 1 (λ here, padd (padd here (DM trans)) memit);
    mkEdge Deletion Deletion 1 0 (λ here, padd here (DD trans)) ].

Definition apply_edge (n o : nat) (T : cells) (e : edge) : cells :=
  propose T (dst e) (n + dnode e) (o + dobs e) (cost e (T (src e) n o)).

(** The recurrence at node [n] and observation [o]. *)
Definition recurrence (hmm : HMM) (seq : Sequence) (T : cells) (n o : nat)
  : cells :=
  match Nodes hmm !! n, Residues seq !! o with
  | Some nd, Some residue =>
      let iemit := lookup (InsEmit nd) residue in
      let memit :=
        match Nodes hmm !! (n + 1) with
        | Some nd' => lookup (MatEmit nd') residue
        | None => pzero
        end in
      foldl (apply_edge n o) T (edges (Transitions nd) iemit memit)
  | _, _ => T
  end.

Definition fill (hmm : HMM) (seq : Sequence) : cells :=
  foldl (λ T n, foldl (λ T o, recurrence hmm seq T n o) T
                  (List.seq 0 (Len seq)))
        boundary (List.seq 0 (length (Nodes hmm))).

(** The final score is cell(Match, nodeCount, seqLen). *)
Definition score (hmm : HMM) (seq : Sequence) : Prob :=
  fill hmm seq Match (length (Nodes hmm)) (Len seq).

End ViterbiSpec.

(** *** The table of the program holds the table of the specification *)

(** The cells that the table stores. *)
Definition stored (s : HMMState) : Prop := state_int s < 3.

(** The flat table [t] holds the cells [T] of a model with [N] nodes and a
    sequence of [L] residues. *)
Definition rep (N L : nat) (t : DynamicTable) (T : ViterbiSpec.cells) : Prop :=
  nodes t = N + 1 ∧
  length (scores t) = 3 * (N + 1) * (L + 1) ∧
  ∀ s n o, stored s → n ≤ N → o ≤ L →
    scores t !! index t s n o = Some (T s n o).

(** *** Scenario C: a two-node model over the alphabet {X} *)

(** The transition row [MM = IM = DM = 0], [MI = MD = II = DD = MinProb]. *)
Definition exit_row : TProbs :=
  mkTProbs pzero MinProb MinProb pzero MinProb pzero MinProb.

Definition node_C : HMMNode :=
  mkHMMNode "X"%byte 0 (NewEProbs ["X"%byte]) (mkEProbs "X"%byte [pzero])
    exit_row pzero pzero pzero.

Definition hmm_C : HMM := mkHMM [node_C; node_C] ["X"%byte] (NewEProbs ["X"%byte]).

Definition seq_C : Sequence := mkSequence EmptyString ["X"%byte; "X"%byte].

(** A table of the dimensions of [hmm_C] and [seq_C] that holds the scores
    of an earlier run. *)
Definition used_table_C : DynamicTable := mkTable (replicate 27 pzero) 3.

(** ** Global alignment (Needleman-Wunsch) *)

Record Alignment : Type := mkAlignment {
  AlnA : list Residue;   (* field [A]: the reference *)
  AlnB : list Residue    (* field [B]: the query *)
}.

(** [make([]Residue, 0, length)]: the capacity does not show in a value. *)
Definition newAlignment (length : nat) : Alignment := mkAlignment [] [].

(** [type MatLookup func(a, b Residue) int]: a function in the sense of
    mathematics, that returns and answers the same on the same residues. *)
Abbreviation MatLookup := (byte → byte → Z) (only parsing).

(** Go's [int] is 64 bits wide here; sums and products wrap around. *)
Definition wrap64 (z : Z) : Z :=
  ((z + 2 ^ 63) mod 2 ^ 64 - 2 ^ 63)%Z.

Definition add64 (a b : Z) : Z := wrap64 (a + b).

Definition mul64 (a b : Z) : Z := wrap64 (a * b).

Definition max (a b : nat) : nat := if decide (b < a) then a else b.

Definition max3 (a b c : Z) : Z :=
  if bool_decide (b < a)%Z && bool_decide (c < a)%Z then a
  else if bool_decide (c < b)%Z then b
  else c.

(** The body of the loop that fills the interior of the matrix; it runs
    for [i ≥ 1] and [j ≥ 1], where [p - c - 1 ≥ 0]. *)
Definition nw_cell (A B : list Residue) (subst : MatLookup) (gapPenalty : Z)
    (c i j : nat) (matrix : list Z) : res (list Z) :=
  let p := i * c + j in
  d ← get matrix (p - c - 1);
  a ← get A (i - 1);
  b ← get B (j - 1);
  u ← get matrix (p - c);
  l ← get matrix (p - 1);
  store matrix p
    (max3 (add64 d (subst a b)) (add64 u gapPenalty) (add64 l gapPenalty)).

(** [for i > 0 || j > 0 { ... }]: every pass lowers [i + j], which bounds
    the number of passes; [fuel] counts them down. *)
Fixpoint traceback (fuel : nat) (A B : list Residue) (subst : MatLookup)
    (gapPenalty : Z) (c : nat) (matrix : list Z) (i j : nat)
    (aligned : Alignment) : res Alignment :=
  if decide (0 < i ∨ 0 < j) then
    match fuel with
    | O => Panic FuelExhausted
    | S fuel =>
        let p := i * c + j in
        diag ← (if decide (0 < i ∧ 0 < j) then
                  m ← get matrix p;
                  d ← get matrix (p - c - 1);
                  a ← get A (i - 1);
                  b ← get B (j - 1);
                  Ok (bool_decide (m = add64 d (subst a b)))
                else Ok false);
        if diag : bool then
          a ← get A (i - 1);
          b ← get B (j - 1);
          traceback fuel A B subst gapPenalty c matrix (i - 1) (j - 1)
            (mkAlignment (AlnA aligned ++ [a]) (AlnB aligned ++ [b]))
        else
          up ← (if decide (0 < i) then
                  m ← get matrix p;
                  u ← get matrix (p - c);
                  Ok (bool_decide (m = add64 u gapPenalty))
                else Ok false);
          if up : bool then
            a ← get A (i - 1);
            traceback fuel A B subst gapPenalty c matrix (i - 1) j
              (mkAlignment (AlnA aligned ++ [a]) (AlnB aligned ++ [gap]))
          else
            left ← (if decide (0 < j) then
                      m ← get matrix p;
                      l ← get matrix (p - 1);
                      Ok (bool_decide (m = add64 l gapPenalty))
                    else Ok false);
            if left : bool then
              b ← get B (j - 1);
              traceback fuel A B subst gapPenalty c matrix i (j - 1)
                (mkAlignment (AlnA aligned ++ [gap]) (AlnB aligned ++ [b]))
            else Panic (NoPath i j)
    end
  else Ok aligned.

(** [for i, j := 0, len(aligned.A)-1; i < j; i, j = i+1, j-1 { swap }].
    For an empty alignment [j] starts at -1 in Go and at 0 here; the loop
    is not entered either way. *)
Fixpoint reverse_loop (fuel i j : nat) (a b : list Residue)
  : res (list Residue * list Residue) :=
  if decide (i < j) then
    match fuel with
    | O => Panic FuelExhausted
    | S fuel =>
        aj ← get a j;
        ai ← get a i;
        a ← store a i aj;
        a ← store a j ai;
        bj ← get b j;
        bi ← get b i;
        b ← store b i bj;
        b ← store b j bi;
        reverse_loop fuel (i + 1) (j - 1) a b
    end
  else Ok (a, b).

Definition NeedlemanWunsch (A B : list Residue) (subst : MatLookup)
  : res Alignment :=
  let r := length A + 1 in
  let c := length B + 1 in
  let gapPenalty := subst gap gap in
  let matrix := replicate (r * c) 0%Z in
  matrix ← for_range 0 r (λ i matrix,
             store matrix (i * c + 0) (mul64 gapPenalty (Z.of_nat i))) matrix;
  matrix ← for_range 0 c (λ j matrix,
             store matrix (0 * c + j) (mul64 gapPenalty (Z.of_nat j))) matrix;
  matrix ← for_range 1 (r - 1) (λ i matrix,
             for_range 1 (c - 1) (λ j matrix,
               nw_cell A B subst gapPenalty c i j matrix) matrix) matrix;
  let aligned := newAlignment (max r c) in
  aligned ← traceback (r + c) A B subst gapPenalty c matrix (r - 1) (c - 1)
              aligned;
  '(a, b) ← reverse_loop (length (AlnA aligned)) 0 (length (AlnA aligned) - 1)
              (AlnA aligned) (AlnB aligned);
  Ok (mkAlignment a b).

(** ** The recurrence and the traceback of the specification (section 4.4) *)

(** [A[i]] where the index is known to be in range. *)
Definition residue_at (A : list Residue) (i : nat) : Residue :=
  default gap (A !! i).

(** The recurrence of section 4.4, cell by cell. *)
Fixpoint nw_score (A B : list Residue) (subst : MatLookup) (i : nat)
  : nat → Z :=
  match i with
  | O => λ j, mul64 (subst gap gap) (Z.of_nat j)
  | S i' =>
      fix row (j : nat) : Z :=
        match j with
        | O => mul64 (subst gap gap) (Z.of_nat (S i'))
        | S j' =>
            max3 (add64 (nw_score A B subst i' j')
                        (subst (residue_at A i') (residue_at B j')))
                 (add64 (nw_score A B subst i' (S j')) (subst gap gap))
                 (add64 (row j') (subst gap gap))
        end
  end.

(** The matrix [m], with rows of length [c], holds the recurrence in the
    cells picked by [filled]. *)
Definition holds (A B : list Residue) (subst : MatLookup)
    (filled : nat → nat → Prop) (m : list Z) : Prop :=
  length m = (length A + 1) * (length B + 1) ∧
  ∀ i j, i < length A + 1 → j < length B + 1 → filled i j →
    m !! (i * (length B + 1) + j) = Some (nw_score A B subst i j).

Inductive move : Type := Diag | Up | Left_.

(** The conditions of the traceback at cell (i, j), on the recurrence. *)
Definition diag_fits (A B : list Residue) (subst : MatLookup) (i j : nat)
  : Prop :=
  0 < i ∧ 0 < j ∧
  nw_score A B subst i j
  = add64 (nw_score A B subst (i - 1) (j - 1))
          (subst (residue_at A (i - 1)) (residue_at B (j - 1))).

Definition up_fits (A B : list Residue) (subst : MatLookup) (i j : nat)
  : Prop :=
  0 < i ∧
  nw_score A B subst i j = add64 (nw_score A B subst (i - 1) j) (subst gap gap).

Definition left_fits (A B : list Residue) (subst : MatLookup) (i j : nat)
  : Prop :=
  0 < j ∧
  nw_score A B subst i j = add64 (nw_score A B subst i (j - 1)) (subst gap gap).

#[global] Instance diag_fits_dec A B subst i j : Decision (diag_fits A B subst i j).
Proof. unfold diag_fits. apply _. Defined.

#[global] Instance up_fits_dec A B subst i j : Decision (up_fits A B subst i j).
Proof. unfold up_fits. apply _. Defined.

#[global] Instance left_fits_dec A B subst i j : Decision (left_fits A B subst i j).
Proof. unfold left_fits. apply _. Defined.

(** The strict priority of the switch: diagonal, vertical gap, horizontal
    gap. *)
Definition step_of (A B : list Residue) (subst : MatLookup) (i j : nat)
  : option move :=
  if decide (diag_fits A B subst i j) then Some Diag
  else if decide (up_fits A B subst i j) then Some Up
  else if decide (left_fits A B subst i j) then Some Left_
  else None.

(** The columns of the alignment in the order in which the traceback
    appends them. *)
Fixpoint nw_path (fuel : nat) (A B : list Residue) (subst : MatLookup)
    (i j : nat) : res (list (Residue * Residue)) :=
  if decide (0 < i ∨ 0 < j) then
    match fuel with
    | O => Panic FuelExhausted
    | S fuel =>
        match step_of A B subst i j with
        | Some Diag =>
            cols ← nw_path fuel A B subst (i - 1) (j - 1);
            Ok ((residue_at A (i - 1), residue_at B (j - 1)) :: cols)
        | Some Up =>
            cols ← nw_path fuel A B subst (i - 1) j;
            Ok ((residue_at A (i - 1), gap) :: cols)
        | Some Left_ =>
            cols ← nw_path fuel A B subst i (j - 1);
            Ok ((gap, residue_at B (j - 1)) :: cols)
        | None => Panic (NoPath i j)
        end
    end
  else Ok [].

(** *** Notions for the statements about alignments *)

(** Removing every gap symbol. *)
Definition ungap (l : list Residue) : list Residue :=
  filter (λ r, r ≠ gap) l.

(** The scoring of the scenarios of the specification: match +1, mismatch
    -1, gap -1. *)
Definition unit_score : MatLookup := λ a b,
  if decide (a = b ∧ a ≠ gap) then 1%Z else (-1)%Z.

Definition residues (s : string) : list Residue := list_byte_of_string s.

Definition symmetric (subst : MatLookup) : Prop := ∀ x y, subst x y = subst y x.

Definition transpose (aln : Alignment) : Alignment :=
  mkAlignment (AlnB aln) (AlnA aln).

Definition swap_col (col : Residue * Residue) : Residue * Residue :=
  (col.2, col.1).

(** No cell on the way of the traceback from (i, j) offers the vertical and
    the horizontal gap at once while the diagonal does not fit. *)
Fixpoint gap_tie_free (fuel : nat) (A B : list Residue) (subst : MatLookup)
    (i j : nat) : bool :=
  if decide (0 < i ∨ 0 < j) then
    match fuel with
    | O => true
    | S fuel =>
        match step_of A B subst i j with
        | Some Diag => gap_tie_free fuel A B subst (i - 1) (j - 1)
        | Some Up =>
            bool_decide (¬ left_fits A B subst i j)
            && gap_tie_free fuel A B subst (i - 1) j
        | Some Left_ => gap_tie_free fuel A B subst i (j - 1)
        | None => true
        end
    end
  else true.

(** ** [HMM.Slice]: slices over a store of backing arrays *)

(** [Slice] allocates a node array and writes to it, and what it leaves
    alone is part of what is proved about it; so here a [[]HMMNode] is a Go
    slice header that points into a backing array, and the arrays live in a
    store.  A node is copied as a struct: its emission tables are copied
    as headers, and [Slice] writes no [Prob] array, so a node keeps its
    tables by value. *)
Record slice : Type := mkSlice {
  s_arr : nat;    (* the backing array *)
  s_off : nat;    (* where in the array the slice starts *)
  s_len : nat;    (* len(s) *)
  s_cap : nat     (* cap(s) *)
}.

Abbreviation store_of_arrays := (gmap nat (list HMMNode)) (only parsing).

(** The [HMM] struct: the header of [Nodes], the alphabet and the null
    model (neither of which [Slice] writes). *)
Record HMMstruct : Type := mkHMMstruct {
  SNodes : slice;
  SAlphabet : list Residue;
  SNull : EProbs
}.

(** The header fits the store: its array is there and holds the capacity;
    a capacity is a Go [int]. *)
Definition valid (σ : store_of_arrays) (s : slice) : Prop :=
  s_len s ≤ s_cap s ∧ (Z.of_nat (s_cap s) < 2 ^ 63)%Z ∧
  ∃ a, σ !! s_arr s = Some a ∧ s_off s + s_cap s ≤ length a.

(** The elements [s[0], ..., s[len(s)-1]]. *)
Definition slice_elems (σ : store_of_arrays) (s : slice) : list HMMNode :=
  take (s_len s) (drop (s_off s) (default [] (σ !! s_arr s))).

(** The model that the Viterbi engine reads. *)
Definition view (σ : store_of_arrays) (hmm : HMMstruct) : HMM :=
  mkHMM (slice_elems σ (SNodes hmm)) (SAlphabet hmm) (SNull hmm).

(** The zero value of [HMMNode]. *)
Definition zero_node : HMMNode :=
  mkHMMNode x00 0 (mkEProbs x00 []) (mkEProbs x00 []) 
    (mkTProbs pzero pzero pzero pzero pzero pzero pzero) pzero pzero pzero.

(** [make([]HMMNode, n)] *)
Definition make_nodes (n : Z) (σ : store_of_arrays)
  : res (slice * store_of_arrays) :=
  if decide (n < 0)%Z then Panic MakeLenOutOfRange
  else
    let a := fresh (dom σ) in
    Ok (mkSlice a 0 (Z.to_nat n) (Z.to_nat n),
        <[a := replicate (Z.to_nat n) zero_node]> σ).

(** [s[lo:hi]]: for a slice the upper bound is the capacity. *)
Definition reslice (s : slice) (lo hi : Z) : res slice :=
  if decide (0 ≤ lo ∧ lo ≤ hi ∧ hi ≤ Z.of_nat (s_cap s))%Z then
    Ok (mkSlice (s_arr s) (s_off s + Z.to_nat lo) (Z.to_nat (hi - lo))
          (s_cap s - Z.to_nat lo))
  else Panic SliceBoundsOutOfRange.

(** [copy(dst, src)] *)
Definition copy (dst src : slice) (σ : store_of_arrays) : store_of_arrays :=
  let n := Nat.min (s_len dst) (s_len src) in
  let xs := take n (slice_elems σ src) in
  alter (λ a, take (s_off dst) a ++ xs ++ drop (s_off dst + length xs) a)
    (s_arr dst) σ.

(** [s[i].field = v], with the bounds check of the index. *)
Definition update_at (s : slice) (i : Z) (f : HMMNode → HMMNode)
    (σ : store_of_arrays) : res store_of_arrays :=
  if decide (0 ≤ i < Z.of_nat (s_len s))%Z then
    Ok (alter (alter f (s_off s + Z.to_nat i)) (s_arr s) σ)
  else Panic IndexOutOfRange.

Definition with_transitions (f : TProbs → TProbs) (nd : HMMNode) : HMMNode :=
  mkHMMNode (NodeResidue nd) (NodeNum nd) (InsEmit nd) (MatEmit nd)
    (f (Transitions nd)) (NeffM nd) (NeffI nd) (NeffD nd).

Definition set_MM (p : Prob) (t : TProbs) : TProbs :=
  mkTProbs p (MI t) (MD t) (IM t) (II t) (DM t) (DD t).

Definition set_MI (p : Prob) (t : TProbs) : TProbs :=
  mkTProbs (MM t) p (MD t) (IM t) (II t) (DM t) (DD t).

Definition set_MD (p : Prob) (t : TProbs) : TProbs :=
  mkTProbs (MM t) (MI t) p (IM t) (II t) (DM t) (DD t).

Definition set_IM (p : Prob) (t : TProbs) : TProbs :=
  mkTProbs (MM t) (MI t) (MD t) p (II t) (DM t) (DD t).

Definition set_II (p : Prob) (t : TProbs) : TProbs :=
  mkTProbs (MM t) (MI t) (MD t) (IM t) p (DM t) (DD t).

Definition set_DM (p : Prob) (t : TProbs) : TProbs :=
  mkTProbs (MM t) (MI t) (MD t) (IM t) (II t) p (DD t).

Definition set_DD (p : Prob) (t : TProbs) : TProbs :=
  mkTProbs (MM t) (MI t) (MD t) (IM t) (II t) (DM t) p.

Definition Slice (hmm : HMMstruct) (start end_ : Z) (σ : store_of_arrays)
  : res (HMMstruct * store_of_arrays) :=
  '(nodes, σ) ← make_nodes (wrap64 (end_ - start)) σ;
  src ← reslice (SNodes hmm) start end_;
  let σ := copy nodes src σ in
  let last := (Z.of_nat (s_len nodes) - 1)%Z in
  σ ← update_at nodes last (with_transitions (set_MM pzero)) σ;
  σ ← update_at nodes last (with_transitions (set_MI MinProb)) σ;
  σ ← update_at nodes last (with_transitions (set_MD MinProb)) σ;
  σ ← update_at nodes last (with_transitions (set_IM pzero)) σ;
  σ ← update_at nodes last (with_transitions (set_II MinProb)) σ;
  σ ← update_at nodes last (with_transitions (set_DM pzero)) σ;
  σ ← update_at nodes last (with_transitions (set_DD MinProb)) σ;
  Ok (mkHMMstruct nodes (SAlphabet hmm) (SNull hmm), σ).

(** *** Notions and examples for the statements about [Slice] *)

(** A node whose transitions are all 0, a store with one array of two
    nodes, a model whose [Nodes] is that array, and a model whose [Nodes]
    has length 1 and capacity 2 (as [append] leaves it). *)
Definition node_Z : HMMNode :=
  mkHMMNode "X"%byte 1 (NewEProbs ["X"%byte]) (mkEProbs "X"%byte [pzero])
    (mkTProbs pzero pzero pzero pzero pzero pzero pzero) pzero pzero pzero.

Definition store_Z : store_of_arrays := {[ 0 := [node_Z; node_Z] ]}.

Definition hmm_full : HMMstruct :=
  mkHMMstruct (mkSlice 0 0 2 2) ["X"%byte] (NewEProbs ["X"%byte]).

Definition hmm_spare : HMMstruct :=
  mkHMMstruct (mkSlice 0 0 1 2) ["X"%byte] (NewEProbs ["X"%byte]).

(** The seven assignments to the last node's transitions. *)
Definition force_exit (nd : HMMNode) : HMMNode :=
  with_transitions (λ _, exit_row) nd.

Inductive is_Ok {X : Type} : res X → Prop :=
  | is_Ok_intro x : is_Ok (Ok x).

(** ** Lengths and indices within Go's [int] *)

(** [n] is a value of Go's [int]. *)
Definition fits_int (n : nat) : Prop := (Z.of_nat n < 2 ^ 63)%Z.

(** [3*nodes*(seqLen+1)] with [nodes := numNodes + 1], as Go computes it
    in [AllocTable]. *)
Definition table_len_int (numNodes seqLen : Z) : Z :=
  mul64 (mul64 3 (add64 numNodes 1)) (add64 seqLen 1).

(** [int(state) + 3*(node+t.nodes*obs)], as Go computes it in [index]. *)
Definition index_int (nodes state node obs : Z) : Z :=
  add64 state (mul64 3 (add64 node (mul64 nodes obs))).

(** [r*c] with [r, c := len(A)+1, len(B)+1], as Go computes it in
    [NeedlemanWunsch]. *)
Definition matrix_len_int (lenA lenB : Z) : Z :=
  mul64 (add64 lenA 1) (add64 lenB 1).

(** [i*c + j], as Go computes it in [NeedlemanWunsch]. *)
Definition cell_index_int (c i j : Z) : Z := add64 (mul64 i c) j.

(** ** Further notions *)

(** A table over the alphabet that holds every byte value from 0 to 255. *)
Definition alphabet_wide : list Residue := [x00; "A"%byte; xff].

(** The flat table [t], which may be larger than the model needs, holds
    the cells [T] of a model with [N] nodes and a sequence of [L]
    residues. *)
Definition rep_within (N L : nat) (t : DynamicTable) (T : ViterbiSpec.cells)
  : Prop :=
  N < nodes t ∧
  3 * nodes t * (L + 1) ≤ length (scores t) ∧
  ∀ s n o, stored s → n ≤ N → o ≤ L →
    scores t !! index t s n o = Some (T s n o).

(** A result that is either a value with the property [P] or the panic of
    an index out of range. *)
Definition Ok_or_index_panic {X : Type} (P : X → Prop) (r : res X) : Prop :=
  match r with
  | Ok x => P x
  | Panic p => p = IndexOutOfRange
  end.

(** The table has the dimensions of [t0]. *)
Definition same_dims (t0 t : DynamicTable) : Prop :=
  nodes t = nodes t0 ∧ length (scores t) = length (scores t0).

(** The state, node and observation of the slot [i] of a table. *)
Definition slot_state (i : nat) : HMMState :=
  match i mod 3 with
  | 0 => Match
  | 1 => Deletion
  | _ => Insertion
  end.

Definition slot_node (t : DynamicTable) (i : nat) : nat := (i / 3) mod nodes t.

Definition slot_obs (t : DynamicTable) (i : nat) : nat := (i / 3) / nodes t.

(** No cell of the table is above [MinProb]; a NaN is above nothing and
    below nothing. *)
Definition at_most_MinProb (T : ViterbiSpec.cells) : Prop :=
  ∀ s n o, SFleb (T s n o) MinProb = true.

(** A sequence without residues. *)
Definition seq_empty : Sequence := mkSequence EmptyString [].

(** [node_C] with another reference residue, node number, match emissions
    and effective counts. *)
Definition node_C' : HMMNode :=
  mkHMMNode "Y"%byte 7 (NewEProbs ["X"%byte]) (NewEProbs ["X"%byte])
    exit_row MinProb MinProb MinProb.

Definition hmm_C' : HMM := mkHMM [node_C'; node_C] [] (NewEProbs []).

(** *** Further notions for the statements about alignments *)

(** The score of a column: the gap penalty [subst('-', '-')] for a column
    with a gap, the substitution score otherwise. *)
Definition col_score (subst : MatLookup) (col : Residue * Residue) : Z :=
  if decide (col.1 = gap ∨ col.2 = gap) then subst gap gap
  else subst col.1 col.2.

(** The columns of an alignment, left to right. *)
Definition columns (aln : Alignment) : list (Residue * Residue) :=
  zip (AlnA aln) (AlnB aln).

(** The score of an alignment: the scores of its columns added up in
    Go's [int], column after column. *)
Definition aln_score (subst : MatLookup) (aln : Alignment) : Z :=
  foldl (λ acc col, add64 acc (col_score subst col)) 0%Z (columns aln).

(** The score of a list of columns as an integer of mathematics. *)
Definition total_score (subst : MatLookup) (cols : list (Residue * Residue))
  : Z :=
  foldr (λ col acc, (col_score subst col + acc)%Z) 0%Z cols.

(** The columns align [A] with [B]: without the gaps the two rows are [A]
    and [B], and no column is a pair of gaps. *)
Definition is_alignment (A B : list Residue) (cols : list (Residue * Residue))
  : Prop :=
  ungap cols.*1 = A ∧ ungap cols.*2 = B ∧
  Forall (λ col, col.1 ≠ gap ∨ col.2 ≠ gap) cols.

(** ** [HMMCat] and [NewHMM], over the store of backing arrays *)

(** [nodes[len(h1.Nodes):]] is [reslice nodes len(h1.Nodes) len(nodes)];
    the length of the new array is a sum of two Go [int]s. *)
Definition HMMCat (h1 h2 : HMMstruct) (σ : store_of_arrays)
  : res (HMMstruct * store_of_arrays) :=
  '(nodes, σ) ← make_nodes (add64 (Z.of_nat (s_len (SNodes h1)))
                                  (Z.of_nat (s_len (SNodes h2)))) σ;
  let σ := copy nodes (SNodes h1) σ in
  rest ← reslice nodes (Z.of_nat (s_len (SNodes h1))) (Z.of_nat (s_len nodes));
  let σ := copy rest (SNodes h2) σ in
  Ok (mkHMMstruct nodes (SAlphabet h1) (SNull h1), σ).

(** [NewHMM] keeps the header it is given: no array is allocated. *)
Definition NewHMM (nodes : slice) (alphabet : list Residue) (null : EProbs)
  : HMMstruct :=
  mkHMMstruct nodes alphabet null.

(** [s[:cap(s)]]: the elements of the backing array that the slice can be
    extended to. *)
Definition backing (σ : store_of_arrays) (s : slice) : list HMMNode :=
  slice_elems σ (mkSlice (s_arr s) (s_off s) (s_cap s) (s_cap s)).

(** A second array, and a model over another alphabet whose [Nodes] is
    that array. *)
Definition node_W : HMMNode :=
  mkHMMNode "W"%byte 2 (NewEProbs ["W"%byte]) (mkEProbs "W"%byte [pzero])
    exit_row pzero pzero pzero.

Definition store_ZW : store_of_arrays :=
  {[ 0 := [node_Z; node_Z]; 1 := [node_W] ]}.

Definition hmm_W : HMMstruct :=
  mkHMMstruct (mkSlice 1 0 1 1) ["W"%byte] (NewEProbs ["W"%byte]).

(** ** Alphabets *)

(** [Alphabet.Equals]: the loop over [a1], entered when the lengths
    agree; [i] is the index of the residue at hand. *)
Fixpoint Equals_loop (a1 a2 : list Residue) (i : nat) : res bool :=
  match a1 with
  | [] => Ok true
  | residue :: rest =>
      x ← get a2 i;
      if decide (residue ≠ x) then Ok false else Equals_loop rest a2 (i + 1)
  end.

Definition Equals (a1 a2 : list Residue) : res bool :=
  if decide (length a1 ≠ length a2) then Ok false else Equals_loop a1 a2 0.

(** [Alphabet.Index]: the array [[256]int], zeroed, is written at the
    byte of every residue; a byte is always within the array. *)
Fixpoint Index_loop (a : list Residue) (i : nat) (index : list nat)
  : list nat :=
  match a with
  | [] => index
  | r :: rest => Index_loop rest (i + 1) (<[rnum r := i]> index)
  end.

Definition Index (a : list Residue) : list nat :=
  Index_loop a 0 (replicate 256 0).

(** ** [Residue.HMMState] *)

Definition Residue_HMMState (r : Residue) : HMMState :=
  if decide (r = "-"%byte) then Deletion
  else if decide (r = "."%byte) then Insertion
  else if decide (rnum "a"%byte ≤ rnum r ∧ rnum r ≤ rnum "z"%byte) then Insertion
  else if decide (rnum "A"%byte ≤ rnum r ∧ rnum r ≤ rnum "Z"%byte) then Match
  else Match.

(** ** The helper [newEProbs] of the tests *)

(** [for r, p := range m { ep.Set(r, p) }]: a Go map is ranged over in an
    order that is not specified; [m] lists the entries of the map, which
    has every key once, in the order of one run. *)
Fixpoint set_all (ep : EProbs) (m : list (Residue * Prob)) : res EProbs :=
  match m with
  | [] => Ok ep
  | (r, p) :: rest => ep ← Set_ ep r p; set_all ep rest
  end.

Fixpoint newEProbs_loop (alpha : list Residue)
    (probs : list (list (Residue * Prob))) (eps : list EProbs)
  : res (list EProbs) :=
  match probs with
  | [] => Ok eps
  | m :: rest =>
      ep ← set_all (NewEProbs alpha) m;
      newEProbs_loop alpha rest (eps ++ [ep])
  end.

Definition newEProbs (alpha : list Residue)
    (probs : list (list (Residue * Prob))) : res (list EProbs) :=
  newEProbs_loop alpha probs [].

(** [shortAlpha] of the tests. *)
Definition shortAlpha : list Residue := ["A"%byte; "B"%byte; "C"%byte].

(** ** Sequences over a store of residue arrays *)

(** [Sequence.Slice] shares the array of residues and [Sequence.Copy] does
    not, so here [Residues] is a slice header into a store of residue
    arrays, as [Nodes] is for [HMM.Slice]. *)
Module SequenceMethods.

Abbreviation store_of_residues := (gmap nat (list Residue)) (only parsing).

(** The [Sequence] struct: the name and the header of [Residues]. *)
Record SequenceStruct : Type := mkSequenceStruct {
  SName : string;
  SResidues : slice
}.

Definition valid (σ : store_of_residues) (s : slice) : Prop :=
  s_len s ≤ s_cap s ∧ (Z.of_nat (s_cap s) < 2 ^ 63)%Z ∧
  ∃ a, σ !! s_arr s = Some a ∧ s_off s + s_cap s ≤ length a.

(** The residues [s[0], ..., s[len(s)-1]]. *)
Definition slice_elems (σ : store_of_residues) (s : slice) : list Residue :=
  take (s_len s) (drop (s_off s) (default [] (σ !! s_arr s))).

(** The sequence that the Viterbi engine and the aligner read. *)
Definition view (σ : store_of_residues) (s : SequenceStruct) : Sequence :=
  mkSequence (SName s) (slice_elems σ (SResidues s)).

(** [make([]Residue, n)] *)
Definition make_residues (n : Z) (σ : store_of_residues)
  : res (slice * store_of_residues) :=
  if decide (n < 0)%Z then Panic MakeLenOutOfRange
  else
    let a := fresh (dom σ) in
    Ok (mkSlice a 0 (Z.to_nat n) (Z.to_nat n),
        <[a := replicate (Z.to_nat n) x00]> σ).

(** [copy(dst, src)] *)
Definition copy (dst src : slice) (σ : store_of_residues) : store_of_residues :=
  let n := Nat.min (s_len dst) (s_len src) in
  let xs := take n (slice_elems σ src) in
  alter (λ a, take (s_off dst) a ++ xs ++ drop (s_off dst + length xs) a)
    (s_arr dst) σ.

(** [s[i] = r], with the bounds check of the index. *)
Definition write (s : slice) (i : Z) (r : Residue) (σ : store_of_residues)
  : res store_of_residues :=
  if decide (0 ≤ i < Z.of_nat (s_len s))%Z then
    Ok (alter (<[s_off s + Z.to_nat i := r]>) (s_arr s) σ)
  else Panic IndexOutOfRange.

(** The name is formatted with the verb %s, which gives the name. *)
Definition Copy (s : SequenceStruct) (σ : store_of_residues)
  : res (SequenceStruct * store_of_residues) :=
  '(residues, σ) ← make_residues (Z.of_nat (s_len (SResidues s))) σ;
  let σ := copy residues (SResidues s) σ in
  Ok (mkSequenceStruct (SName s) residues, σ).

Definition Slice (s : SequenceStruct) (start end_ : Z) : res SequenceStruct :=
  rs ← reslice (SResidues s) start end_;
  Ok (mkSequenceStruct (SName s) rs).

(** A store with the one array "ABCD" and the sequence over it. *)
Definition store_ABCD : store_of_residues :=
  {[ 0 := ["A"%byte; "B"%byte; "C"%byte; "D"%byte] ]}.

Definition seq_ABCD : SequenceStruct :=
  mkSequenceStruct "abcd" (mkSlice 0 0 4 4).

End SequenceMethods.

(** * Proofs *)

(** ** Lengths and indices within Go's [int] *)

Lemma wrap64_fits z : (0 ≤ z < 2 ^ 63)%Z → wrap64 z = z.
Proof. intros Hz. unfold wrap64. rewrite Z.mod_small by lia. lia. Qed.

(** Where the length of the table fits [int], Go computes the length that
    [AllocTable] has here. *)
Lemma table_len_int_fits (numNodes seqLen : nat) :
  fits_int (3 * (numNodes + 1) * (seqLen + 1)) →
  table_len_int (Z.of_nat numNodes) (Z.of_nat seqLen)
  = Z.of_nat (3 * (numNodes + 1) * (seqLen + 1)).
Proof.
  unfold fits_int, table_len_int, mul64, add64. intros Hfit.
  assert (3 * (numNodes + 1) ≤ 3 * (numNodes + 1) * (seqLen + 1)) by nia.
  assert (seqLen + 1 ≤ 3 * (numNodes + 1) * (seqLen + 1)) by nia.
  rewrite (wrap64_fits (Z.of_nat numNodes + 1)) by lia.
  rewrite (wrap64_fits (3 * _)) by lia.
  rewrite (wrap64_fits (Z.of_nat seqLen + 1)) by lia.
  rewrite wrap64_fits by nia. lia.
Qed.

(** Where the slot fits [int], Go computes the slot that [index] gives
    here. *)
Lemma index_int_fits (t : DynamicTable) (s : HMMState) (n o : nat) :
  fits_int (index t s n o) →
  index_int (Z.of_nat (nodes t)) (Z.of_nat (state_int s)) (Z.of_nat n)
    (Z.of_nat o)
  = Z.of_nat (index t s n o).
Proof.
  unfold fits_int, index_int, index, mul64, add64. intros Hfit.
  rewrite (wrap64_fits (Z.of_nat (nodes t) * _)) by nia.
  rewrite (wrap64_fits (Z.of_nat n + _)) by nia.
  rewrite (wrap64_fits (3 * _)) by nia.
  rewrite wrap64_fits by nia. lia.
Qed.

(** Where the length of the matrix fits [int], Go computes the length that
    [NeedlemanWunsch] has here. *)
Lemma matrix_len_int_fits (A B : list Residue) :
  fits_int ((length A + 1) * (length B + 1)) →
  matrix_len_int (Z.of_nat (length A)) (Z.of_nat (length B))
  = Z.of_nat ((length A + 1) * (length B + 1)).
Proof.
  unfold fits_int, matrix_len_int, mul64, add64. intros Hfit.
  rewrite (wrap64_fits (Z.of_nat (length A) + 1)) by nia.
  rewrite (wrap64_fits (Z.of_nat (length B) + 1)) by nia.
  rewrite wrap64_fits by nia. lia.
Qed.

(** The cells of the matrix are below its length, and Go computes their
    indices as they are computed here. *)
Lemma cell_index_int_fits (r c i j : nat) :
  fits_int (r * c) → i < r → j < c →
  i * c + j < r * c ∧
  cell_index_int (Z.of_nat c) (Z.of_nat i) (Z.of_nat j)
  = Z.of_nat (i * c + j).
Proof.
  unfold fits_int, cell_index_int, mul64, add64. intros Hfit Hi Hj.
  assert (i * c + j < r * c) by nia. split; [done|].
  rewrite (wrap64_fits (Z.of_nat i * _)) by nia.
  rewrite wrap64_fits by nia. lia.
Qed.

(** ** Facts about the run-time layer *)

Lemma get_Ok {A} (l : list A) i x : get l i = Ok x ↔ l !! i = Some x.
Proof. unfold get. destruct (l !! i); split; congruence. Qed.

Lemma store_lt {A} (l : list A) i x :
  i < length l → store l i x = Ok (<[i := x]> l).
Proof. intros H. unfold store. by rewrite decide_True. Qed.

(** ** Emission tables: the span found by [NewEProbs] *)

Lemma rnum_bounded r : rnum r < 256.
Proof. unfold rnum. pose proof (Byte.to_nat_bounded r). lia. Qed.

Lemma span_fold_le alphabet lo hi :
  rnum lo ≤ rnum hi →
  rnum (foldl span_step (lo, hi) alphabet).1
  ≤ rnum (foldl span_step (lo, hi) alphabet).2.
Proof.
  revert lo hi. induction alphabet as [|r rs IH]; intros lo hi Hle; [done|].
  cbn [foldl span_step]. apply IH.
  repeat case_decide; lia.
Qed.

Lemma span_fold_nonempty r rs :
  rnum (foldl span_step (xff, x00) (r :: rs)).1
  ≤ rnum (foldl span_step (xff, x00) (r :: rs)).2.
Proof.
  cbn [foldl span_step]. apply span_fold_le.
  pose proof (rnum_bounded r).
  assert (rnum xff = 255) as Hff by reflexivity.
  assert (rnum x00 = 0) as H00 by reflexivity.
  repeat case_decide; cbn [fst snd]; lia.
Qed.

Lemma NewEProbs_no_wrap alphabet :
  alphabet ≠ [] →
  rnum (Offset (NewEProbs alphabet)) + length (Probs (NewEProbs alphabet)) ≤ 256.
Proof.
  destruct alphabet as [|r rs]; [done|]. intros _.
  pose proof (span_fold_nonempty r rs) as Hle.
  unfold NewEProbs.
  destruct (foldl span_step _ (r :: rs)) as [lo hi]. cbn [fst snd] in Hle.
  cbn [Offset Probs]. rewrite length_replicate.
  pose proof (rnum_bounded lo). pose proof (rnum_bounded hi).
  unfold sub8, add8.
  destruct (decide (rnum hi = 255)) as [->|Hne].
  - change ((1 + 255) mod 256) with 0.
    destruct (decide (rnum lo = 0)) as [->|Hlo].
    + cbn. lia.
    + rewrite Nat.mod_small by lia. lia.
  - rewrite (Nat.mod_small (1 + rnum hi)) by lia.
    replace (1 + rnum hi + 256 - rnum lo) with ((1 + rnum hi - rnum lo) + 1 * 256) by lia.
    rewrite Nat.Div0.mod_add. rewrite Nat.mod_small by lia. lia.
Qed.

Lemma built_from_no_wrap alphabet ep :
  alphabet ≠ [] → built_from alphabet ep →
  rnum (Offset ep) + length (Probs ep) ≤ 256.
Proof.
  intros Hne Hb. induction Hb as [|ep r p ep' Hb IH Hset].
  - by apply NewEProbs_no_wrap.
  - unfold Set_, store in Hset. case_decide; [|done].
    cbn in Hset. injection Hset as <-. cbn [Offset Probs].
    by rewrite length_insert.
Qed.

Lemma Lookup_no_wrap ep r :
  rnum (Offset ep) + length (Probs ep) ≤ 256 →
  ¬ in_span ep r → Lookup ep r = Ok MinProb.
Proof.
  intros Hw Hout. unfold Lookup.
  pose proof (rnum_bounded r). pose proof (rnum_bounded (Offset ep)).
  assert (length (Probs ep) ≤ sub8 (rnum r) (rnum (Offset ep))) as Hge.
  { unfold sub8, in_span in *.
    destruct (decide (rnum r < rnum (Offset ep))).
    - rewrite Nat.mod_small by lia. lia.
    - replace (rnum r + 256 - rnum (Offset ep))
        with ((rnum r - rnum (Offset ep)) + 1 * 256) by lia.
      rewrite Nat.Div0.mod_add. rewrite Nat.mod_small by lia. lia. }
  apply Nat.leb_le in Hge. rewrite Hge. by rewrite orb_true_r.
Qed.

(** C7. A table built by [NewEProbs] from a non-empty alphabet (and filled
    by any [Set]s) answers [MinProb], without panicking, for every residue
    outside the byte span [Offset, Offset + len(Probs) - 1]; the wrap-around
    of the byte subtraction [r - Offset] never lands on a stored value. *)
Theorem Lookup_outside_span alphabet ep r :
  alphabet ≠ [] → built_from alphabet ep → ¬ in_span ep r →
  Lookup ep r = Ok MinProb.
Proof.
  intros Hne Hb Hout. apply Lookup_no_wrap; [|done].
  by apply (built_from_no_wrap alphabet).
Qed.

(** '0' is byte 48, below the offset 'A' = 65: the subtraction wraps to 239,
    which is past the three stored values. *)
Lemma Lookup_outside_span_witness : Lookup eprobs_ABC "0"%byte = Ok MinProb.
Proof.
  apply (Lookup_outside_span ["A"%byte; "B"%byte; "C"%byte]).
  - discriminate.
  - apply (built_set _ (NewEProbs ["A"%byte; "B"%byte; "C"%byte]) "B"%byte pzero);
      [apply built_new | reflexivity].
  - unfold in_span. cbn. lia.
Defined.

(** ** The Viterbi engine refines the dynamic program of the specification *)

Lemma bind_Ok {A B} (a : A) (k : A → res B) : (Ok a ≫= k) = k a.
Proof. reflexivity. Qed.

Lemma fmap_Ok {A B} (f : A → B) (a : A) : f <$> Ok a = Ok (f a).
Proof. reflexivity. Qed.

Ltac ok_step := repeat (rewrite bind_Ok || rewrite fmap_Ok).

(** Two runs of a loop, one on the program's state and one on the model's,
    stay related when each pass of the body keeps them related. *)
Lemma for_range_sim {St U : Type} (R : St → U → Prop)
    (body : nat → St → res St) (f : U → nat → U) n :
  ∀ lo s u,
    R s u →
    (∀ i s u, lo ≤ i < lo + n → R s u → ∃ s', body i s = Ok s' ∧ R s' (f u i)) →
    ∃ s', for_range lo n body s = Ok s' ∧ R s' (foldl f u (List.seq lo n)).
Proof.
  induction n as [|n IH]; intros lo s u HR Hbody.
  - exists s. by split.
  - cbn [for_range List.seq foldl].
    destruct (Hbody lo s u) as (s1 & -> & HR1); [lia|done|].
    ok_step. apply IH; [done|].
    intros i s2 u2 Hi. apply Hbody. lia.
Qed.

(** [reset] overwrites every score. *)
Lemma reset_loop n : ∀ lo (sc : list Prob),
  lo + n = length sc →
  for_range lo n (λ i sc, store sc i MinProb) sc
  = Ok (take lo sc ++ replicate n MinProb).
Proof.
  induction n as [|n IH]; intros lo sc Hlen.
  - cbn. f_equal. rewrite take_ge by lia. by rewrite app_nil_r.
  - cbn [for_range]. rewrite store_lt by lia. ok_step.
    rewrite IH by (rewrite length_insert; lia). f_equal.
    rewrite (take_S_r _ _ MinProb) by (apply list_lookup_insert_eq; lia).
    rewrite take_insert_ge by lia.
    by rewrite <- app_assoc.
Qed.

Lemma reset_eq t :
  reset t = Ok (mkTable (replicate (length (scores t)) MinProb) (nodes t)).
Proof. unfold reset. by rewrite reset_loop by lia. Qed.

Lemma state_int_inj s s' : state_int s = state_int s' → s = s'.
Proof. by destruct s, s'. Qed.

Lemma index_lt N L t s n o :
  nodes t = N + 1 → stored s → n ≤ N → o ≤ L →
  index t s n o < 3 * (N + 1) * (L + 1).
Proof. unfold index, stored. intros -> Hs Hn Ho. nia. Qed.

Lemma index_inj N t s n o s' n' o' :
  nodes t = N + 1 → stored s → stored s' → n ≤ N → n' ≤ N →
  index t s n o = index t s' n' o' → s = s' ∧ n = n' ∧ o = o'.
Proof.
  unfold index, stored. intros -> Hs Hs' Hn Hn' Heq.
  assert (state_int s = state_int s'
          ∧ n + (N + 1) * o = n' + (N + 1) * o') as [Hst Hno] by lia.
  apply state_int_inj in Hst.
  assert (o = o') as -> by nia.
  split; [done|]. split; [lia|done].
Qed.

Lemma cell_rep N L t T s n o :
  rep N L t T → stored s → n ≤ N → o ≤ L → cell t s n o = Ok (T s n o).
Proof. intros (_ & _ & Hc) Hs Hn Ho. apply get_Ok. by apply Hc. Qed.

Lemma set_rep N L t T s n o p :
  rep N L t T → stored s → n ≤ N → o ≤ L →
  ∃ t', set t s n o p = Ok t' ∧ rep N L t' (ViterbiSpec.propose T s n o p).
Proof.
  intros (Hn & Hl & Hc) Hs Hle Hlo. unfold set.
  pose proof (index_lt N L t s n o Hn Hs Hle Hlo) as Hlt.
  rewrite (proj2 (get_Ok _ _ _) (Hc s n o Hs Hle Hlo)). ok_step.
  unfold Less.
  destruct (SFltb p (T s n o)) eqn:Hcmp.
  - rewrite store_lt by lia. ok_step. eexists. split; [done|].
    split; [done|]. cbn [scores nodes]. split; [by rewrite length_insert|].
    intros s' n' o' Hs' Hn' Ho'.
    change (index (mkTable _ (nodes t)) s' n' o') with (index t s' n' o').
    unfold ViterbiSpec.propose. rewrite Hcmp. case_decide as Heq.
    + destruct Heq as (-> & -> & ->). apply list_lookup_insert_eq. lia.
    + rewrite list_lookup_insert_ne; [by apply Hc|].
      intros Hi. apply Heq.
      by destruct (index_inj N t s n o s' n' o' Hn Hs Hs' Hle Hn' Hi)
        as (-> & -> & ->).
  - exists t. split; [done|]. split; [done|]. split; [done|].
    intros s' n' o' Hs' Hn' Ho'. unfold ViterbiSpec.propose. rewrite Hcmp.
    case_decide as Heq; [|by apply Hc].
    destruct Heq as (-> & -> & ->). by apply Hc.
Qed.

Lemma propose_ne T s n o v s' n' o' :
  ¬ (s' = s ∧ n' = n ∧ o' = o) →
  ViterbiSpec.propose T s n o v s' n' o' = T s' n' o'.
Proof. intros Hne. unfold ViterbiSpec.propose. by rewrite decide_False. Qed.

Lemma Lookup_lookup ep r : Lookup ep r = Ok (ViterbiSpec.lookup ep r).
Proof.
  unfold Lookup, ViterbiSpec.lookup. cbn [Nat.ltb Nat.leb orb].
  destruct (length (Probs ep) <=? _) eqn:Hle.
  - apply Nat.leb_le in Hle. by rewrite lookup_ge_None_2.
  - apply Nat.leb_gt in Hle.
    destruct (lookup_lt_is_Some_2 (Probs ep) _ Hle) as [p Hp].
    rewrite Hp. by apply get_Ok.
Qed.

Section Refinement.

Variable hmm : HMM.

Variable seq : Sequence.

Lemma stored_Match : stored Match. Proof. unfold stored. cbn. lia. Qed.

Lemma stored_Deletion : stored Deletion. Proof. unfold stored. cbn. lia. Qed.

Lemma stored_Insertion : stored Insertion. Proof. unfold stored. cbn. lia. Qed.

Ltac table_write HR HR' :=
  match goal with
  | |- context [set ?t ?s ?n ?o ?p] =>
      let t' := fresh "t" in
      destruct (set_rep _ _ t _ s n o p HR) as (t' & -> & HR');
      [first [apply stored_Match | apply stored_Deletion | apply stored_Insertion]
      | lia | lia | ok_step]
  end.

Ltac table_read HR :=
  rewrite (cell_rep _ _ _ _ _ _ _ HR)
    by first [apply stored_Match | apply stored_Deletion
             | apply stored_Insertion | lia];
  ok_step.

Lemma body_rep t T n o :
  rep (length (Nodes hmm)) (Len seq) t T →
  n < length (Nodes hmm) → o < Len seq →
  ∃ t', viterbi_body cell set hmm seq n o t = Ok t'
        ∧ rep (length (Nodes hmm)) (Len seq) t'
              (ViterbiSpec.recurrence hmm seq T n o).
Proof.
  intros HR Hn Ho.
  destruct (lookup_lt_is_Some_2 (Nodes hmm) n Hn) as [nd Hnd].
  destruct (lookup_lt_is_Some_2 (Residues seq) o Ho) as [r Hr].
  unfold viterbi_body, ViterbiSpec.recurrence.
  rewrite Hnd, Hr.
  rewrite (proj2 (get_Ok _ _ _) Hnd), (proj2 (get_Ok _ _ _) Hr).
  ok_step. rewrite Lookup_lookup. ok_step.
  set (iemit := ViterbiSpec.lookup (InsEmit nd) r).
  assert ((if decide (n + 1 < length (Nodes hmm)) then
             nd' ← get (Nodes hmm) (n + 1); Lookup (MatEmit nd') r
           else Ok pzero)
          = Ok (match Nodes hmm !! (n + 1) with
                | Some nd' => ViterbiSpec.lookup (MatEmit nd') r
                | None => pzero
                end)) as ->.
  { case_decide as Hlt.
    - destruct (lookup_lt_is_Some_2 (Nodes hmm) (n + 1) Hlt) as [nd' Hnd'].
      rewrite Hnd', (proj2 (get_Ok _ _ _) Hnd'). ok_step. apply Lookup_lookup.
    - by rewrite lookup_ge_None_2 by lia. }
  ok_step.
  set (memit := match Nodes hmm !! (n + 1) with
                | Some nd' => ViterbiSpec.lookup (MatEmit nd') r
                | None => pzero
                end).
  table_read HR.
  table_write HR HR1. table_write HR1 HR2. table_write HR2 HR3.
  table_read HR3.
  table_write HR3 HR4. table_write HR4 HR5.
  table_read HR5.
  table_write HR5 HR6. table_write HR6 HR7.
  eexists. split; [done|].
  cbn [foldl ViterbiSpec.edges]. unfold ViterbiSpec.apply_edge.
  cbn [ViterbiSpec.src ViterbiSpec.dst ViterbiSpec.dnode ViterbiSpec.dobs
       ViterbiSpec.cost].
  rewrite !Nat.add_0_r.
  rewrite !propose_ne in HR7 by (intros (? & ? & ?); (discriminate || lia)).
  rewrite !propose_ne by (intros (? & ? & ?); (discriminate || lia)).
  exact HR7.
Qed.

Lemma boundary_rep (t : DynamicTable) :
  nodes t = length (Nodes hmm) + 1 →
  length (scores t) = 3 * (length (Nodes hmm) + 1) * (Len seq + 1) →
  rep (length (Nodes hmm)) (Len seq)
      (mkTable (<[index t Match 0 0 := pzero]>
                  (replicate (length (scores t)) MinProb)) (nodes t))
      ViterbiSpec.boundary.
Proof.
  intros Hn Hl. split; [done|]. cbn [scores nodes].
  split; [by rewrite length_insert, length_replicate|].
  intros s n o Hs Hle Hlo.
  change (index (mkTable _ (nodes t)) s n o) with (index t s n o).
  pose proof (index_lt _ _ t s n o Hn Hs Hle Hlo) as Hlt.
  unfold ViterbiSpec.boundary. case_decide as Heq.
  - destruct Heq as (-> & -> & ->).
    apply list_lookup_insert_eq. rewrite length_replicate. lia.
  - rewrite list_lookup_insert_ne.
    + apply lookup_replicate_2. lia.
    + intros Hi. apply Heq.
      by destruct (index_inj _ t Match 0 0 s n o Hn stored_Match Hs
                     ltac:(lia) Hle Hi) as (<- & <- & <-).
Qed.

(** On a table of the right dimensions, whatever it holds, [ViterbiScoreMem]
    returns the score of the specification and leaves the filled table. *)
Lemma ViterbiScoreMem_fill (t : DynamicTable) :
  nodes t = length (Nodes hmm) + 1 →
  length (scores t) = 3 * (length (Nodes hmm) + 1) * (Len seq + 1) →
  ∃ t', ViterbiScoreMem hmm seq t = Ok (ViterbiSpec.score hmm seq, t')
        ∧ rep (length (Nodes hmm)) (Len seq) t' (ViterbiSpec.fill hmm seq).
Proof.
  intros Hn Hl. unfold ViterbiScoreMem.
  rewrite reset_eq. ok_step. cbn [scores nodes].
  change (index (mkTable _ (nodes t)) Match 0 0) with (index t Match 0 0).
  pose proof (index_lt _ (Len seq) t Match 0 0 Hn stored_Match
                ltac:(lia) ltac:(lia)) as Hlt.
  rewrite store_lt by (rewrite length_replicate; lia). ok_step.
  pose proof (boundary_rep t Hn Hl) as HR0.
  destruct (for_range_sim (rep (length (Nodes hmm)) (Len seq))
              (λ node table, for_range 0 (Len seq) (λ obs table,
                 viterbi_body cell set hmm seq node obs table) table)
              (λ T n, foldl (λ T o, ViterbiSpec.recurrence hmm seq T n o) T
                        (List.seq 0 (Len seq)))
              (length (Nodes hmm)) 0 _ _ HR0) as (t' & -> & HR).
  { intros n t1 T1 Hi HR1.
    apply (for_range_sim (rep (length (Nodes hmm)) (Len seq))
             (λ obs table, viterbi_body cell set hmm seq n obs table)
             (λ T o, ViterbiSpec.recurrence hmm seq T n o)); [done|].
    intros o t2 T2 Ho HR2. apply body_rep; [done|lia|lia]. }
  ok_step.
  rewrite (cell_rep _ _ _ _ _ _ _ HR) by first [apply stored_Match | lia].
  ok_step. by exists t'.
Qed.

Lemma AllocTable_eq numNodes seqLen :
  AllocTable numNodes seqLen
  = Ok (mkTable (replicate (3 * (numNodes + 1) * (seqLen + 1)) MinProb)
          (numNodes + 1)).
Proof.
  unfold AllocTable. rewrite reset_eq. cbn [scores nodes].
  by rewrite length_replicate.
Qed.

End Refinement.

(** C1 (as amended). For every HMM and sequence whose table length
    3 * (nodeCount + 1) * (seqLen + 1) is a value of Go's [int] (below
    2^63, so that the product does not wrap), [ViterbiScore] returns the
    score of the dynamic program of section 4.3: a table initialised to
    [MinProb] except cell(Match, 0, 0) = 0; for each node and observation
    the SEVEN propose-updates of the recurrence, each keeping the smaller
    value and on a tie the value already present; the result is
    cell(Match, nodeCount, seqLen).  The table that is allocated has
    3 * (nodeCount + 1) * (seqLen + 1) scores, which is the length that Go
    computes, and each pass of the loop body calls [set] seven times. *)
Theorem ViterbiScore_refines_spec (hmm : HMM) (seq : Sequence) :
  fits_int (3 * (length (Nodes hmm) + 1) * (Len seq + 1)) →
  table_len_int (Z.of_nat (length (Nodes hmm))) (Z.of_nat (Len seq))
  = Z.of_nat (3 * (length (Nodes hmm) + 1) * (Len seq + 1)) ∧
  AllocTable (length (Nodes hmm)) (Len seq)
  = Ok (mkTable (replicate (3 * (length (Nodes hmm) + 1) * (Len seq + 1))
                   MinProb) (length (Nodes hmm) + 1)) ∧
  ViterbiScore hmm seq = Ok (ViterbiSpec.score hmm seq) ∧
  ∀ node obs c, node < length (Nodes hmm) → obs < Len seq →
    viterbi_body count_read count_set hmm seq node obs c = Ok (7 + c).
Proof.
  intros Hfit. split; [by apply table_len_int_fits|].
  split; [apply AllocTable_eq|]. split.
  - unfold ViterbiScore. rewrite AllocTable_eq. ok_step.
    destruct (ViterbiScoreMem_fill hmm seq
                (mkTable (replicate (3 * (length (Nodes hmm) + 1) * (Len seq + 1))
                            MinProb) (length (Nodes hmm) + 1)))
      as (t' & -> & _);
      [done|cbn [scores]; by rewrite length_replicate|].
    by ok_step.
  - intros node obs c Hn Ho.
    destruct (lookup_lt_is_Some_2 (Nodes hmm) node Hn) as [nd Hnd].
    destruct (lookup_lt_is_Some_2 (Residues seq) obs Ho) as [r Hr].
    unfold viterbi_body.
    rewrite (proj2 (get_Ok _ _ _) Hnd), (proj2 (get_Ok _ _ _) Hr).
    ok_step. rewrite Lookup_lookup. ok_step.
    case_decide as Hlt.
    + destruct (lookup_lt_is_Some_2 (Nodes hmm) (node + 1) Hlt) as [nd' Hnd'].
      rewrite (proj2 (get_Ok _ _ _) Hnd'). ok_step.
      rewrite Lookup_lookup. by ok_step.
    + by ok_step.
Qed.

Lemma ViterbiScore_refines_spec_witness :
  ViterbiScore hmm_C seq_C = Ok (ViterbiSpec.score hmm_C seq_C) ∧
  viterbi_body count_read count_set hmm_C seq_C 1 1 0 = Ok 7.
Proof.
  destruct (ViterbiScore_refines_spec hmm_C seq_C)
    as (_ & _ & Hscore & Hcalls); [unfold fits_int; vm_compute; reflexivity|].
  split; [exact Hscore|].
  apply (Hcalls 1 1 0); cbn; lia.
Defined.

(** C1 (as stated) fails: a pass of the loop body does not apply nine
    propose-updates.  At node 0 and observation 0 of scenario C it calls
    [set] seven times. *)
Lemma ViterbiScore_not_nine_updates :
  viterbi_body count_read count_set hmm_C seq_C 0 0 0 = Ok 7 ∧
  viterbi_body count_read count_set hmm_C seq_C 0 0 0 ≠ Ok 9.
Proof. split; [reflexivity|discriminate]. Qed.

(** C2. Where the table length 3 * (nodeCount + 1) * (seqLen + 1) is a
    value of Go's [int]: for a table [t] of the dimensions that
    [AllocTable(len(hmm.Nodes), seq.Len())] gives, whatever [t] holds,
    [ViterbiScoreMem(hmm, seq, t)] returns the score that
    [ViterbiScore(hmm, seq)] returns. *)
Theorem ViterbiScoreMem_same_score (hmm : HMM) (seq : Sequence)
    (t t0 : DynamicTable) :
  fits_int (3 * (length (Nodes hmm) + 1) * (Len seq + 1)) →
  AllocTable (length (Nodes hmm)) (Len seq) = Ok t0 →
  nodes t = nodes t0 →
  length (scores t) = length (scores t0) →
  ∃ p t', ViterbiScore hmm seq = Ok p ∧ ViterbiScoreMem hmm seq t = Ok (p, t').
Proof.
  intros _.
  rewrite AllocTable_eq. intros [= <-] Hn Hl. cbn [scores nodes] in Hn, Hl.
  rewrite length_replicate in Hl.
  destruct (ViterbiScoreMem_fill hmm seq t Hn Hl) as (t' & Hmem & _).
  exists (ViterbiSpec.score hmm seq), t'. split; [|done].
  unfold ViterbiScore. rewrite AllocTable_eq. ok_step.
  destruct (ViterbiScoreMem_fill hmm seq
              (mkTable (replicate (3 * (length (Nodes hmm) + 1) * (Len seq + 1))
                          MinProb) (length (Nodes hmm) + 1)))
    as (t1 & -> & _);
    [done|cbn [scores]; by rewrite length_replicate|].
  by ok_step.
Qed.

Lemma ViterbiScoreMem_same_score_witness :
  ∃ p t', ViterbiScore hmm_C seq_C = Ok p
          ∧ ViterbiScoreMem hmm_C seq_C used_table_C = Ok (p, t').
Proof.
  apply (ViterbiScoreMem_same_score hmm_C seq_C used_table_C
           (mkTable (replicate 27 MinProb) 3)).
  - unfold fits_int. vm_compute. reflexivity.
  - reflexivity.
  - reflexivity.
  - reflexivity.
Defined.

(** C9. A two-node model whose nodes answer 0 for the match emission of
    'X', [MinProb] for its insertion emission and carry the transition row
    [MM = IM = DM = 0], [MI = MD = II = DD = MinProb] scores the sequence
    "XX" at exactly 0. *)
Theorem ViterbiScore_scenario_C (hmm : HMM) (seq : Sequence) :
  length (Nodes hmm) = 2 →
  (∀ nd, nd ∈ Nodes hmm →
     Lookup (MatEmit nd) "X"%byte = Ok pzero ∧
     Lookup (InsEmit nd) "X"%byte = Ok MinProb ∧
     Transitions nd = exit_row) →
  Residues seq = ["X"%byte; "X"%byte] →
  ViterbiScore hmm seq = Ok pzero.
Proof.
  intros Hlen Hnodes Hseq.
  unfold ViterbiScore. rewrite AllocTable_eq. ok_step.
  destruct (ViterbiScoreMem_fill hmm seq
              (mkTable (replicate (3 * (length (Nodes hmm) + 1) * (Len seq + 1))
                          MinProb) (length (Nodes hmm) + 1)))
    as (t' & -> & _);
    [done|cbn [scores]; by rewrite length_replicate|].
  ok_step. cbn [fst]. f_equal.
  destruct hmm as [[|n0 [|n1 [|]]] alpha null]; try discriminate Hlen.
  destruct seq as [name rs]. cbn [Nodes Residues] in *. subst rs.
  destruct (Hnodes n0 (list_elem_of_here _ _)) as (_ & Hi0 & Ht0).
  destruct (Hnodes n1 (list_elem_of_further _ _ _ (list_elem_of_here _ _)))
    as (Hm1 & Hi1 & Ht1).
  rewrite Lookup_lookup in Hi0, Hm1, Hi1.
  injection Hi0 as Hi0. injection Hm1 as Hm1. injection Hi1 as Hi1.
  unfold ViterbiSpec.score, ViterbiSpec.fill, Len.
  cbn [Nodes Residues length List.seq foldl].
  unfold ViterbiSpec.recurrence. cbn [Nodes Residues].
  cbn [lookup list_lookup Nat.add].
  rewrite Ht0, Ht1, Hi0, Hi1, Hm1.
  vm_compute. reflexivity.
Qed.

Lemma ViterbiScore_scenario_C_witness : ViterbiScore hmm_C seq_C = Ok pzero.
Proof.
  apply ViterbiScore_scenario_C.
  - reflexivity.
  - intros nd Hnd.
    apply elem_of_cons in Hnd as [->|Hnd];
      [|apply list_elem_of_singleton in Hnd as ->];
      repeat split; reflexivity.
  - reflexivity.
Defined.

(** ** The matrix that [NeedlemanWunsch] builds *)

(** An invariant carried through a loop. *)
Lemma for_range_inv {St : Type} (I : nat → St → Prop)
    (body : nat → St → res St) n :
  ∀ lo s,
    I lo s →
    (∀ i s, lo ≤ i < lo + n → I i s → ∃ s', body i s = Ok s' ∧ I (S i) s') →
    ∃ s', for_range lo n body s = Ok s' ∧ I (lo + n) s'.
Proof.
  induction n as [|n IH]; intros lo s HI Hbody.
  - exists s. rewrite Nat.add_0_r. by split.
  - cbn [for_range].
    destruct (Hbody lo s) as (s1 & -> & HI1); [lia|done|].
    ok_step. replace (lo + S n) with (S lo + n) by lia.
    apply IH; [done|].
    intros i s2 Hi. apply Hbody. lia.
Qed.

Lemma nw_score_row0 A B subst j :
  nw_score A B subst 0 j = mul64 (subst gap gap) (Z.of_nat j).
Proof. reflexivity. Qed.

Lemma nw_score_col0 A B subst i :
  nw_score A B subst i 0 = mul64 (subst gap gap) (Z.of_nat i).
Proof. by destruct i. Qed.

Lemma nw_score_interior A B subst i j :
  nw_score A B subst (S i) (S j)
  = max3 (add64 (nw_score A B subst i j)
                (subst (residue_at A i) (residue_at B j)))
         (add64 (nw_score A B subst i (S j)) (subst gap gap))
         (add64 (nw_score A B subst (S i) j) (subst gap gap)).
Proof. reflexivity. Qed.

Lemma cell_index_lt r c i j : i < r → j < c → i * c + j < r * c.
Proof. intros Hi Hj. nia. Qed.

Lemma cell_index_inj c i j i' j' :
  j < c → j' < c → i * c + j = i' * c + j' → i = i' ∧ j = j'.
Proof. intros Hj Hj' Heq. assert (i = i') by nia. subst. lia. Qed.

Section Fill.

Variables (A B : list Residue) (subst : MatLookup).

Lemma holds_store filled filled' m i j :
  holds A B subst filled m →
  i < length A + 1 → j < length B + 1 →
  (∀ i' j', filled' i' j' → (i' = i ∧ j' = j) ∨ filled i' j') →
  holds A B subst filled'
    (<[i * (length B + 1) + j := nw_score A B subst i j]> m).
Proof.
  intros [Hlen Hm] Hi Hj Hf. split; [by rewrite length_insert|].
  intros i' j' Hi' Hj' Hfilled.
  pose proof (cell_index_lt _ _ i j Hi Hj).
  destruct (decide (i' = i ∧ j' = j)) as [[-> ->]|Hne].
  - apply list_lookup_insert_eq. lia.
  - rewrite list_lookup_insert_ne.
    + apply Hm; [done..|]. destruct (Hf i' j' Hfilled); [done|done].
    + intros Heq. apply Hne. symmetry in Heq.
      by apply cell_index_inj in Heq.
Qed.

(** The first loop: column 0. *)
Lemma fill_col0 m :
  length m = (length A + 1) * (length B + 1) →
  ∃ m', for_range 0 (length A + 1) (λ i matrix,
          store matrix (i * (length B + 1) + 0)
            (mul64 (subst gap gap) (Z.of_nat i))) m = Ok m'
        ∧ holds A B subst (λ i j, j = 0) m'.
Proof.
  intros Hlen.
  destruct (for_range_inv
              (λ k m, holds A B subst (λ i j, j = 0 ∧ i < k) m)
              (λ i matrix, store matrix (i * (length B + 1) + 0)
                             (mul64 (subst gap gap) (Z.of_nat i)))
              (length A + 1) 0 m) as (m' & Hm' & Hh).
  - split; [done|]. intros i j _ _ [_ Hi]. lia.
  - intros i m1 Hi Hh.
    pose proof (cell_index_lt (length A + 1) (length B + 1) i 0
                  ltac:(lia) ltac:(lia)).
    rewrite store_lt by (rewrite (proj1 Hh); lia).
    eexists. split; [done|].
    rewrite <- nw_score_col0 with (A := A) (B := B).
    eapply holds_store; [exact Hh|lia|lia|].
    intros i' j' [-> Hlt]. destruct (decide (i' = i)); [by left|right].
    split; [done|lia].
  - exists m'. split; [done|].
    destruct Hh as [Hl Hc]. split; [done|].
    intros i j Hi Hj ->. apply Hc; [done..|]. split; [done|lia].
Qed.

(** The second loop: row 0. *)
Lemma fill_row0 m :
  holds A B subst (λ i j, j = 0) m →
  ∃ m', for_range 0 (length B + 1) (λ j matrix,
          store matrix (0 * (length B + 1) + j)
            (mul64 (subst gap gap) (Z.of_nat j))) m = Ok m'
        ∧ holds A B subst (λ i j, i = 0 ∨ j = 0) m'.
Proof.
  intros Hh0.
  destruct (for_range_inv
              (λ k m, holds A B subst (λ i j, j = 0 ∨ (i = 0 ∧ j < k)) m)
              (λ j matrix, store matrix (0 * (length B + 1) + j)
                             (mul64 (subst gap gap) (Z.of_nat j)))
              (length B + 1) 0 m) as (m' & Hm' & Hh).
  - destruct Hh0 as [Hl Hc]. split; [done|].
    intros i j Hi Hj [-> | [_ Hlt]]; [by apply Hc|lia].
  - intros j m1 Hj Hh.
    pose proof (cell_index_lt (length A + 1) (length B + 1) 0 j
                  ltac:(lia) ltac:(lia)).
    rewrite store_lt by (rewrite (proj1 Hh); lia).
    eexists. split; [done|].
    rewrite <- nw_score_row0 with (A := A) (B := B).
    eapply holds_store; [exact Hh|lia|lia|].
    intros i' j' [-> | [-> Hlt]].
    + by right; left.
    + destruct (decide (j' = j)); [by left|right]. right. split; [done|lia].
  - exists m'. split; [done|].
    destruct Hh as [Hl Hc]. split; [done|].
    intros i j Hi Hj Hor. apply Hc; [done..|].
    destruct Hor as [-> | ->]; [right; split; [done|lia]|by left].
Qed.

Lemma get_residue_at (l : list Residue) i :
  i < length l → get l i = Ok (residue_at l i).
Proof.
  intros Hi. destruct (lookup_lt_is_Some_2 l i Hi) as [x Hx].
  unfold get, residue_at. by rewrite Hx.
Qed.

(** One cell of the interior, once its three neighbours are filled. *)
Lemma nw_cell_holds filled m i j :
  holds A B subst filled m →
  1 ≤ i < length A + 1 → 1 ≤ j < length B + 1 →
  filled (i - 1) (j - 1) → filled (i - 1) j → filled i (j - 1) →
  nw_cell A B subst (subst gap gap) (length B + 1) i j m
  = Ok (<[i * (length B + 1) + j := nw_score A B subst i j]> m).
Proof.
  intros [Hlen Hm] Hi Hj Hd Hu Hl.
  destruct i as [|i]; [lia|]. destruct j as [|j]; [lia|].
  unfold nw_cell.
  replace (S i - 1) with i in * by lia.
  replace (S j - 1) with j in * by lia.
  replace (S i * (length B + 1) + S j - (length B + 1) - 1)
    with (i * (length B + 1) + j) by lia.
  replace (S i * (length B + 1) + S j - (length B + 1))
    with (i * (length B + 1) + S j) by lia.
  replace (S i * (length B + 1) + S j - 1)
    with (S i * (length B + 1) + j) by lia.
  rewrite (proj2 (get_Ok _ _ _) (Hm i j ltac:(lia) ltac:(lia) Hd)). ok_step.
  rewrite !get_residue_at by lia. ok_step.
  rewrite (proj2 (get_Ok _ _ _) (Hm i (S j) ltac:(lia) ltac:(lia) Hu)). ok_step.
  rewrite (proj2 (get_Ok _ _ _) (Hm (S i) j ltac:(lia) ltac:(lia) Hl)). ok_step.
  pose proof (cell_index_lt (length A + 1) (length B + 1) (S i) (S j)
                ltac:(lia) ltac:(lia)).
  rewrite store_lt by lia. by rewrite nw_score_interior.
Qed.

(** The nested loops: the interior, row by row. *)
Lemma fill_interior m :
  holds A B subst (λ i j, i = 0 ∨ j = 0) m →
  ∃ m', for_range 1 (length A + 1 - 1) (λ i matrix,
          for_range 1 (length B + 1 - 1) (λ j matrix,
            nw_cell A B subst (subst gap gap) (length B + 1) i j matrix)
            matrix) m = Ok m'
        ∧ holds A B subst (λ _ _, True) m'.
Proof.
  intros Hh0.
  destruct (for_range_inv
              (λ k m, holds A B subst (λ i j, i = 0 ∨ j = 0 ∨ i < k) m)
              (λ i matrix,
                 for_range 1 (length B + 1 - 1) (λ j matrix,
                   nw_cell A B subst (subst gap gap) (length B + 1) i j matrix)
                   matrix)
              (length A + 1 - 1) 1 m) as (m' & Hm' & Hh).
  - destruct Hh0 as [Hl Hc]. split; [done|].
    intros i j Hi Hj Hf. apply Hc; [done..|]. lia.
  - intros i m1 Hi Hrow.
    destruct (for_range_inv
                (λ k m, holds A B subst
                          (λ i' j', i' = 0 ∨ j' = 0 ∨ i' < i ∨ (i' = i ∧ j' < k)) m)
                (λ j matrix,
                   nw_cell A B subst (subst gap gap) (length B + 1) i j matrix)
                (length B + 1 - 1) 1 m1) as (m2 & Hm2 & Hh2).
    + destruct Hrow as [Hl Hc]. split; [done|].
      intros i' j' Hi' Hj' Hf. apply Hc; [done..|]. lia.
    + intros j m3 Hj Hcell.
      rewrite (nw_cell_holds _ m3 i j Hcell) by (cbn beta; lia).
      eexists. split; [done|].
      eapply holds_store; [exact Hcell|lia|lia|].
      intros i' j' Hf. destruct (decide (i' = i ∧ j' = j)); [by left|right]. lia.
    + exists m2. split; [done|].
      destruct Hh2 as [Hl Hc]. split; [done|].
      intros i' j' Hi' Hj' Hf. apply Hc; [done..|]. lia.
  - exists m'. split; [done|].
    destruct Hh as [Hl Hc]. split; [done|].
    intros i j Hi Hj _. apply Hc; [done..|]. lia.
Qed.

End Fill.

(** ** The traceback *)

Lemma wrap64_add_l a b : wrap64 (wrap64 a + b) = wrap64 (a + b).
Proof.
  unfold wrap64. f_equal.
  replace ((a + 2 ^ 63) mod 2 ^ 64 - 2 ^ 63 + b + 2 ^ 63)%Z
    with ((a + 2 ^ 63) mod 2 ^ 64 + b)%Z by lia.
  rewrite Z.add_mod_idemp_l by lia. f_equal. lia.
Qed.

(** A gap step along the border lands on the border value. *)
Lemma border_step g (k : nat) :
  mul64 g (Z.of_nat (S k)) = add64 (mul64 g (Z.of_nat k)) g.
Proof.
  unfold mul64, add64. rewrite wrap64_add_l. f_equal. lia.
Qed.

Lemma max3_cases a b c :
  max3 a b c = a ∨ max3 a b c = b ∨ max3 a b c = c.
Proof.
  unfold max3. repeat case_bool_decide; cbn; auto.
Qed.

Lemma max3_max a b c : max3 a b c = Z.max a (Z.max b c).
Proof.
  unfold max3. repeat case_bool_decide; cbn; lia.
Qed.

(** Some condition fits at every cell but (0, 0): the panic of the
    traceback has no cell to happen at. *)
Lemma step_of_Some A B subst i j :
  0 < i ∨ 0 < j → is_Some (step_of A B subst i j).
Proof.
  intros Hij. unfold step_of.
  destruct (decide (diag_fits A B subst i j)) as [|Hd]; [by eexists|].
  destruct (decide (up_fits A B subst i j)) as [|Hu]; [by eexists|].
  destruct (decide (left_fits A B subst i j)) as [|Hl]; [by eexists|].
  exfalso. unfold diag_fits, up_fits, left_fits in *.
  destruct i as [|i], j as [|j].
  - lia.
  - apply Hl. split; [lia|]. replace (S j - 1) with j by lia.
    rewrite !nw_score_row0. apply border_step.
  - apply Hu. split; [lia|]. replace (S i - 1) with i by lia.
    rewrite !nw_score_col0. apply border_step.
  - replace (S i - 1) with i in * by lia.
    replace (S j - 1) with j in * by lia.
    rewrite nw_score_interior in *.
    match goal with
    | _ : context [max3 ?a ?b ?c = _] |- _ =>
        destruct (max3_cases a b c) as [H|[H|H]]
    end.
    + apply Hd. split; [lia|]. split; [lia|]. exact H.
    + apply Hu. split; [lia|]. exact H.
    + apply Hl. split; [lia|]. exact H.
Qed.

Section Traceback.

Variables (A B : list Residue) (subst : MatLookup) (m : list Z).

Hypothesis Hm : holds A B subst (λ _ _, True) m.

Lemma matrix_get i j :
  i ≤ length A → j ≤ length B →
  get m (i * (length B + 1) + j) = Ok (nw_score A B subst i j).
Proof.
  intros Hi Hj. apply get_Ok. apply (proj2 Hm); [lia|lia|done].
Qed.

Lemma diag_check i j :
  i ≤ length A → j ≤ length B →
  (if decide (0 < i ∧ 0 < j) then
     v ← get m (i * (length B + 1) + j);
     d ← get m (i * (length B + 1) + j - (length B + 1) - 1);
     a ← get A (i - 1);
     b ← get B (j - 1);
     Ok (bool_decide (v = add64 d (subst a b)))
   else Ok false)
  = Ok (bool_decide (diag_fits A B subst i j)).
Proof.
  intros Hi Hj. unfold diag_fits. case_decide as Hpos.
  - replace (i * (length B + 1) + j - (length B + 1) - 1)
      with ((i - 1) * (length B + 1) + (j - 1)).
    2:{ destruct i as [|i]; [lia|]. destruct j as [|j]; lia. }
    rewrite !matrix_get by lia. ok_step.
    rewrite !get_residue_at by lia. ok_step.
    f_equal. apply bool_decide_ext. intuition.
  - f_equal. symmetry. apply bool_decide_eq_false. intuition.
Qed.

Lemma up_check i j :
  i ≤ length A → j ≤ length B →
  (if decide (0 < i) then
     v ← get m (i * (length B + 1) + j);
     u ← get m (i * (length B + 1) + j - (length B + 1));
     Ok (bool_decide (v = add64 u (subst gap gap)))
   else Ok false)
  = Ok (bool_decide (up_fits A B subst i j)).
Proof.
  intros Hi Hj. unfold up_fits. case_decide as Hpos.
  - replace (i * (length B + 1) + j - (length B + 1))
      with ((i - 1) * (length B + 1) + j).
    2:{ destruct i as [|i]; lia. }
    rewrite !matrix_get by lia. ok_step.
    f_equal. apply bool_decide_ext. intuition.
  - f_equal. symmetry. apply bool_decide_eq_false. intuition.
Qed.

Lemma left_check i j :
  i ≤ length A → j ≤ length B →
  (if decide (0 < j) then
     v ← get m (i * (length B + 1) + j);
     l ← get m (i * (length B + 1) + j - 1);
     Ok (bool_decide (v = add64 l (subst gap gap)))
   else Ok false)
  = Ok (bool_decide (left_fits A B subst i j)).
Proof.
  intros Hi Hj. unfold left_fits. case_decide as Hpos.
  - replace (i * (length B + 1) + j - 1)
      with (i * (length B + 1) + (j - 1)) by lia.
    rewrite !matrix_get by lia. ok_step.
    f_equal. apply bool_decide_ext. intuition.
  - f_equal. symmetry. apply bool_decide_eq_false. intuition.
Qed.

(** The loop of the traceback appends the columns of [nw_path]. *)
Lemma traceback_path fuel : ∀ i j aligned,
  i ≤ length A → j ≤ length B →
  traceback fuel A B subst (subst gap gap) (length B + 1) m i j aligned
  = (cols ← nw_path fuel A B subst i j;
     Ok (mkAlignment (AlnA aligned ++ cols.*1) (AlnB aligned ++ cols.*2))).
Proof.
  induction fuel as [|fuel IH]; intros i j aligned Hi Hj;
    cbn [traceback nw_path]; case_decide as Hpos;
    try (destruct aligned; cbn; by rewrite !app_nil_r); try done.
  rewrite diag_check, up_check, left_check by done. ok_step.
  unfold step_of.
  destruct (decide (diag_fits A B subst i j)) as [Hd|Hd].
  { rewrite bool_decide_eq_true_2 by done. destruct Hd as (? & ? & _).
    rewrite !get_residue_at by lia. ok_step. rewrite IH by lia.
    destruct (nw_path fuel A B subst (i - 1) (j - 1)) as [cols|]; [|done].
    ok_step. cbn [fmap list_fmap fst snd AlnA AlnB].
    by rewrite <- !app_assoc. }
  rewrite bool_decide_eq_false_2 by done. ok_step.
  destruct (decide (up_fits A B subst i j)) as [Hu|Hu].
  { rewrite bool_decide_eq_true_2 by done. destruct Hu as (? & _).
    rewrite !get_residue_at by lia. ok_step. rewrite IH by lia.
    destruct (nw_path fuel A B subst (i - 1) j) as [cols|]; [|done].
    ok_step. cbn [fmap list_fmap fst snd AlnA AlnB].
    by rewrite <- !app_assoc. }
  rewrite bool_decide_eq_false_2 by done. ok_step.
  destruct (decide (left_fits A B subst i j)) as [Hl|Hl].
  { rewrite bool_decide_eq_true_2 by done. destruct Hl as (? & _).
    rewrite !get_residue_at by lia. ok_step. rewrite IH by lia.
    destruct (nw_path fuel A B subst i (j - 1)) as [cols|]; [|done].
    ok_step. cbn [fmap list_fmap fst snd AlnA AlnB].
    by rewrite <- !app_assoc. }
  by rewrite bool_decide_eq_false_2 by done.
Qed.

End Traceback.

(** ** The reversal of the alignment *)

Lemma get_middle {X} (l1 l2 : list X) x i :
  i = length l1 → get (l1 ++ x :: l2) i = Ok x.
Proof. intros ->. apply get_Ok. by apply list_lookup_middle. Qed.

Lemma store_middle {X} (l1 l2 : list X) x y i :
  i = length l1 → store (l1 ++ x :: l2) i y = Ok (l1 ++ y :: l2).
Proof.
  intros ->. rewrite store_lt by (rewrite length_app; cbn; lia).
  f_equal. rewrite insert_app_r_alt by lia.
  by rewrite Nat.sub_diag.
Qed.

(** One pass of the loop swaps the two ends of the part not yet reversed. *)
Lemma swap_ends {X Y} (pre mid post : list X) x y i j (k : list X → res Y) :
  i = length pre → j = length pre + S (length mid) →
  (aj ← get (pre ++ x :: mid ++ y :: post) j;
   ai ← get (pre ++ x :: mid ++ y :: post) i;
   a ← store (pre ++ x :: mid ++ y :: post) i aj;
   a ← store a j ai;
   k a)
  = k (pre ++ y :: mid ++ x :: post).
Proof.
  intros Hi Hj.
  assert (∀ u v, pre ++ u :: mid ++ v :: post = (pre ++ u :: mid) ++ v :: post)
    as Hsplit by (intros; by rewrite <- app_assoc).
  assert (get (pre ++ x :: mid ++ y :: post) j = Ok y) as ->.
  { rewrite Hsplit. apply get_middle. rewrite length_app. cbn. lia. }
  ok_step. rewrite get_middle by done. ok_step.
  rewrite store_middle by done. ok_step.
  rewrite Hsplit, store_middle by (rewrite length_app; cbn; lia).
  ok_step. by rewrite <- app_assoc.
Qed.

Lemma reverse_loop_rev fuel : ∀ pre mid post pre' mid' post',
  length pre = length pre' → length mid = length mid' → length mid ≤ fuel →
  reverse_loop fuel (length pre) (length pre + length mid - 1)
    (pre ++ mid ++ post) (pre' ++ mid' ++ post')
  = Ok (pre ++ rev mid ++ post, pre' ++ rev mid' ++ post').
Proof.
  induction fuel as [|fuel IH]; intros pre mid post pre' mid' post' Hp Hm Hf.
  - destruct mid; [|cbn in Hf; lia]. destruct mid'; [|done].
    cbn [reverse_loop]. case_decide; [cbn in *; lia|done].
  - destruct mid as [|x mid]; [destruct mid'; [|done]|].
    { cbn [reverse_loop]. case_decide; [cbn in *; lia|done]. }
    destruct mid' as [|x' mid']; [done|].
    destruct mid as [|y mid _] using rev_ind;
      [destruct mid'; [|done]|].
    { cbn [reverse_loop]. case_decide; [cbn in *; lia|done]. }
    destruct mid' as [|y' mid' _] using rev_ind.
    { cbn in Hm. rewrite length_app in Hm. cbn in Hm. lia. }
    cbn [length] in *. rewrite ?length_app in *. cbn [length] in *.
    cbn [reverse_loop]. rewrite decide_True by lia.
    replace (pre ++ (x :: mid ++ [y]) ++ post)
      with (pre ++ x :: mid ++ y :: post)
      by (cbn; by rewrite <- app_assoc).
    replace (pre' ++ (x' :: mid' ++ [y']) ++ post')
      with (pre' ++ x' :: mid' ++ y' :: post')
      by (cbn; by rewrite <- app_assoc).
    rewrite (swap_ends pre mid post x y) by lia.
    rewrite (swap_ends pre' mid' post' x' y') by lia.
    replace (pre ++ y :: mid ++ x :: post)
      with ((pre ++ [y]) ++ mid ++ x :: post) by (by rewrite <- app_assoc).
    replace (pre' ++ y' :: mid' ++ x' :: post')
      with ((pre' ++ [y']) ++ mid' ++ x' :: post') by (by rewrite <- app_assoc).
    replace (length pre + 1) with (length (pre ++ [y]))
      by (rewrite length_app; cbn; lia).
    replace (length pre + S (length mid + 1) - 1 - 1)
      with (length (pre ++ [y]) + length mid - 1)
      by (rewrite length_app; cbn; lia).
    rewrite IH by (rewrite ?length_app; cbn; lia).
    cbn [rev]. rewrite !rev_app_distr. cbn [rev app].
    by rewrite <- !app_assoc.
Qed.

(** The loop reverses both sequences of an alignment whose sequences are
    equally long. *)
Lemma reverse_loop_whole (a b : list Residue) :
  length a = length b →
  reverse_loop (length a) 0 (length a - 1) a b = Ok (rev a, rev b).
Proof.
  intros Hlen.
  pose proof (reverse_loop_rev (length a) [] a [] [] b [] eq_refl Hlen
                (Nat.le_refl _)) as H.
  cbn [length app Nat.add] in H. by rewrite !app_nil_r in H.
Qed.

(** ** What [NeedlemanWunsch] returns *)

Lemma nw_path_total A B subst fuel : ∀ i j,
  i + j ≤ fuel → ∃ cols, nw_path fuel A B subst i j = Ok cols.
Proof.
  induction fuel as [|fuel IH]; intros i j Hf; cbn [nw_path];
    case_decide as Hpos; try lia; try by eexists.
  destruct (step_of_Some A B subst i j Hpos) as [mv Hmv]. rewrite Hmv.
  assert (mv = Diag → 0 < i ∧ 0 < j) as Hdiag.
  { intros ->. unfold step_of in Hmv.
    destruct (decide (diag_fits A B subst i j)) as [(? & ? & _)|]; [done|].
    repeat case_decide; done. }
  assert (mv = Up → 0 < i) as Hup.
  { intros ->. unfold step_of in Hmv.
    destruct (decide (diag_fits A B subst i j)); [done|].
    destruct (decide (up_fits A B subst i j)) as [(? & _)|]; [done|].
    repeat case_decide; done. }
  assert (mv = Left_ → 0 < j) as Hleft.
  { intros ->. unfold step_of in Hmv.
    destruct (decide (diag_fits A B subst i j)); [done|].
    destruct (decide (up_fits A B subst i j)); [done|].
    destruct (decide (left_fits A B subst i j)) as [(? & _)|]; done. }
  destruct mv.
  - specialize (Hdiag eq_refl).
    destruct (IH (i - 1) (j - 1)) as [cols ->]; [lia|]. by eexists.
  - specialize (Hup eq_refl).
    destruct (IH (i - 1) j) as [cols ->]; [lia|]. by eexists.
  - specialize (Hleft eq_refl).
    destruct (IH i (j - 1)) as [cols ->]; [lia|]. by eexists.
Qed.

(** The whole function, in terms of the columns of the traceback. *)
Lemma NeedlemanWunsch_path A B subst :
  NeedlemanWunsch A B subst
  = (cols ← nw_path (length A + 1 + (length B + 1)) A B subst
              (length A) (length B);
     Ok (mkAlignment (rev cols.*1) (rev cols.*2))).
Proof.
  unfold NeedlemanWunsch. cbv zeta.
  destruct (fill_col0 A B subst
              (replicate ((length A + 1) * (length B + 1)) 0%Z))
    as (m1 & -> & H1); [by rewrite length_replicate|].
  ok_step.
  destruct (fill_row0 A B subst m1 H1) as (m2 & -> & H2). ok_step.
  destruct (fill_interior A B subst m2 H2) as (m3 & -> & H3). ok_step.
  rewrite (traceback_path A B subst m3 H3) by lia.
  replace (length A + 1 - 1) with (length A) by lia.
  replace (length B + 1 - 1) with (length B) by lia.
  destruct (nw_path _ A B subst (length A) (length B)) as [cols|]; [|done].
  ok_step. unfold newAlignment. cbn [AlnA AlnB app].
  rewrite reverse_loop_whole by (by rewrite !length_fmap).
  by ok_step.
Qed.

Lemma ungap_app l1 l2 : ungap (l1 ++ l2) = ungap l1 ++ ungap l2.
Proof. apply filter_app. Qed.

Lemma ungap_rev l : ungap (rev l) = rev (ungap l).
Proof.
  induction l as [|x l IH]; [done|].
  cbn [rev]. rewrite ungap_app, IH. unfold ungap.
  rewrite !filter_cons, filter_nil. case_decide.
  - done.
  - by rewrite app_nil_r.
Qed.

Lemma residue_at_elem (l : list Residue) i :
  i < length l → residue_at l i ∈ l.
Proof.
  intros Hi. destruct (lookup_lt_is_Some_2 l i Hi) as [x Hx].
  unfold residue_at. rewrite Hx. cbn. by eapply list_elem_of_lookup_2.
Qed.

Lemma take_pred_snoc (l : list Residue) i :
  0 < i ≤ length l → take i l = take (i - 1) l ++ [residue_at l (i - 1)].
Proof.
  intros Hi. destruct i as [|i]; [lia|].
  replace (S i - 1) with i by lia.
  destruct (lookup_lt_is_Some_2 l i ltac:(lia)) as [x Hx].
  unfold residue_at. rewrite Hx. cbn. by apply take_S_r.
Qed.

Lemma ungap_cons_gap l : ungap (gap :: l) = ungap l.
Proof. unfold ungap. rewrite filter_cons, decide_False; [done|]. by intros Hne. Qed.

Lemma ungap_cons_residue x l : x ≠ gap → ungap (x :: l) = x :: ungap l.
Proof. intros Hx. unfold ungap. by rewrite filter_cons, decide_True. Qed.

Lemma residue_at_not_gap (l : list Residue) i :
  gap ∉ l → i < length l → residue_at l i ≠ gap.
Proof. intros Hl Hi Heq. apply Hl. rewrite <- Heq. by apply residue_at_elem. Qed.

(** The columns of the traceback from (i, j) spell the first [i] residues
    of [A] and the first [j] residues of [B], backwards, with gaps added. *)
Lemma nw_path_spells A B subst :
  gap ∉ A → gap ∉ B →
  ∀ fuel i j cols,
    i ≤ length A → j ≤ length B →
    nw_path fuel A B subst i j = Ok cols →
    ungap cols.*1 = rev (take i A) ∧ ungap cols.*2 = rev (take j B).
Proof.
  intros HA HB. induction fuel as [|fuel IH]; intros i j cols Hi Hj;
    cbn [nw_path]; case_decide as Hpos; try done;
    try (intros [= <-]; assert (i = 0 ∧ j = 0) as [-> ->] by lia; done).
  unfold step_of.
  destruct (decide (diag_fits A B subst i j)) as [(Hi0 & Hj0 & _)|_].
  { destruct (nw_path fuel A B subst (i - 1) (j - 1)) as [cols'|] eqn:Hp;
      [|done].
    intros [= <-].
    destruct (IH (i - 1) (j - 1) cols' ltac:(lia) ltac:(lia) Hp) as [IHa IHb].
    cbn [fmap list_fmap fst snd].
    rewrite !ungap_cons_residue by (apply residue_at_not_gap; [done|lia]).
    rewrite (take_pred_snoc A i), (take_pred_snoc B j) by lia.
    rewrite !rev_app_distr. cbn [rev app]. by rewrite IHa, IHb. }
  destruct (decide (up_fits A B subst i j)) as [(Hi0 & _)|_].
  { destruct (nw_path fuel A B subst (i - 1) j) as [cols'|] eqn:Hp; [|done].
    intros [= <-].
    destruct (IH (i - 1) j cols' ltac:(lia) ltac:(lia) Hp) as [IHa IHb].
    cbn [fmap list_fmap fst snd].
    rewrite ungap_cons_gap.
    rewrite ungap_cons_residue by (apply residue_at_not_gap; [done|lia]).
    rewrite (take_pred_snoc A i) by lia.
    rewrite !rev_app_distr. cbn [rev app]. by rewrite IHa, IHb. }
  destruct (decide (left_fits A B subst i j)) as [(Hj0 & _)|_]; [|done].
  destruct (nw_path fuel A B subst i (j - 1)) as [cols'|] eqn:Hp; [|done].
  intros [= <-].
  destruct (IH i (j - 1) cols' ltac:(lia) ltac:(lia) Hp) as [IHa IHb].
  cbn [fmap list_fmap fst snd].
  rewrite ungap_cons_gap.
  rewrite ungap_cons_residue by (apply residue_at_not_gap; [done|lia]).
  rewrite (take_pred_snoc B j) by lia.
  rewrite !rev_app_distr. cbn [rev app]. by rewrite IHa, IHb.
Qed.

(** C3. For every pair of sequences and every substitution function, at
    every cell of the matrix but (0, 0) one of the three conditions of the
    traceback holds (diagonal, vertical gap, horizontal gap); so the
    traceback never takes the panic branch "No path at (i, j)".  Where the
    length (len(A) + 1) * (len(B) + 1) of the matrix is a value of Go's
    [int], no index is out of range either, and [NeedlemanWunsch] returns
    an alignment. *)
Theorem NeedlemanWunsch_no_panic (A B : list Residue) (subst : MatLookup) :
  (∀ i j, 0 < i ∨ 0 < j →
     diag_fits A B subst i j ∨ up_fits A B subst i j ∨ left_fits A B subst i j) ∧
  (∀ i j, NeedlemanWunsch A B subst ≠ Panic (NoPath i j)) ∧
  (fits_int ((length A + 1) * (length B + 1)) →
   ∃ aln, NeedlemanWunsch A B subst = Ok aln).
Proof.
  assert (∃ aln, NeedlemanWunsch A B subst = Ok aln) as [aln Haln].
  { rewrite NeedlemanWunsch_path.
    destruct (nw_path_total A B subst (length A + 1 + (length B + 1))
                (length A) (length B)) as [cols ->]; [lia|].
    ok_step. by eexists. }
  split; [|split; [|by exists aln]].
  - intros i j Hpos. destruct (step_of_Some A B subst i j Hpos) as [mv Hmv].
    unfold step_of in Hmv.
    destruct (decide (diag_fits A B subst i j)); [by left|].
    destruct (decide (up_fits A B subst i j)); [by right; left|].
    destruct (decide (left_fits A B subst i j)); [by right; right|done].
  - intros i j. by rewrite Haln.
Qed.

Lemma NeedlemanWunsch_no_panic_witness :
  (diag_fits (residues "ABC") (residues "AC") unit_score 3 2
   ∨ up_fits (residues "ABC") (residues "AC") unit_score 3 2
   ∨ left_fits (residues "ABC") (residues "AC") unit_score 3 2) ∧
  ∃ aln, NeedlemanWunsch (residues "ABC") (residues "AC") unit_score = Ok aln.
Proof.
  destruct (NeedlemanWunsch_no_panic (residues "ABC") (residues "AC") unit_score)
    as (Hcell & _ & Hok).
  split; [apply Hcell; lia|].
  apply Hok. unfold fits_int. vm_compute. reflexivity.
Defined.

(** C4. For sequences [A] and [B] without the gap symbol, whose matrix
    length (len(A) + 1) * (len(B) + 1) is a value of Go's [int],
    [NeedlemanWunsch] returns an alignment whose two sequences are equally
    long; without its gaps the reference is [A] and the query is [B]. *)
Theorem NeedlemanWunsch_ungap (A B : list Residue) (subst : MatLookup) :
  fits_int ((length A + 1) * (length B + 1)) →
  gap ∉ A → gap ∉ B →
  ∃ aln, NeedlemanWunsch A B subst = Ok aln ∧
         length (AlnA aln) = length (AlnB aln) ∧
         ungap (AlnA aln) = A ∧ ungap (AlnB aln) = B.
Proof.
  intros _ HA HB. rewrite NeedlemanWunsch_path.
  destruct (nw_path_total A B subst (length A + 1 + (length B + 1))
              (length A) (length B)) as [cols Hcols]; [lia|].
  rewrite Hcols. ok_step. eexists. split; [done|]. cbn [AlnA AlnB].
  destruct (nw_path_spells A B subst HA HB _ _ _ cols
              (Nat.le_refl _) (Nat.le_refl _) Hcols) as [Ha Hb].
  split; [by rewrite !length_rev, !length_fmap|].
  rewrite !ungap_rev, Ha, Hb, !rev_involutive, !take_ge by lia. done.
Qed.

Lemma NeedlemanWunsch_ungap_witness :
  ∃ aln, NeedlemanWunsch (residues "ABC") (residues "AC") unit_score = Ok aln ∧
         length (AlnA aln) = length (AlnB aln) ∧
         ungap (AlnA aln) = residues "ABC" ∧ ungap (AlnB aln) = residues "AC".
Proof.
  apply NeedlemanWunsch_ungap.
  - unfold fits_int. vm_compute. reflexivity.
  - apply (bool_decide_unpack _). vm_compute. exact I.
  - apply (bool_decide_unpack _). vm_compute. exact I.
Defined.

(** ** Swapping the two sequences *)

Lemma max3_swap a b c : max3 a b c = max3 a c b.
Proof. rewrite !max3_max. lia. Qed.

Section Symmetric.

Variables (A B : list Residue) (subst : MatLookup).

Hypothesis Hsym : symmetric subst.

(** The matrix of (B, A) is the transposed matrix of (A, B). *)
Lemma nw_score_transpose i : ∀ j,
  nw_score B A subst j i = nw_score A B subst i j.
Proof.
  induction i as [|i IHi]; intros j.
  - by rewrite nw_score_col0, nw_score_row0.
  - induction j as [|j IHj].
    + by rewrite nw_score_col0, nw_score_row0.
    + rewrite !nw_score_interior. rewrite IHj, !IHi.
      rewrite (Hsym (residue_at B j) (residue_at A i)).
      apply max3_swap.
Qed.

Lemma diag_fits_transpose i j :
  diag_fits B A subst j i ↔ diag_fits A B subst i j.
Proof.
  unfold diag_fits. rewrite !nw_score_transpose.
  rewrite (Hsym (residue_at B (j - 1)) (residue_at A (i - 1))). tauto.
Qed.

Lemma up_fits_transpose i j :
  up_fits B A subst j i ↔ left_fits A B subst i j.
Proof. unfold up_fits, left_fits. by rewrite !nw_score_transpose. Qed.

Lemma left_fits_transpose i j :
  left_fits B A subst j i ↔ up_fits A B subst i j.
Proof. unfold up_fits, left_fits. by rewrite !nw_score_transpose. Qed.

(** Where no gap tie is met, the traceback of (B, A) takes the mirrored
    steps of the traceback of (A, B). *)
Lemma nw_path_transpose fuel : ∀ fuel' i j,
  i + j ≤ fuel → i + j ≤ fuel' →
  gap_tie_free fuel A B subst i j = true →
  nw_path fuel' B A subst j i
  = (cols ← nw_path fuel A B subst i j;
     Ok (swap_col <$> (cols : list (Residue * Residue)))).
Proof.
  induction fuel as [|fuel IH]; intros fuel' i j Hf Hf'.
  { assert (i = 0 ∧ j = 0) as [-> ->] by lia. by destruct fuel'. }
  destruct fuel' as [|fuel'].
  { assert (i = 0 ∧ j = 0) as [-> ->] by lia. done. }
  cbn [nw_path gap_tie_free].
  destruct (decide (0 < i ∨ 0 < j)) as [Hpos|Hpos].
  2:{ by rewrite decide_False by lia. }
  rewrite decide_True by lia.
  pose proof (step_of_Some A B subst i j Hpos) as [mv Hmv].
  unfold step_of in *.
  destruct (decide (diag_fits A B subst i j)) as [Hd|Hd].
  { rewrite (decide_True (P := diag_fits B A subst j i))
      by (by apply diag_fits_transpose).
    destruct Hd as (Hi & Hj & _). intros Htf.
    rewrite (IH fuel' (i - 1) (j - 1)) by (done || lia).
    by destruct (nw_path fuel A B subst (i - 1) (j - 1)). }
  rewrite (decide_False (P := diag_fits B A subst j i))
    by (by rewrite diag_fits_transpose).
  destruct (decide (up_fits A B subst i j)) as [Hu|Hu].
  { intros [Hnl Htf]%andb_prop. apply bool_decide_eq_true in Hnl.
    rewrite (decide_False (P := up_fits B A subst j i))
      by (by rewrite up_fits_transpose).
    rewrite (decide_True (P := left_fits B A subst j i))
      by (by apply left_fits_transpose).
    destruct Hu as (Hi & _).
    rewrite (IH fuel' (i - 1) j) by (done || lia).
    by destruct (nw_path fuel A B subst (i - 1) j). }
  destruct (decide (left_fits A B subst i j)) as [Hl|Hl]; [|done].
  intros Htf.
  rewrite (decide_True (P := up_fits B A subst j i))
    by (by apply up_fits_transpose).
  destruct Hl as (Hj & _).
  rewrite (IH fuel' i (j - 1)) by (done || lia).
  by destruct (nw_path fuel A B subst i (j - 1)).
Qed.

End Symmetric.

Lemma nw_path_fuel A B subst fuel : ∀ fuel' i j,
  i + j ≤ fuel → i + j ≤ fuel' →
  nw_path fuel A B subst i j = nw_path fuel' A B subst i j.
Proof.
  induction fuel as [|fuel IH]; intros fuel' i j Hf Hf'.
  { assert (i = 0 ∧ j = 0) as [-> ->] by lia. by destruct fuel'. }
  destruct fuel' as [|fuel'].
  { assert (i = 0 ∧ j = 0) as [-> ->] by lia. done. }
  cbn [nw_path]. case_decide as Hpos; [|done].
  unfold step_of.
  destruct (decide (diag_fits A B subst i j)) as [(Hi & Hj & _)|_].
  { by rewrite (IH fuel' (i - 1) (j - 1)) by lia. }
  destruct (decide (up_fits A B subst i j)) as [(Hi & _)|_].
  { by rewrite (IH fuel' (i - 1) j) by lia. }
  destruct (decide (left_fits A B subst i j)) as [(Hj & _)|_]; [|done].
  by rewrite (IH fuel' i (j - 1)) by lia.
Qed.

Lemma unit_score_symmetric : symmetric unit_score.
Proof.
  intros x y. unfold unit_score.
  destruct (decide (x = y)) as [->|Hne]; [done|].
  rewrite !decide_False; [done|..]; intros [Heq _]; by apply Hne.
Qed.

(** C5 (as amended). For a symmetric substitution function, and sequences
    whose matrix length (len(A) + 1) * (len(B) + 1) is a value of Go's
    [int] and whose traceback meets no cell at which the vertical and the
    horizontal gap both fit while the diagonal does not,
    [NeedlemanWunsch(A, B)] and [NeedlemanWunsch(B, A)] return alignments
    that are transposes of one another. *)
Theorem NeedlemanWunsch_transpose (A B : list Residue) (subst : MatLookup) :
  fits_int ((length A + 1) * (length B + 1)) →
  symmetric subst →
  gap_tie_free (length A + length B) A B subst (length A) (length B) = true →
  ∃ aln, NeedlemanWunsch A B subst = Ok aln ∧
         NeedlemanWunsch B A subst = Ok (transpose aln).
Proof.
  intros _ Hsym Htf. rewrite !NeedlemanWunsch_path.
  rewrite (nw_path_transpose A B subst Hsym (length A + length B)
             (length B + 1 + (length A + 1)) (length A) (length B))
    by (done || lia).
  rewrite (nw_path_fuel A B subst (length A + 1 + (length B + 1))
             (length A + length B)) by lia.
  destruct (nw_path_total A B subst (length A + length B)
              (length A) (length B)) as [cols ->]; [lia|].
  ok_step. eexists. split; [done|].
  unfold transpose. cbn [AlnA AlnB].
  rewrite <- !list_fmap_compose. done.
Qed.

Lemma NeedlemanWunsch_transpose_witness :
  ∃ aln, NeedlemanWunsch (residues "ABC") (residues "AC") unit_score = Ok aln ∧
         NeedlemanWunsch (residues "AC") (residues "ABC") unit_score
         = Ok (transpose aln).
Proof.
  apply NeedlemanWunsch_transpose.
  - unfold fits_int. vm_compute. reflexivity.
  - exact unit_score_symmetric.
  - vm_compute. reflexivity.
Defined.

(** C5 (as stated) fails.  With the symmetric scoring of the scenarios,
    aligning "AB" with "BA" gives -AB / BA-, and aligning "BA" with "AB"
    gives -BA / AB-: in both runs the tie between the two gaps at cell
    (2, 2) goes to the vertical gap, so the second alignment is not the
    first with reference and query swapped. *)
Lemma NeedlemanWunsch_not_transpose :
  symmetric unit_score ∧
  NeedlemanWunsch (residues "AB") (residues "BA") unit_score
  = Ok (mkAlignment (residues "-AB") (residues "BA-")) ∧
  NeedlemanWunsch (residues "BA") (residues "AB") unit_score
  = Ok (mkAlignment (residues "-BA") (residues "AB-")) ∧
  NeedlemanWunsch (residues "BA") (residues "AB") unit_score
  ≠ Ok (transpose (mkAlignment (residues "-AB") (residues "BA-"))).
Proof.
  split; [exact unit_score_symmetric|].
  split; [by vm_compute|]. split; [by vm_compute|].
  by vm_compute.
Qed.

(** ** What [Slice] does *)

Lemma wrap64_small z : (- 2 ^ 63 ≤ z < 2 ^ 63)%Z → wrap64 z = z.
Proof. intros Hz. unfold wrap64. rewrite Z.mod_small by lia. lia. Qed.

Lemma seven_updates nd :
  with_transitions (set_DD MinProb)
    (with_transitions (set_DM pzero)
      (with_transitions (set_II MinProb)
        (with_transitions (set_IM pzero)
          (with_transitions (set_MD MinProb)
            (with_transitions (set_MI MinProb)
              (with_transitions (set_MM pzero) nd))))))
  = force_exit nd.
Proof. reflexivity. Qed.

Lemma update_at_insert nodes i f a (σ : store_of_arrays) :
  (0 ≤ i < Z.of_nat (s_len nodes))%Z →
  update_at nodes i f (<[s_arr nodes := a]> σ)
  = Ok (<[s_arr nodes := alter f (s_off nodes + Z.to_nat i) a]> σ).
Proof.
  intros Hi. unfold update_at. rewrite decide_True by done.
  by rewrite alter_insert_eq.
Qed.

Lemma copy_fresh (σ : store_of_arrays) arr off cap n :
  is_Some (σ !! arr) →
  let a := fresh (dom σ) in
  let xs := take n (drop off (default [] (σ !! arr))) in
  copy (mkSlice a 0 n n) (mkSlice arr off n cap)
    (<[a := replicate n zero_node]> σ)
  = <[a := xs ++ drop (length xs) (replicate n zero_node)]> σ.
Proof.
  intros Hsome a xs. unfold copy, slice_elems. cbn [s_arr s_off s_len].
  rewrite Nat.min_id, take_take, Nat.min_id.
  assert (a ≠ arr) as Hne.
  { intros Heq. apply (is_fresh (dom σ)). fold a. rewrite Heq.
    by apply elem_of_dom. }
  rewrite (lookup_insert_ne σ a) by done. fold xs.
  by rewrite alter_insert_eq.
Qed.

(** [Slice] with a length [n ≥ 1] within the capacity: the new array holds
    the [n] elements from [start] on, the last one with the exit row. *)
Lemma Slice_Ok hmm (start end_ : Z) (σ : store_of_arrays) :
  (Z.of_nat (s_cap (SNodes hmm)) < 2 ^ 63)%Z →
  is_Some (σ !! s_arr (SNodes hmm)) →
  (0 ≤ start < end_)%Z → (end_ ≤ Z.of_nat (s_cap (SNodes hmm)))%Z →
  let n := Z.to_nat (end_ - start) in
  let a := fresh (dom σ) in
  let xs := take n (drop (s_off (SNodes hmm) + Z.to_nat start)
                      (default [] (σ !! s_arr (SNodes hmm)))) in
  Slice hmm start end_ σ
  = Ok (mkHMMstruct (mkSlice a 0 n n) (SAlphabet hmm) (SNull hmm),
        <[a := alter force_exit (n - 1)
                 (xs ++ drop (length xs) (replicate n zero_node))]> σ).
Proof.
  intros Hcap Hsome Hse Hec n a xs. unfold Slice, make_nodes.
  rewrite wrap64_small by lia. rewrite decide_False by lia. ok_step.
  unfold reslice. rewrite decide_True by lia. ok_step.
  cbv zeta. cbn [s_len]. change (Z.to_nat (end_ - start)) with n.
  change (fresh (dom σ)) with a.
  rewrite (copy_fresh σ _ _ _ n Hsome). fold a xs.
  assert (0 ≤ Z.of_nat n - 1 < Z.of_nat n)%Z as Hlast by lia.
  do 7 (rewrite (update_at_insert (mkSlice a 0 n n)) by (cbn [s_len]; lia);
        ok_step; cbn [s_arr s_off]).
  rewrite !list_alter_alter_eq.
  replace (0 + Z.to_nat (Z.of_nat n - 1)) with (n - 1) by lia.
  reflexivity.
Qed.

Lemma not_is_Ok_bind_Panic {X Y} p (k : X → res Y) : ¬ is_Ok (Panic p ≫= k).
Proof. inversion 1. Qed.

(** [Slice] returns exactly when [0 ≤ start < end ≤ cap(hmm.Nodes)]. *)
Lemma Slice_defined hmm (start end_ : Z) (σ : store_of_arrays) :
  (Z.of_nat (s_cap (SNodes hmm)) < 2 ^ 63)%Z →
  is_Ok (Slice hmm start end_ σ)
  ↔ (0 ≤ start < end_ ∧ end_ ≤ Z.of_nat (s_cap (SNodes hmm)))%Z.
Proof.
  intros Hcap. unfold Slice, make_nodes, reslice. split.
  - destruct (decide (wrap64 (end_ - start) < 0)%Z) as [Hneg|Hneg];
      [by intros ?%not_is_Ok_bind_Panic|].
    ok_step.
    destruct (decide (0 ≤ start ∧ start ≤ end_
                      ∧ end_ ≤ Z.of_nat (s_cap (SNodes hmm)))%Z) as [Hb|Hb];
      [|by intros ?%not_is_Ok_bind_Panic].
    ok_step. cbv zeta. cbn [s_len].
    rewrite wrap64_small in * by lia.
    unfold update_at. cbn [s_len].
    destruct (decide (0 ≤ Z.of_nat (Z.to_nat (end_ - start)) - 1
                      < Z.of_nat (Z.to_nat (end_ - start)))%Z) as [Hlast|Hlast];
      [|by intros ?%not_is_Ok_bind_Panic].
    lia.
  - intros [Hse Hec]. rewrite wrap64_small by lia.
    rewrite (decide_False (P := (end_ - start < 0)%Z)) by lia. ok_step.
    rewrite decide_True by lia. ok_step. cbv zeta.
    unfold update_at. cbn [s_len].
    do 7 (rewrite decide_True by lia; ok_step). constructor.
Qed.

(** C8. On a model of [n ≥ 1] nodes [Slice(0, n)] returns a new model whose
    nodes are those of the original except that the last one carries the
    transitions [MM = IM = DM = 0], [MI = MD = II = DD = MinProb]; every
    other field of every node (the emission tables among them), the
    alphabet and the null model are the original's; the original model
    reads as before, and no array that was in the store has changed. *)
Theorem Slice_whole_model (hmm : HMMstruct) (σ : store_of_arrays) :
  valid σ (SNodes hmm) → 1 ≤ s_len (SNodes hmm) →
  ∃ hmm' σ',
    Slice hmm 0 (Z.of_nat (s_len (SNodes hmm))) σ = Ok (hmm', σ') ∧
    Nodes (view σ' hmm')
    = alter force_exit (s_len (SNodes hmm) - 1) (Nodes (view σ hmm)) ∧
    Alphabet (view σ' hmm') = Alphabet (view σ hmm) ∧
    Null (view σ' hmm') = Null (view σ hmm) ∧
    view σ' hmm = view σ hmm ∧
    ∀ a arr, σ !! a = Some arr → σ' !! a = Some arr.
Proof.
  intros (Hlen & Hcap & arr & Harr & Hfit) Hn.
  rewrite Slice_Ok by (lia || by eexists).
  replace (Z.to_nat (Z.of_nat (s_len (SNodes hmm)) - 0))
    with (s_len (SNodes hmm)) by lia.
  rewrite Nat.add_0_r. fold (slice_elems σ (SNodes hmm)).
  assert (length (slice_elems σ (SNodes hmm)) = s_len (SNodes hmm)) as Hxs.
  { unfold slice_elems. rewrite Harr. cbn [default from_option id].
    rewrite length_take, length_drop. lia. }
  rewrite Hxs, drop_ge, app_nil_r by (rewrite length_replicate; lia).
  assert (fresh (dom σ) ≠ s_arr (SNodes hmm)) as Hfresh.
  { intros Heq. apply (is_fresh (dom σ)). rewrite Heq.
    apply elem_of_dom. by eexists. }
  eexists _, _. split; [done|].
  unfold view. cbn [Nodes Alphabet Null SNodes SAlphabet SNull].
  split; [|split; [done|split; [done|split]]].
  - unfold slice_elems at 1. cbn [s_arr s_off s_len].
    rewrite lookup_insert_eq. cbn [default drop].
    apply take_ge. rewrite length_alter. lia.
  - f_equal. unfold slice_elems. by rewrite lookup_insert_ne.
  - intros a arr' Ha. rewrite lookup_insert_ne; [done|].
    intros Heq. apply (is_fresh (dom σ)). rewrite Heq.
    apply elem_of_dom. by eexists.
Qed.

Lemma Slice_whole_model_witness :
  ∃ hmm' σ',
    Slice hmm_full 0 2 store_Z = Ok (hmm', σ') ∧
    Nodes (view σ' hmm') = [node_Z; force_exit node_Z] ∧
    Alphabet (view σ' hmm') = Alphabet (view store_Z hmm_full) ∧
    Null (view σ' hmm') = Null (view store_Z hmm_full) ∧
    view σ' hmm_full = view store_Z hmm_full ∧
    ∀ a arr, store_Z !! a = Some arr → σ' !! a = Some arr.
Proof.
  apply (Slice_whole_model hmm_full store_Z).
  - split; [cbn; lia|]. split; [cbn; lia|].
    exists [node_Z; node_Z]. split; [reflexivity|cbn; lia].
  - cbn. lia.
Defined.

(** C10 (as amended). [Slice(start, end)] with [end == start] panics; and
    [Slice] returns exactly when [0 ≤ start < end ≤ cap(hmm.Nodes)]: the
    bound on [end] is the capacity of the node slice, not its length. *)
Theorem Slice_precondition (hmm : HMMstruct) (start end_ : Z)
    (σ : store_of_arrays) :
  (Z.of_nat (s_cap (SNodes hmm)) < 2 ^ 63)%Z →
  (∃ p, Slice hmm start start σ = Panic p) ∧
  (is_Ok (Slice hmm start end_ σ)
   ↔ (0 ≤ start < end_ ∧ end_ ≤ Z.of_nat (s_cap (SNodes hmm)))%Z).
Proof.
  intros Hcap. split; [|by apply Slice_defined].
  destruct (Slice hmm start start σ) as [r|p] eqn:HS; [|by exists p].
  assert (is_Ok (Slice hmm start start σ)) as Hok by (rewrite HS; constructor).
  apply Slice_defined in Hok; [lia|done].
Qed.

Lemma Slice_precondition_witness :
  (∃ p, Slice hmm_full 1 1 store_Z = Panic p) ∧
  (is_Ok (Slice hmm_full 1 2 store_Z) ↔ (0 ≤ 1 < 2 ∧ 2 ≤ Z.of_nat 2)%Z).
Proof.
  apply (Slice_precondition hmm_full 1 2 store_Z). cbn. lia.
Defined.

(** C10 (as stated) fails: a model whose node slice has length 1 and
    capacity 2 is sliced by [Slice(0, 2)] without a panic, although
    [end = 2] exceeds [len(hmm.Nodes) = 1]. *)
Lemma Slice_beyond_len :
  valid store_Z (SNodes hmm_spare) ∧
  is_Ok (Slice hmm_spare 0 2 store_Z) ∧
  ¬ (0 < 2 ∧ 2 ≤ Z.of_nat (s_len (SNodes hmm_spare)))%Z.
Proof.
  split; [|split].
  - split; [cbn; lia|]. split; [cbn; lia|].
    exists [node_Z; node_Z]. split; [reflexivity|cbn; lia].
  - apply Slice_defined; cbn; lia.
  - cbn. lia.
Qed.

(** ** Probabilities as text *)

Section ProbTextFacts.
Variable ParseFloat : string → Prob + string.
Variable FormatFloat : Prob → string.

Lemma NewProb_star : NewProb ParseFloat "*" = (MinProb, None).
Proof. reflexivity. Qed.

Lemma String_MinProb : String_ FormatFloat MinProb = "*"%string.
Proof. reflexivity. Qed.

(** The error of [NewProb] quotes the text that did not parse. *)
Lemma NewProb_error fstr err :
  fstr ≠ "*"%string → ParseFloat fstr = inr err →
  NewProb ParseFloat fstr
  = (invalidProb,
     Some ("Could not convert '" ++ fstr ++ "' to a log probability: "
           ++ err)%string).
Proof.
  intros Hne Herr. unfold NewProb. rewrite decide_False by done.
  by rewrite Herr.
Qed.

(** What the round trip of a probability other than [MinProb] comes down
    to: the round trip of the library's two conversions. *)
Lemma NewProb_String p :
  IsMin p = false → FormatFloat p ≠ "*"%string →
  NewProb ParseFloat (String_ FormatFloat p)
  = match ParseFloat (FormatFloat p) with
    | inl f => (f, None)
    | inr err =>
        (invalidProb,
         Some ("Could not convert '" ++ FormatFloat p
               ++ "' to a log probability: " ++ err)%string)
    end.
Proof.
  intros Hmin Hne. unfold String_, NewProb. rewrite Hmin.
  by rewrite decide_False by done.
Qed.

End ProbTextFacts.

(** * Further properties of the code *)

(** ** Emission tables: [Set] and [Lookup] together *)

Lemma rnum_inj r r' : rnum r = rnum r' → r = r'.
Proof.
  unfold rnum. intros Heq.
  pose proof (Byte.of_to_nat r) as H1. pose proof (Byte.of_to_nat r') as H2.
  rewrite Heq in H1. congruence.
Qed.

Lemma sub8_small a b : b ≤ a → a < 256 → sub8 a b = a - b.
Proof.
  intros Hle Ha. unfold sub8.
  replace (a + 256 - b) with ((a - b) + 1 * 256) by lia.
  rewrite Nat.Div0.mod_add. apply Nat.mod_small. lia.
Qed.

Lemma sub8_inj a a' b :
  a < 256 → a' < 256 → b < 256 → sub8 a b = sub8 a' b → a = a'.
Proof.
  intros Ha Ha' Hb. unfold sub8.
  destruct (decide (b ≤ a)), (decide (b ≤ a')).
  - replace (a + 256 - b) with ((a - b) + 1 * 256) by lia.
    replace (a' + 256 - b) with ((a' - b) + 1 * 256) by lia.
    rewrite !Nat.Div0.mod_add, !Nat.mod_small by lia. lia.
  - replace (a + 256 - b) with ((a - b) + 1 * 256) by lia.
    rewrite !Nat.Div0.mod_add, !Nat.mod_small by lia. lia.
  - replace (a' + 256 - b) with ((a' - b) + 1 * 256) by lia.
    rewrite !Nat.Div0.mod_add, !Nat.mod_small by lia. lia.
  - rewrite !Nat.mod_small by lia. lia.
Qed.

(** X1. When [Set(r, p)] returns, [Lookup(r)] answers [p], the offset and
    the length of the table are as before, and the answer for every other
    residue is as before. *)
Theorem Set_then_Lookup (ep ep' : EProbs) (r : Residue) (p : Prob) :
  Set_ ep r p = Ok ep' →
  Lookup ep' r = Ok p ∧
  Offset ep' = Offset ep ∧ length (Probs ep') = length (Probs ep) ∧
  ∀ r', r' ≠ r → Lookup ep' r' = Lookup ep r'.
Proof.
  unfold Set_, store. case_decide as Hlt; [|done].
  rewrite bind_Ok. intros [= <-]. cbn [Offset Probs].
  rewrite length_insert. split; [|split; [done|split; [done|]]].
  - unfold Lookup. cbn [Offset Probs orb Nat.ltb Nat.leb].
    rewrite length_insert.
    rewrite (proj2 (Nat.leb_gt _ _) Hlt).
    apply get_Ok. by apply list_lookup_insert_eq.
  - intros r' Hne. unfold Lookup. cbn [Offset Probs]. rewrite length_insert.
    destruct (_ || _); [done|].
    unfold get. rewrite list_lookup_insert_ne; [done|].
    intros Heq. apply Hne. apply rnum_inj. symmetry.
    eapply sub8_inj; [apply rnum_bounded..|exact Heq].
Qed.

Lemma Set_then_Lookup_witness :
  Lookup eprobs_ABC "B"%byte = Ok pzero ∧
  Offset eprobs_ABC = "A"%byte ∧ length (Probs eprobs_ABC) = 3 ∧
  ∀ r', r' ≠ "B"%byte →
    Lookup eprobs_ABC r'
    = Lookup (NewEProbs ["A"%byte; "B"%byte; "C"%byte]) r'.
Proof.
  apply (Set_then_Lookup (NewEProbs ["A"%byte; "B"%byte; "C"%byte])
           eprobs_ABC "B"%byte pzero).
  reflexivity.
Defined.

(** What the loop of [NewEProbs] finds: bounds of the alphabet, each of
    them a residue of the alphabet or still the starting value. *)
Lemma span_fold_bounds alphabet : ∀ lo hi,
  let res := foldl span_step (lo, hi) alphabet in
  rnum res.1 ≤ rnum lo ∧ rnum hi ≤ rnum res.2 ∧
  (∀ r, r ∈ alphabet → rnum res.1 ≤ rnum r ≤ rnum res.2) ∧
  (res.1 = lo ∨ res.1 ∈ alphabet) ∧ (res.2 = hi ∨ res.2 ∈ alphabet).
Proof.
  induction alphabet as [|x xs IH]; intros lo hi; cbn [foldl].
  - cbn. split; [done|]. split; [done|]. split; [|by split; left].
    intros r Hr. by apply elem_of_nil in Hr.
  - cbn zeta.
    set (lo' := if decide (rnum x < rnum lo) then x else lo).
    set (hi' := if decide (rnum hi < rnum x) then x else hi).
    change (span_step (lo, hi) x) with (lo', hi').
    destruct (IH lo' hi') as (Hlo & Hhi & Hall & Hlm & Hhm).
    assert (rnum lo' ≤ rnum lo ∧ rnum lo' ≤ rnum x) as [? ?]
      by (unfold lo'; case_decide; lia).
    assert (rnum hi ≤ rnum hi' ∧ rnum x ≤ rnum hi') as [? ?]
      by (unfold hi'; case_decide; lia).
    split; [lia|]. split; [lia|]. split; [|split].
    + intros r [->|Hr]%elem_of_cons; [lia|by apply Hall].
    + destruct Hlm as [->|Hin]; [|by right; right].
      unfold lo'. case_decide; [right; left|by left].
    + destruct Hhm as [->|Hin]; [|by right; right].
      unfold hi'. case_decide; [right; left|by left].
Qed.

(** The table of [NewEProbs]: its offset is the least residue and its
    length the width of the span, unless the span is all 256 bytes. *)
Lemma NewEProbs_shape alphabet :
  alphabet ≠ [] → ¬ (x00 ∈ alphabet ∧ xff ∈ alphabet) →
  ∃ lo hi,
    NewEProbs alphabet = mkEProbs lo (replicate (rnum hi - rnum lo + 1) MinProb) ∧
    ∀ r, r ∈ alphabet → rnum lo ≤ rnum r ≤ rnum hi.
Proof.
  intros Hne Hwide.
  pose proof (span_fold_bounds alphabet xff x00) as Hb. cbv zeta in Hb.
  unfold NewEProbs.
  destruct (foldl span_step (xff, x00) alphabet) as [lo hi].
  cbn [fst snd] in Hb. destruct Hb as (_ & _ & Hall & Hlm & Hhm).
  exists lo, hi. split; [|done].
  pose proof (rnum_bounded lo). pose proof (rnum_bounded hi).
  assert (rnum lo ≤ rnum hi) as Hle.
  { destruct alphabet as [|x xs]; [done|].
    specialize (Hall x (list_elem_of_here _ _)). lia. }
  assert (rnum xff = 255) as Hff by reflexivity.
  assert (rnum x00 = 0) as H00 by reflexivity.
  assert (¬ (rnum lo = 0 ∧ rnum hi = 255)) as Hnw.
  { intros [Hl0 Hh255]. apply Hwide. split.
    - destruct Hlm as [->|Hin]; [lia|].
      by rewrite <- (rnum_inj lo x00) by lia.
    - destruct Hhm as [->|Hin]; [lia|].
      by rewrite <- (rnum_inj hi xff) by lia. }
  f_equal. f_equal. unfold add8.
  destruct (decide (rnum hi = 255)) as [Hh|Hh].
  - rewrite Hh. change ((1 + 255) mod 256) with 0.
    unfold sub8. rewrite Nat.mod_small by lia. lia.
  - rewrite Nat.mod_small by lia. rewrite sub8_small by lia. lia.
Qed.

(** X2. On the fresh table of an alphabet that does not hold both the
    bytes 0 and 255, every [Lookup] answers [MinProb], and [Set] returns for
    every residue of the alphabet, after which [Lookup] answers what was
    set. *)
Theorem Set_member_returns (alphabet : list Residue) (r : Residue) (p : Prob) :
  r ∈ alphabet → ¬ (x00 ∈ alphabet ∧ xff ∈ alphabet) →
  (∀ r', Lookup (NewEProbs alphabet) r' = Ok MinProb) ∧
  ∃ ep', Set_ (NewEProbs alphabet) r p = Ok ep' ∧ Lookup ep' r = Ok p.
Proof.
  intros Hr Hwide.
  assert (alphabet ≠ []) as Hne by (intros ->; by apply elem_of_nil in Hr).
  destruct (NewEProbs_shape alphabet Hne Hwide) as (lo & hi & -> & Hall).
  split.
  - intros r'. rewrite Lookup_lookup. f_equal.
    unfold ViterbiSpec.lookup. cbn [Offset Probs].
    destruct (replicate _ MinProb !! _) eqn:Hl; [|done].
    by apply lookup_replicate in Hl as [-> _].
  - specialize (Hall r Hr). pose proof (rnum_bounded r).
    assert (sub8 (rnum r) (rnum lo) < rnum hi - rnum lo + 1) as Hlt
      by (rewrite sub8_small by lia; lia).
    unfold Set_. cbn [Offset Probs].
    rewrite store_lt by (by rewrite length_replicate). rewrite bind_Ok.
    eexists. split; [done|].
    unfold Lookup. cbn [Offset Probs orb Nat.ltb Nat.leb].
    rewrite length_insert, length_replicate.
    rewrite (proj2 (Nat.leb_gt _ _) Hlt).
    apply get_Ok. apply list_lookup_insert_eq. by rewrite length_replicate.
Qed.

Lemma Set_member_returns_witness :
  (∀ r', Lookup (NewEProbs ["A"%byte; "B"%byte; "C"%byte]) r' = Ok MinProb) ∧
  ∃ ep', Set_ (NewEProbs ["A"%byte; "B"%byte; "C"%byte]) "C"%byte pzero = Ok ep'
         ∧ Lookup ep' "C"%byte = Ok pzero.
Proof.
  apply Set_member_returns.
  - apply (bool_decide_unpack _). vm_compute. exact I.
  - intros [H0 _]. revert H0. apply (bool_decide_unpack _). vm_compute. exact I.
Defined.

(** X3. For an alphabet that holds both the bytes 0 and 255 the length
    [1+max-offset], computed in bytes, wraps to 0: the table is empty,
    every [Set] panics and every [Lookup] answers [MinProb]. *)
Theorem NewEProbs_whole_byte_range (alphabet : list Residue) :
  x00 ∈ alphabet → xff ∈ alphabet →
  Probs (NewEProbs alphabet) = [] ∧
  (∀ r p, Set_ (NewEProbs alphabet) r p = Panic IndexOutOfRange) ∧
  ∀ r, Lookup (NewEProbs alphabet) r = Ok MinProb.
Proof.
  intros H0 H255.
  pose proof (span_fold_bounds alphabet xff x00) as Hb. cbv zeta in Hb.
  assert (Probs (NewEProbs alphabet) = []) as Hempty.
  { unfold NewEProbs.
    destruct (foldl span_step (xff, x00) alphabet) as [lo hi].
    cbn [fst snd] in Hb. destruct Hb as (_ & _ & Hall & _).
    pose proof (Hall x00 H0) as Hx0. pose proof (Hall xff H255) as Hxf.
    assert (rnum xff = 255) as Hff by reflexivity.
    assert (rnum x00 = 0) as H00 by reflexivity.
    pose proof (rnum_bounded hi).
    assert (rnum lo = 0) as -> by lia. assert (rnum hi = 255) as -> by lia.
    reflexivity. }
  split; [done|]. split.
  - intros r p. unfold Set_, store. rewrite Hempty.
    by rewrite decide_False by (cbn; lia).
  - intros r. unfold Lookup. rewrite Hempty. cbn [length Nat.leb].
    by rewrite orb_true_r.
Qed.

Lemma NewEProbs_whole_byte_range_witness :
  Probs (NewEProbs alphabet_wide) = [] ∧
  (∀ r p, Set_ (NewEProbs alphabet_wide) r p = Panic IndexOutOfRange) ∧
  ∀ r, Lookup (NewEProbs alphabet_wide) r = Ok MinProb.
Proof.
  apply NewEProbs_whole_byte_range.
  - apply (bool_decide_unpack _). vm_compute. exact I.
  - apply (bool_decide_unpack _). vm_compute. exact I.
Defined.

Lemma span_fold_members (alphabet : list Residue) :
  alphabet ≠ [] →
  let res := foldl span_step (xff, x00) alphabet in
  res.1 ∈ alphabet ∧ res.2 ∈ alphabet ∧
  ∀ r, r ∈ alphabet → rnum res.1 ≤ rnum r ≤ rnum res.2.
Proof.
  intros Hne. pose proof (span_fold_bounds alphabet xff x00) as Hb.
  cbv zeta in *. destruct Hb as (_ & _ & Hall & Hlo & Hhi).
  destruct alphabet as [|x xs]; [done|].
  pose proof (Hall x (list_elem_of_here _ _)) as Hx.
  pose proof (rnum_bounded x).
  assert (rnum xff = 255) as Hff by reflexivity.
  assert (rnum x00 = 0) as H00 by reflexivity.
  split; [|split; [|done]].
  - destruct Hlo as [Heq | Hin]; [|done].
    rewrite Heq in *. rewrite <- (rnum_inj x xff) by lia. left.
  - destruct Hhi as [Heq | Hin]; [|done].
    rewrite Heq in *. rewrite <- (rnum_inj x x00) by lia. left.
Qed.

(** X4. The table of [NewEProbs] spans the alphabet: for an alphabet
    that is not empty and does not hold both the bytes 0 and 255, the
    offset is the least residue of the alphabet, the length reaches to the
    greatest, and every entry is [MinProb].  For the empty alphabet the
    length [1+max-offset] is 1 + 0 - 255 in bytes: a table of two entries at
    the offset 255. *)
Theorem NewEProbs_span (alphabet : list Residue) :
  (alphabet = [] → NewEProbs alphabet = mkEProbs xff [MinProb; MinProb]) ∧
  (alphabet ≠ [] → ¬ (x00 ∈ alphabet ∧ xff ∈ alphabet) →
   ∃ lo hi,
     lo ∈ alphabet ∧ hi ∈ alphabet ∧
     (∀ r, r ∈ alphabet → rnum lo ≤ rnum r ≤ rnum hi) ∧
     NewEProbs alphabet
     = mkEProbs lo (replicate (rnum hi - rnum lo + 1) MinProb)).
Proof.
  split; [by intros ->|]. intros Hne Hwide.
  pose proof (span_fold_members alphabet Hne) as Hm. cbv zeta in Hm.
  unfold NewEProbs.
  destruct (foldl span_step (xff, x00) alphabet) as [lo hi].
  cbn [fst snd] in Hm. destruct Hm as (Hlo & Hhi & Hall).
  exists lo, hi. split; [done|]. split; [done|]. split; [done|].
  pose proof (rnum_bounded lo). pose proof (rnum_bounded hi).
  pose proof (Hall lo Hlo) as Hle.
  assert (rnum xff = 255) as Hff by reflexivity.
  assert (rnum x00 = 0) as H00 by reflexivity.
  assert (¬ (rnum lo = 0 ∧ rnum hi = 255)) as Hnw.
  { intros [Hl0 Hh255]. apply Hwide. split.
    - by rewrite <- (rnum_inj lo x00) by lia.
    - by rewrite <- (rnum_inj hi xff) by lia. }
  f_equal. f_equal. unfold add8.
  destruct (decide (rnum hi = 255)) as [Hh|Hh].
  - rewrite Hh. change ((1 + 255) mod 256) with 0.
    unfold sub8. rewrite Nat.mod_small by lia. lia.
  - rewrite Nat.mod_small by lia. rewrite sub8_small by lia. lia.
Qed.

Lemma NewEProbs_span_witness :
  ∃ lo hi,
    lo ∈ ["C"%byte; "A"%byte; "B"%byte] ∧ hi ∈ ["C"%byte; "A"%byte; "B"%byte] ∧
    (∀ r, r ∈ ["C"%byte; "A"%byte; "B"%byte] → rnum lo ≤ rnum r ≤ rnum hi) ∧
    NewEProbs ["C"%byte; "A"%byte; "B"%byte]
    = mkEProbs lo (replicate (rnum hi - rnum lo + 1) MinProb).
Proof.
  apply (proj2 (NewEProbs_span ["C"%byte; "A"%byte; "B"%byte])).
  - discriminate.
  - intros [H0 _]. revert H0. apply (bool_decide_unpack _). vm_compute. exact I.
Defined.

(** ** The Viterbi engine: edges, tables that are larger or too small *)

Lemma ViterbiScore_score (hmm : HMM) (seq : Sequence) :
  ViterbiScore hmm seq = Ok (ViterbiSpec.score hmm seq).
Proof.
  unfold ViterbiScore. rewrite AllocTable_eq. ok_step.
  destruct (ViterbiScoreMem_fill hmm seq
              (mkTable (replicate (3 * (length (Nodes hmm) + 1) * (Len seq + 1))
                          MinProb) (length (Nodes hmm) + 1)))
    as (t' & -> & _);
    [done|cbn [scores]; by rewrite length_replicate|].
  by ok_step.
Qed.

Lemma foldl_id {X Y : Type} (l : list Y) (x : X) : foldl (λ x _, x) x l = x.
Proof. by induction l. Qed.

(** X5. For a model without nodes or a sequence without residues the
    loops of [ViterbiScoreMem] are not entered: [ViterbiScore] returns 0 when
    both are empty and [MinProb] when one of them is. *)
Theorem ViterbiScore_empty (hmm : HMM) (seq : Sequence) :
  Nodes hmm = [] ∨ Residues seq = [] →
  ViterbiScore hmm seq
  = Ok (if decide (Nodes hmm = [] ∧ Residues seq = []) then pzero else MinProb).
Proof.
  intros Hempty. rewrite ViterbiScore_score. f_equal.
  unfold ViterbiSpec.score.
  assert (ViterbiSpec.fill hmm seq = ViterbiSpec.boundary) as ->.
  { unfold ViterbiSpec.fill, Len. destruct Hempty as [-> | ->]; [done|].
    cbn [length List.seq foldl]. apply foldl_id. }
  unfold ViterbiSpec.boundary, Len.
  destruct (Nodes hmm) as [|nd nds], (Residues seq) as [|r rs]; cbn [length].
  - by rewrite !decide_True.
  - rewrite !decide_False; [done|intros [? ?]; done|intros (? & ? & ?); done].
  - rewrite !decide_False; [done|intros [? ?]; done|intros (? & ? & ?); done].
  - by destruct Hempty.
Qed.

Lemma ViterbiScore_empty_witness : ViterbiScore hmm_C seq_empty = Ok MinProb.
Proof. apply (ViterbiScore_empty hmm_C seq_empty). right. reflexivity. Defined.

Lemma index_lt_within N L t s n o :
  N < nodes t → stored s → n ≤ N → o ≤ L →
  index t s n o < 3 * nodes t * (L + 1).
Proof. unfold index, stored. intros HN Hs Hn Ho. nia. Qed.

Lemma index_inj_within N t s n o s' n' o' :
  N < nodes t → stored s → stored s' → n ≤ N → n' ≤ N →
  index t s n o = index t s' n' o' → s = s' ∧ n = n' ∧ o = o'.
Proof.
  unfold index, stored. intros HN Hs Hs' Hn Hn' Heq.
  assert (state_int s = state_int s'
          ∧ n + nodes t * o = n' + nodes t * o') as [Hst Hno] by lia.
  apply state_int_inj in Hst.
  assert (o = o') as -> by nia.
  split; [done|]. split; [lia|done].
Qed.

Lemma cell_within N L t T s n o :
  rep_within N L t T → stored s → n ≤ N → o ≤ L → cell t s n o = Ok (T s n o).
Proof. intros (_ & _ & Hc) Hs Hn Ho. apply get_Ok. by apply Hc. Qed.

Lemma set_within N L t T s n o p :
  rep_within N L t T → stored s → n ≤ N → o ≤ L →
  ∃ t', set t s n o p = Ok t' ∧
        rep_within N L t' (ViterbiSpec.propose T s n o p) ∧ same_dims t t'.
Proof.
  intros (Hn & Hl & Hc) Hs Hle Hlo. unfold set.
  pose proof (index_lt_within N L t s n o Hn Hs Hle Hlo) as Hlt.
  rewrite (proj2 (get_Ok _ _ _) (Hc s n o Hs Hle Hlo)). ok_step.
  unfold Less.
  destruct (SFltb p (T s n o)) eqn:Hcmp.
  - rewrite store_lt by lia. ok_step. eexists. split; [done|].
    split; [|split; [done|cbn [scores]; by rewrite length_insert]].
    split; [done|]. cbn [scores nodes]. split; [by rewrite length_insert|].
    intros s' n' o' Hs' Hn' Ho'.
    change (index (mkTable _ (nodes t)) s' n' o') with (index t s' n' o').
    unfold ViterbiSpec.propose. rewrite Hcmp. case_decide as Heq.
    + destruct Heq as (-> & -> & ->). apply list_lookup_insert_eq. lia.
    + rewrite list_lookup_insert_ne; [by apply Hc|].
      intros Hi. apply Heq.
      by destruct (index_inj_within N t s n o s' n' o' Hn Hs Hs' Hle Hn' Hi)
        as (-> & -> & ->).
  - exists t. split; [done|]. split; [|done]. split; [done|]. split; [done|].
    intros s' n' o' Hs' Hn' Ho'. unfold ViterbiSpec.propose. rewrite Hcmp.
    case_decide as Heq; [|by apply Hc].
    destruct Heq as (-> & -> & ->). by apply Hc.
Qed.

Lemma same_dims_trans t1 t2 t3 :
  same_dims t1 t2 → same_dims t2 t3 → same_dims t1 t3.
Proof. unfold same_dims. intros [? ?] [? ?]. split; congruence. Qed.

Section LargerTable.

Variable hmm : HMM.

Variable seq : Sequence.

Ltac table_write_within HR HR' HD :=
  match goal with
  | |- context [set ?t ?s ?n ?o ?p] =>
      let t' := fresh "t" in
      let HD' := fresh "HD" in
      let HD'' := fresh "HD" in
      destruct (set_within _ _ t _ s n o p HR) as (t' & -> & HR' & HD');
      [first [apply stored_Match | apply stored_Deletion | apply stored_Insertion]
      | lia | lia
      | ok_step; pose proof (same_dims_trans _ _ _ HD HD') as HD'';
        clear HD HD'; rename HD'' into HD]
  end.

Ltac table_read_within HR :=
  rewrite (cell_within _ _ _ _ _ _ _ HR)
    by first [apply stored_Match | apply stored_Deletion
             | apply stored_Insertion | lia];
  ok_step.

Lemma body_within t T n o :
  rep_within (length (Nodes hmm)) (Len seq) t T →
  n < length (Nodes hmm) → o < Len seq →
  ∃ t', viterbi_body cell set hmm seq n o t = Ok t'
        ∧ rep_within (length (Nodes hmm)) (Len seq) t'
              (ViterbiSpec.recurrence hmm seq T n o)
        ∧ same_dims t t'.
Proof.
  intros HR Hn Ho.
  destruct (lookup_lt_is_Some_2 (Nodes hmm) n Hn) as [nd Hnd].
  destruct (lookup_lt_is_Some_2 (Residues seq) o Ho) as [r Hr].
  unfold viterbi_body, ViterbiSpec.recurrence.
  rewrite Hnd, Hr.
  rewrite (proj2 (get_Ok _ _ _) Hnd), (proj2 (get_Ok _ _ _) Hr).
  ok_step. rewrite Lookup_lookup. ok_step.
  set (iemit := ViterbiSpec.lookup (InsEmit nd) r).
  assert ((if decide (n + 1 < length (Nodes hmm)) then
             nd' ← get (Nodes hmm) (n + 1); Lookup (MatEmit nd') r
           else Ok pzero)
          = Ok (match Nodes hmm !! (n + 1) with
                | Some nd' => ViterbiSpec.lookup (MatEmit nd') r
                | None => pzero
                end)) as ->.
  { case_decide as Hlt.
    - destruct (lookup_lt_is_Some_2 (Nodes hmm) (n + 1) Hlt) as [nd' Hnd'].
      rewrite Hnd', (proj2 (get_Ok _ _ _) Hnd'). ok_step. apply Lookup_lookup.
    - by rewrite lookup_ge_None_2 by lia. }
  ok_step.
  set (memit := match Nodes hmm !! (n + 1) with
                | Some nd' => ViterbiSpec.lookup (MatEmit nd') r
                | None => pzero
                end).
  assert (same_dims t t) as HD by done.
  table_read_within HR.
  table_write_within HR HR1 HD. table_write_within HR1 HR2 HD.
  table_write_within HR2 HR3 HD.
  table_read_within HR3.
  table_write_within HR3 HR4 HD. table_write_within HR4 HR5 HD.
  table_read_within HR5.
  table_write_within HR5 HR6 HD. table_write_within HR6 HR7 HD.
  eexists. split; [done|]. split; [|exact HD].
  cbn [foldl ViterbiSpec.edges]. unfold ViterbiSpec.apply_edge.
  cbn [ViterbiSpec.src ViterbiSpec.dst ViterbiSpec.dnode ViterbiSpec.dobs
       ViterbiSpec.cost].
  rewrite !Nat.add_0_r.
  rewrite !propose_ne in HR7 by (intros (? & ? & ?); (discriminate || lia)).
  rewrite !propose_ne by (intros (? & ? & ?); (discriminate || lia)).
  exact HR7.
Qed.

Lemma boundary_within (t : DynamicTable) :
  length (Nodes hmm) < nodes t →
  3 * nodes t * (Len seq + 1) ≤ length (scores t) →
  rep_within (length (Nodes hmm)) (Len seq)
      (mkTable (<[index t Match 0 0 := pzero]>
                  (replicate (length (scores t)) MinProb)) (nodes t))
      ViterbiSpec.boundary.
Proof.
  intros Hn Hl. split; [done|]. cbn [scores nodes].
  split; [by rewrite length_insert, length_replicate|].
  intros s n o Hs Hle Hlo.
  change (index (mkTable _ (nodes t)) s n o) with (index t s n o).
  pose proof (index_lt_within _ _ t s n o Hn Hs Hle Hlo) as Hlt.
  unfold ViterbiSpec.boundary. case_decide as Heq.
  - destruct Heq as (-> & -> & ->).
    apply list_lookup_insert_eq. rewrite length_replicate. lia.
  - rewrite list_lookup_insert_ne.
    + apply lookup_replicate_2. lia.
    + intros Hi. apply Heq.
      by destruct (index_inj_within _ t Match 0 0 s n o Hn stored_Match Hs
                     ltac:(lia) Hle Hi) as (<- & <- & <-).
Qed.

Lemma ViterbiScoreMem_within (t : DynamicTable) :
  length (Nodes hmm) < nodes t →
  3 * nodes t * (Len seq + 1) ≤ length (scores t) →
  ∃ t', ViterbiScoreMem hmm seq t = Ok (ViterbiSpec.score hmm seq, t')
        ∧ same_dims t t'.
Proof.
  intros Hn Hl. unfold ViterbiScoreMem.
  rewrite reset_eq. ok_step. cbn [scores nodes].
  change (index (mkTable _ (nodes t)) Match 0 0) with (index t Match 0 0).
  pose proof (index_lt_within _ (Len seq) t Match 0 0 Hn stored_Match
                ltac:(lia) ltac:(lia)) as Hlt.
  rewrite store_lt by (rewrite length_replicate; lia). ok_step.
  pose proof (boundary_within t Hn Hl) as HR0.
  set (R := λ (t' : DynamicTable) (T : ViterbiSpec.cells),
         rep_within (length (Nodes hmm)) (Len seq) t' T ∧ same_dims t t').
  assert (R (mkTable (<[index t Match 0 0 := pzero]>
                        (replicate (length (scores t)) MinProb)) (nodes t))
            ViterbiSpec.boundary) as HR0'.
  { split; [done|]. split; [done|]. cbn [scores].
    by rewrite length_insert, length_replicate. }
  destruct (for_range_sim R
              (λ node table, for_range 0 (Len seq) (λ obs table,
                 viterbi_body cell set hmm seq node obs table) table)
              (λ T n, foldl (λ T o, ViterbiSpec.recurrence hmm seq T n o) T
                        (List.seq 0 (Len seq)))
              (length (Nodes hmm)) 0 _ _ HR0') as (t' & -> & HR & HD).
  { intros n t1 T1 Hi HR1.
    apply (for_range_sim R
             (λ obs table, viterbi_body cell set hmm seq n obs table)
             (λ T o, ViterbiSpec.recurrence hmm seq T n o)); [done|].
    intros o t2 T2 Ho [HR2 HD2].
    destruct (body_within t2 T2 n o HR2) as (t3 & -> & HR3 & HD3); [lia..|].
    exists t3. split; [done|]. split; [done|].
    by apply (same_dims_trans _ _ _ HD2). }
  ok_step.
  rewrite (cell_within _ _ _ _ _ _ _ HR) by first [apply stored_Match | lia].
  ok_step. by exists t'.
Qed.

End LargerTable.

(** X6. A table allocated for a model with at least as many nodes and a
    sequence at least as long, whose length
    3 * (numNodes + 1) * (seqLen + 1) is a value of Go's [int], serves as
    well, whatever it holds from earlier runs: [ViterbiScoreMem] returns the
    score that [ViterbiScore] returns, and leaves a table of the same
    dimensions, fit for the next call. *)
Theorem ViterbiScoreMem_larger_table (hmm : HMM) (seq : Sequence)
    (numNodes seqLen : nat) (t t0 : DynamicTable) :
  fits_int (3 * (numNodes + 1) * (seqLen + 1)) →
  AllocTable numNodes seqLen = Ok t0 →
  nodes t = nodes t0 → length (scores t) = length (scores t0) →
  length (Nodes hmm) ≤ numNodes → Len seq ≤ seqLen →
  ∃ p t', ViterbiScore hmm seq = Ok p ∧
          ViterbiScoreMem hmm seq t = Ok (p, t') ∧
          nodes t' = nodes t ∧ length (scores t') = length (scores t).
Proof.
  intros _.
  rewrite AllocTable_eq. intros [= <-] Hn Hl HN HL. cbn [scores nodes] in Hn, Hl.
  rewrite length_replicate in Hl.
  destruct (ViterbiScoreMem_within hmm seq t) as (t' & Hrun & Hn' & Hl').
  - lia.
  - rewrite Hn, Hl. nia.
  - exists (ViterbiSpec.score hmm seq), t'.
    split; [apply ViterbiScore_score|]. split; [done|]. by split.
Qed.

Lemma ViterbiScoreMem_larger_table_witness :
  ∃ p t', ViterbiScore hmm_C seq_C = Ok p ∧
          ViterbiScoreMem hmm_C seq_C (mkTable (replicate 60 pzero) 4)
          = Ok (p, t') ∧
          nodes t' = 4 ∧ length (scores t') = 60.
Proof.
  apply (ViterbiScoreMem_larger_table hmm_C seq_C 3 4
           (mkTable (replicate 60 pzero) 4)
           (mkTable (replicate 60 MinProb) 4)).
  - unfold fits_int. vm_compute. reflexivity.
  - reflexivity.
  - reflexivity.
  - reflexivity.
  - cbn. lia.
  - cbn. lia.
Defined.

(** *** A table that is too short *)

Lemma Ok_or_index_panic_bind {X Y : Type} (P : X → Prop) (Q : Y → Prop)
    (m : res X) (f : X → res Y) :
  Ok_or_index_panic P m → (∀ x, P x → Ok_or_index_panic Q (f x)) →
  Ok_or_index_panic Q (x ← m; f x).
Proof. destruct m as [x|p]; cbn; [auto|done]. Qed.

Lemma Ok_or_index_panic_weaken {X : Type} (P Q : X → Prop) (m : res X) :
  Ok_or_index_panic P m → (∀ x, P x → Q x) → Ok_or_index_panic Q m.
Proof. destruct m; cbn; auto. Qed.

Lemma get_Ok_or_index_panic {X : Type} (l : list X) i :
  Ok_or_index_panic (λ _, True) (get l i).
Proof. unfold get. by destruct (l !! i). Qed.

Lemma store_Ok_or_index_panic {X : Type} (l : list X) i x :
  Ok_or_index_panic (λ l', length l' = length l) (store l i x).
Proof. unfold store. case_decide; cbn; [by rewrite length_insert|done]. Qed.

Lemma Lookup_Ok_or_index_panic ep r :
  Ok_or_index_panic (λ _, True) (Lookup ep r).
Proof. by rewrite Lookup_lookup. Qed.

Lemma set_Ok_or_index_panic t0 t s n o p :
  same_dims t0 t → Ok_or_index_panic (same_dims t0) (set t s n o p).
Proof.
  intros [Hn Hl]. unfold set.
  eapply Ok_or_index_panic_bind; [apply get_Ok_or_index_panic|].
  intros cur _. destruct (Less cur p); [|done].
  eapply Ok_or_index_panic_bind; [apply store_Ok_or_index_panic|].
  intros sc Hsc. cbn. split; cbn [nodes scores]; congruence.
Qed.

Lemma for_range_Ok_or_index_panic {St : Type} (I : St → Prop)
    (body : nat → St → res St) n : ∀ lo s,
  I s → (∀ i s, I s → Ok_or_index_panic I (body i s)) →
  Ok_or_index_panic I (for_range lo n body s).
Proof.
  induction n as [|n IH]; intros lo s Hs Hbody; [done|].
  cbn [for_range].
  eapply Ok_or_index_panic_bind; [by apply Hbody|].
  intros s' Hs'. by apply IH.
Qed.

Lemma viterbi_body_Ok_or_index_panic hmm seq node obs t0 t :
  same_dims t0 t →
  Ok_or_index_panic (same_dims t0) (viterbi_body cell set hmm seq node obs t).
Proof.
  intros HD. unfold viterbi_body.
  eapply Ok_or_index_panic_bind.
  { instantiate (1 := λ _, True). unfold fmap, res_fmap.
    pose proof (get_Ok_or_index_panic (Nodes hmm) node) as Hg.
    by destruct (get (Nodes hmm) node). }
  intros trans _.
  eapply Ok_or_index_panic_bind; [apply get_Ok_or_index_panic|].
  intros residue _.
  eapply Ok_or_index_panic_bind.
  { eapply Ok_or_index_panic_bind; [apply get_Ok_or_index_panic|].
    intros nd _. apply Lookup_Ok_or_index_panic. }
  intros iemit _.
  eapply Ok_or_index_panic_bind.
  { instantiate (1 := λ _, True). case_decide; [|done].
    eapply Ok_or_index_panic_bind; [apply get_Ok_or_index_panic|].
    intros nd _. apply Lookup_Ok_or_index_panic. }
  intros memit _.
  repeat first
    [ eapply Ok_or_index_panic_bind;
      [apply get_Ok_or_index_panic|intros ? _]
    | eapply Ok_or_index_panic_bind;
      [apply set_Ok_or_index_panic; eassumption|intros ? ?] ].
  done.
Qed.

(** X7. A table whose scores end before the cell (Match, nodeCount,
    seqLen) makes [ViterbiScoreMem] panic with an index out of range: it
    does not return a score.  The greatest slot that the run computes,
    that of the cell (Insertion, nodeCount, seqLen), is to be a value of
    Go's [int], so that no slot wraps around. *)
Theorem ViterbiScoreMem_short_table (hmm : HMM) (seq : Sequence)
    (t : DynamicTable) :
  fits_int (index t Insertion (length (Nodes hmm)) (Len seq)) →
  length (scores t) ≤ index t Match (length (Nodes hmm)) (Len seq) →
  ViterbiScoreMem hmm seq t = Panic IndexOutOfRange.
Proof.
  intros _ Hshort.
  assert (Ok_or_index_panic (λ _, False) (ViterbiScoreMem hmm seq t)) as H.
  { unfold ViterbiScoreMem. rewrite reset_eq. ok_step. cbn [scores nodes].
    eapply Ok_or_index_panic_bind; [apply store_Ok_or_index_panic|].
    intros sc Hsc. cbn beta in Hsc. rewrite length_replicate in Hsc.
    eapply Ok_or_index_panic_bind.
    { apply (for_range_Ok_or_index_panic (same_dims t)).
      - split; [done|]. by cbn [scores].
      - intros node t1 HD1.
        apply (for_range_Ok_or_index_panic (same_dims t)); [done|].
        intros obs t2 HD2. by apply viterbi_body_Ok_or_index_panic. }
    intros t' [Hn Hl]. unfold cell, get.
    rewrite lookup_ge_None_2; [done|].
    unfold index in *. rewrite Hn, Hl. lia. }
  destruct (ViterbiScoreMem hmm seq t) as [x|p]; cbn in H; [done|by subst].
Qed.

Lemma ViterbiScoreMem_short_table_witness :
  ViterbiScoreMem hmm_C seq_C (mkTable (replicate 24 MinProb) 3)
  = Panic IndexOutOfRange.
Proof.
  apply (ViterbiScoreMem_short_table hmm_C seq_C
           (mkTable (replicate 24 MinProb) 3)).
  - unfold fits_int. vm_compute. reflexivity.
  - vm_compute. lia.
Defined.

(** *** The layout of the table *)

Lemma state_int_slot_state i : state_int (slot_state i) = i mod 3.
Proof.
  unfold slot_state. pose proof (Nat.mod_upper_bound i 3 ltac:(lia)) as Hlt.
  destruct (i mod 3) as [|[|[|k]]]; cbn; lia.
Qed.

(** X8. Where the length 3 * (numNodes + 1) * (seqLen + 1) is a value
    of Go's [int], [index] lays the table of [AllocTable(numNodes, seqLen)]
    out without gaps or overlaps: the cells (state, node, obs) with state
    among Match, Deletion and Insertion, node ≤ numNodes and obs ≤ seqLen go
    to different slots below [len(scores)], which Go computes without a
    wrap-around, and every slot below [len(scores)] is the slot of such a
    cell. *)
Theorem index_bijection (numNodes seqLen : nat) (t : DynamicTable) :
  fits_int (3 * (numNodes + 1) * (seqLen + 1)) →
  AllocTable numNodes seqLen = Ok t →
  (∀ s n o, stored s → n ≤ numNodes → o ≤ seqLen →
     index t s n o < length (scores t) ∧
     index_int (Z.of_nat (nodes t)) (Z.of_nat (state_int s)) (Z.of_nat n)
       (Z.of_nat o)
     = Z.of_nat (index t s n o)) ∧
  (∀ s n o s' n' o', stored s → stored s' → n ≤ numNodes → n' ≤ numNodes →
     index t s n o = index t s' n' o' → s = s' ∧ n = n' ∧ o = o') ∧
  (∀ i, i < length (scores t) →
     stored (slot_state i) ∧ slot_node t i ≤ numNodes ∧ slot_obs t i ≤ seqLen ∧
     index t (slot_state i) (slot_node t i) (slot_obs t i) = i).
Proof.
  intros Hfit. rewrite AllocTable_eq. intros [= <-]. cbn [scores nodes].
  rewrite length_replicate. split; [|split].
  - intros s n o Hs Hn Ho.
    pose proof (index_lt numNodes seqLen
                  (mkTable (replicate (3 * (numNodes + 1) * (seqLen + 1)) MinProb)
                     (numNodes + 1)) s n o eq_refl Hs Hn Ho) as Hlt.
    split; [done|].
    apply (index_int_fits
             (mkTable (replicate (3 * (numNodes + 1) * (seqLen + 1)) MinProb)
                (numNodes + 1))).
    unfold fits_int in *. lia.
  - intros s n o s' n' o' Hs Hs' Hn Hn'. by apply (index_inj numNodes).
  - intros i Hi. unfold stored, slot_node, slot_obs, index. cbn [nodes].
    rewrite state_int_slot_state.
    pose proof (Nat.mod_upper_bound i 3 ltac:(lia)) as H3.
    pose proof (Nat.div_mod_eq i 3) as Hi3.
    pose proof (Nat.mod_upper_bound (i / 3) (numNodes + 1) ltac:(lia)) as Hn.
    pose proof (Nat.div_mod_eq (i / 3) (numNodes + 1)) as Hin.
    split; [done|]. split; [lia|]. split; [|lia].
    assert (i / 3 < (numNodes + 1) * (seqLen + 1)) as Hq
      by (apply Nat.Div0.div_lt_upper_bound; lia).
    assert (i / 3 / (numNodes + 1) < seqLen + 1)
      by (apply Nat.Div0.div_lt_upper_bound; lia).
    lia.
Qed.

Lemma index_bijection_witness :
  let t := mkTable (replicate 27 MinProb) 3 in
  (∀ s n o, stored s → n ≤ 2 → o ≤ 2 →
     index t s n o < length (scores t) ∧
     index_int (Z.of_nat (nodes t)) (Z.of_nat (state_int s)) (Z.of_nat n)
       (Z.of_nat o)
     = Z.of_nat (index t s n o)) ∧
  (∀ s n o s' n' o', stored s → stored s' → n ≤ 2 → n' ≤ 2 →
     index t s n o = index t s' n' o' → s = s' ∧ n = n' ∧ o = o') ∧
  (∀ i, i < length (scores t) →
     stored (slot_state i) ∧ slot_node t i ≤ 2 ∧ slot_obs t i ≤ 2 ∧
     index t (slot_state i) (slot_node t i) (slot_obs t i) = i).
Proof.
  apply (index_bijection 2 2 (mkTable (replicate 27 MinProb) 3)).
  - unfold fits_int. vm_compute. reflexivity.
  - reflexivity.
Defined.

(** *** The order on scores *)

Lemma SFltb_SFleb_trans (a b c : spec_float) :
  SFltb a b = true → SFleb b c = true → SFleb a c = true.
Proof.
  unfold SFltb, SFleb, SFcompare.
  destruct a as [[]|[]| |[] m1 e1], b as [[]|[]| |[] m2 e2],
           c as [[]|[]| |[] m3 e3]; try done.
  all: change (Pos.compare_cont Eq) with Pos.compare.
  all: destruct (Z.compare_spec e1 e2), (Z.compare_spec e2 e3),
         (Z.compare_spec e1 e3); try lia; try done; subst.
  all: destruct (Pos.compare_spec m1 m2), (Pos.compare_spec m2 m3),
         (Pos.compare_spec m1 m3); try lia; try done.
Qed.

Lemma SFltb_trans (a b c : spec_float) :
  SFltb a b = true → SFltb b c = true → SFltb a c = true.
Proof.
  unfold SFltb, SFcompare.
  destruct a as [[]|[]| |[] m1 e1], b as [[]|[]| |[] m2 e2],
           c as [[]|[]| |[] m3 e3]; try done.
  all: change (Pos.compare_cont Eq) with Pos.compare.
  all: destruct (Z.compare_spec e1 e2), (Z.compare_spec e2 e3),
         (Z.compare_spec e1 e3); try lia; try done; subst.
  all: destruct (Pos.compare_spec m1 m2), (Pos.compare_spec m2 m3),
         (Pos.compare_spec m1 m3); try lia; try done.
Qed.

Lemma SFltb_irrefl (a : spec_float) : SFltb a a = false.
Proof.
  unfold SFltb, SFcompare. destruct a as [[]|[]| |[] m e]; try done.
  all: rewrite Z.compare_refl; change (Pos.compare_cont Eq) with Pos.compare;
    by rewrite Pos.compare_refl.
Qed.

(** X9. [Less] is a strict order on scores: no score is [Less] than
    itself, [Less] is transitive, and a NaN is [Less] than nothing and
    nothing is [Less] than a NaN. *)
Theorem Less_strict_order :
  (∀ p, Less p p = false) ∧
  (∀ p q r, Less p q = true → Less q r = true → Less p r = true) ∧
  (∀ p, Less invalidProb p = false ∧ Less p invalidProb = false).
Proof.
  unfold Less. split; [apply SFltb_irrefl|]. split.
  - intros p q r Hpq Hqr. by apply (SFltb_trans r q p).
  - intros p. split; [by destruct p|done].
Qed.

Lemma Less_strict_order_witness : Less MinProb pzero = true.
Proof.
  destruct Less_strict_order as (_ & Htrans & _).
  apply (Htrans MinProb (S754_finite false 1 0) pzero); reflexivity.
Defined.

(** *** What the score can be, and what it is read from *)

Lemma propose_at_most_MinProb T s n o v :
  at_most_MinProb T → at_most_MinProb (ViterbiSpec.propose T s n o v).
Proof.
  intros HT s' n' o'. unfold ViterbiSpec.propose.
  case_decide; [|apply HT].
  destruct (SFltb v (T s n o)) eqn:Hlt; [|apply HT].
  by apply (SFltb_SFleb_trans v (T s n o)).
Qed.

Lemma foldl_invariant {X Y : Type} (I : X → Prop) (f : X → Y → X) (l : list Y) :
  (∀ x y, I x → I (f x y)) → ∀ x, I x → I (foldl f x l).
Proof. intros Hf. induction l as [|y l IH]; intros x Hx; cbn; auto. Qed.

Lemma fill_at_most_MinProb hmm seq : at_most_MinProb (ViterbiSpec.fill hmm seq).
Proof.
  unfold ViterbiSpec.fill.
  apply foldl_invariant.
  - intros T n HT. apply foldl_invariant; [|done].
    clear T HT. intros T o HT. unfold ViterbiSpec.recurrence.
    destruct (Nodes hmm !! n) as [nd|]; [|done].
    destruct (Residues seq !! o) as [r|]; [|done].
    apply foldl_invariant; [|done].
    intros T' e HT'. by apply propose_at_most_MinProb.
  - intros s n o. unfold ViterbiSpec.boundary. by case_decide.
Qed.

(** X10. Whatever the transitions and emissions of the model are, NaN and
    infinities among them, the score that [ViterbiScore] returns (it
    returns where the table length 3 * (nodeCount + 1) * (seqLen + 1) is a
    value of Go's [int]) is at most [MinProb]: it is neither a NaN nor
    +Inf. *)
Theorem ViterbiScore_at_most_MinProb (hmm : HMM) (seq : Sequence) :
  fits_int (3 * (length (Nodes hmm) + 1) * (Len seq + 1)) →
  ∃ p, ViterbiScore hmm seq = Ok p ∧
       SFleb p MinProb = true ∧ p ≠ invalidProb ∧ p ≠ S754_infinity false.
Proof.
  intros _.
  exists (ViterbiSpec.score hmm seq). split; [apply ViterbiScore_score|].
  pose proof (fill_at_most_MinProb hmm seq Match (length (Nodes hmm)) (Len seq))
    as Hle.
  split; [done|].
  unfold ViterbiSpec.score. split; intros Heq; by rewrite Heq in Hle.
Qed.

Lemma ViterbiScore_at_most_MinProb_witness :
  ∃ p, ViterbiScore hmm_C seq_C = Ok p ∧
       SFleb p MinProb = true ∧ p ≠ invalidProb ∧ p ≠ S754_infinity false.
Proof.
  apply (ViterbiScore_at_most_MinProb hmm_C seq_C).
  unfold fits_int. vm_compute. reflexivity.
Defined.

Lemma foldl_ext_in {X Y : Type} (f g : X → Y → X) (l : list Y) :
  (∀ x y, y ∈ l → f x y = g x y) → ∀ x, foldl f x l = foldl g x l.
Proof.
  induction l as [|y l IH]; intros Hfg x; [done|]. cbn.
  rewrite Hfg by left. apply IH. intros x' y' Hy'. apply Hfg. by right.
Qed.

(** X11. [ViterbiScore] reads of the model only the transitions and the
    insertion emissions of the nodes and the match emissions of the nodes
    after the first, and of the sequence only the residues: two models
    and two sequences that agree on these get the same score.  The match
    emissions of the first node, the reference residues, node numbers and
    effective counts, the alphabet, the null model and the name of the
    sequence do not count. *)
Theorem ViterbiScore_reads (hmm hmm' : HMM) (seq seq' : Sequence) :
  Residues seq = Residues seq' →
  Transitions <$> Nodes hmm = Transitions <$> Nodes hmm' →
  InsEmit <$> Nodes hmm = InsEmit <$> Nodes hmm' →
  MatEmit <$> tail (Nodes hmm) = MatEmit <$> tail (Nodes hmm') →
  ViterbiScore hmm seq = ViterbiScore hmm' seq'.
Proof.
  intros Hres Htr Hins Hmat. rewrite !ViterbiScore_score. f_equal.
  assert (length (Nodes hmm) = length (Nodes hmm')) as Hlen.
  { apply (f_equal length) in Htr. by rewrite !length_fmap in Htr. }
  unfold ViterbiSpec.score, ViterbiSpec.fill, Len. rewrite <- Hres, <- Hlen.
  apply (f_equal (λ T : ViterbiSpec.cells, T Match _ _)).
  apply foldl_ext_in. intros T n _. apply foldl_ext_in. intros T' o _.
  unfold ViterbiSpec.recurrence. rewrite <- Hres.
  pose proof (f_equal (λ l, l !! n) Htr) as Htn.
  pose proof (f_equal (λ l, l !! n) Hins) as Hin.
  pose proof (f_equal (λ l, l !! n) Hmat) as Hmn.
  cbn beta in Htn, Hin, Hmn.
  rewrite !list_lookup_fmap in Htn. rewrite !list_lookup_fmap in Hin.
  rewrite !list_lookup_fmap in Hmn.
  rewrite !lookup_tail in Hmn.
  replace (S n) with (n + 1) in Hmn by lia.
  destruct (Nodes hmm !! n) as [nd|], (Nodes hmm' !! n) as [nd'|];
    cbn in Htn, Hin; try done.
  destruct (Residues seq !! o) as [r|]; [|done].
  injection Htn as ->. injection Hin as ->.
  destruct (Nodes hmm !! (n + 1)) as [nd1|], (Nodes hmm' !! (n + 1)) as [nd1'|];
    cbn in Hmn; try done.
  by injection Hmn as ->.
Qed.

Lemma ViterbiScore_reads_witness :
  ViterbiScore hmm_C seq_C
  = ViterbiScore hmm_C' (mkSequence "other" ["X"%byte; "X"%byte]).
Proof.
  apply (ViterbiScore_reads hmm_C hmm_C' seq_C
           (mkSequence "other" ["X"%byte; "X"%byte])); reflexivity.
Defined.

(** ** Needleman-Wunsch: edges, lengths, scores, optimality *)

(** Induction over the traceback. *)
Lemma nw_path_induction A B subst (P : nat → nat → list (Residue * Residue) → Prop) :
  P 0 0 [] →
  (∀ i j cols, 0 < i → 0 < j → diag_fits A B subst i j →
     P (i - 1) (j - 1) cols →
     P i j ((residue_at A (i - 1), residue_at B (j - 1)) :: cols)) →
  (∀ i j cols, 0 < i → up_fits A B subst i j →
     P (i - 1) j cols → P i j ((residue_at A (i - 1), gap) :: cols)) →
  (∀ i j cols, 0 < j → left_fits A B subst i j →
     P i (j - 1) cols → P i j ((gap, residue_at B (j - 1)) :: cols)) →
  ∀ fuel i j cols, nw_path fuel A B subst i j = Ok cols → P i j cols.
Proof.
  intros H0 Hd Hu Hl.
  induction fuel as [|fuel IH]; intros i j cols;
    cbn [nw_path]; case_decide as Hpos; try done;
    try (intros [= <-]; assert (i = 0 ∧ j = 0) as [-> ->] by lia; done).
  unfold step_of.
  destruct (decide (diag_fits A B subst i j)) as [Hfit|_].
  { destruct (nw_path fuel A B subst (i - 1) (j - 1)) as [cols'|] eqn:Hp;
      [|done].
    intros [= <-]. pose proof Hfit as (? & ? & _). apply Hd; auto. }
  destruct (decide (up_fits A B subst i j)) as [Hfit|_].
  { destruct (nw_path fuel A B subst (i - 1) j) as [cols'|] eqn:Hp; [|done].
    intros [= <-]. pose proof Hfit as (? & _). apply Hu; auto. }
  destruct (decide (left_fits A B subst i j)) as [Hfit|_]; [|done].
  destruct (nw_path fuel A B subst i (j - 1)) as [cols'|] eqn:Hp; [|done].
  intros [= <-]. pose proof Hfit as (? & _). apply Hl; auto.
Qed.

(** The alignment that [NeedlemanWunsch] returns, as columns. *)
Lemma NeedlemanWunsch_columns A B subst :
  ∃ cols,
    nw_path (length A + 1 + (length B + 1)) A B subst (length A) (length B)
    = Ok cols ∧
    NeedlemanWunsch A B subst = Ok (mkAlignment (rev cols.*1) (rev cols.*2)) ∧
    columns (mkAlignment (rev cols.*1) (rev cols.*2)) = rev cols.
Proof.
  destruct (nw_path_total A B subst (length A + 1 + (length B + 1))
              (length A) (length B)) as [cols Hcols]; [lia|].
  exists cols. split; [done|]. split.
  - rewrite NeedlemanWunsch_path, Hcols. by ok_step.
  - unfold columns. cbn [AlnA AlnB].
    rewrite <- !map_rev. apply zip_fst_snd.
Qed.

Lemma rev_replicate {X : Type} n (x : X) : rev (replicate n x) = replicate n x.
Proof.
  induction n as [|n IH]; [done|].
  cbn [replicate rev]. rewrite IH. symmetry. apply replicate_cons_app.
Qed.

(** X12. Against an empty sequence every residue is put against a gap:
    [NeedlemanWunsch(A, [])] returns [A] over as many gaps, and
    [NeedlemanWunsch([], B)] as many gaps over [B], whatever the
    substitution function is. *)
Theorem NeedlemanWunsch_empty (A B : list Residue) (subst : MatLookup) :
  NeedlemanWunsch A [] subst
  = Ok (mkAlignment A (replicate (length A) gap)) ∧
  NeedlemanWunsch [] B subst
  = Ok (mkAlignment (replicate (length B) gap) B).
Proof.
  split.
  - destruct (NeedlemanWunsch_columns A [] subst) as (cols & Hp & -> & _).
    apply (nw_path_induction A [] subst
             (λ i j cols, j = 0 → i ≤ length A →
                rev cols.*1 = take i A ∧ cols.*2 = replicate i gap)) in Hp.
    + destruct Hp as [-> ->]. by rewrite firstn_all, rev_replicate.
    + done.
    + intros; lia.
    + intros i j cols' Hi _ IH -> Hle.
      destruct IH as [IH1 IH2]; [done|lia|].
      cbn [fmap list_fmap fst snd rev]. rewrite IH1, IH2. split.
      * symmetry. apply take_pred_snoc. lia.
      * destruct i; [lia|]. by replace (S i - 1) with i by lia.
    + intros; lia.
    + done.
    + done.
  - destruct (NeedlemanWunsch_columns [] B subst) as (cols & Hp & -> & _).
    apply (nw_path_induction [] B subst
             (λ i j cols, i = 0 → j ≤ length B →
                rev cols.*2 = take j B ∧ cols.*1 = replicate j gap)) in Hp.
    + destruct Hp as [-> ->]. by rewrite firstn_all, rev_replicate.
    + done.
    + intros; lia.
    + intros; lia.
    + intros i j cols' Hj _ IH -> Hle.
      destruct IH as [IH1 IH2]; [done|lia|].
      cbn [fmap list_fmap fst snd rev]. rewrite IH1, IH2. split.
      * symmetry. apply take_pred_snoc. lia.
      * destruct j; [lia|]. by replace (S j - 1) with j by lia.
    + done.
    + done.
Qed.

(** X13. Where the matrix length (len(A) + 1) * (len(B) + 1) is a value
    of Go's [int], the two rows of the alignment that [NeedlemanWunsch]
    returns are equally long, at least as long as the longer sequence and at
    most as long as both together; so the capacity [max(r, c)] that is first
    allocated for them may have to grow. *)
Theorem NeedlemanWunsch_length (A B : list Residue) (subst : MatLookup) :
  fits_int ((length A + 1) * (length B + 1)) →
  ∃ aln, NeedlemanWunsch A B subst = Ok aln ∧
         length (AlnA aln) = length (AlnB aln) ∧
         max (length A) (length B) ≤ length (AlnA aln) ≤ length A + length B.
Proof.
  intros _.
  destruct (NeedlemanWunsch_columns A B subst) as (cols & Hp & -> & _).
  eexists. split; [done|]. cbn [AlnA AlnB].
  rewrite !length_rev, !length_fmap. split; [done|].
  apply (nw_path_induction A B subst
           (λ i j cols, max i j ≤ length cols ≤ i + j)) in Hp; [done|..].
  - unfold max. by case_decide.
  - intros i j cols' Hi Hj _. unfold max. cbn [length].
    repeat case_decide; lia.
  - intros i j cols' Hi _. unfold max. cbn [length].
    repeat case_decide; lia.
  - intros i j cols' Hj _. unfold max. cbn [length].
    repeat case_decide; lia.
Qed.

Lemma NeedlemanWunsch_length_witness :
  ∃ aln, NeedlemanWunsch (residues "ABC") (residues "AC") unit_score = Ok aln ∧
         length (AlnA aln) = length (AlnB aln) ∧
         max 3 2 ≤ length (AlnA aln) ≤ 3 + 2.
Proof.
  apply (NeedlemanWunsch_length (residues "ABC") (residues "AC") unit_score).
  unfold fits_int. vm_compute. reflexivity.
Defined.

Lemma nw_path_no_gap_pair A B subst :
  gap ∉ A → gap ∉ B →
  ∀ fuel i j cols,
    i ≤ length A → j ≤ length B →
    nw_path fuel A B subst i j = Ok cols →
    Forall (λ col, col.1 ≠ gap ∨ col.2 ≠ gap) cols.
Proof.
  intros HA HB fuel i j cols Hi Hj Hp.
  apply (nw_path_induction A B subst
           (λ i j cols, i ≤ length A → j ≤ length B →
              Forall (λ col, col.1 ≠ gap ∨ col.2 ≠ gap) cols)) in Hp;
    [done|..|done|done].
  - intros _ _. constructor.
  - intros i' j' cols' Hi' Hj' _ IH Hle Hle'. constructor; [|apply IH; lia].
    left. apply residue_at_not_gap; [done|lia].
  - intros i' j' cols' Hi' _ IH Hle Hle'. constructor; [|apply IH; lia].
    left. apply residue_at_not_gap; [done|lia].
  - intros i' j' cols' Hj' _ IH Hle Hle'. constructor; [|apply IH; lia].
    right. apply residue_at_not_gap; [done|lia].
Qed.

Lemma columns_lookup aln k a b :
  AlnA aln !! k = Some a → AlnB aln !! k = Some b →
  columns aln !! k = Some (a, b).
Proof.
  intros Ha Hb. unfold columns. rewrite lookup_zip_with, Ha. cbn.
  by rewrite Hb.
Qed.

(** X14. For sequences without the gap symbol, whose matrix length
    (len(A) + 1) * (len(B) + 1) is a value of Go's [int], no column of the
    alignment that [NeedlemanWunsch] returns puts a gap against a gap. *)
Theorem NeedlemanWunsch_no_gap_pair (A B : list Residue) (subst : MatLookup) :
  fits_int ((length A + 1) * (length B + 1)) →
  gap ∉ A → gap ∉ B →
  ∃ aln, NeedlemanWunsch A B subst = Ok aln ∧
         ∀ k, ¬ (AlnA aln !! k = Some gap ∧ AlnB aln !! k = Some gap).
Proof.
  intros _ HA HB.
  destruct (NeedlemanWunsch_columns A B subst) as (cols & Hp & -> & Hcols).
  eexists. split; [done|]. intros k [Ha Hb].
  pose proof (columns_lookup _ k gap gap Ha Hb) as Hk. rewrite Hcols in Hk.
  pose proof (nw_path_no_gap_pair A B subst HA HB _ _ _ cols
                (Nat.le_refl _) (Nat.le_refl _) Hp) as Hall.
  apply Forall_rev in Hall.
  rewrite Forall_lookup in Hall. by destruct (Hall k _ Hk).
Qed.

Lemma NeedlemanWunsch_no_gap_pair_witness :
  ∃ aln, NeedlemanWunsch (residues "ABC") (residues "AC") unit_score = Ok aln ∧
         ∀ k, ¬ (AlnA aln !! k = Some gap ∧ AlnB aln !! k = Some gap).
Proof.
  apply NeedlemanWunsch_no_gap_pair.
  - unfold fits_int. vm_compute. reflexivity.
  - apply (bool_decide_unpack _). vm_compute. exact I.
  - apply (bool_decide_unpack _). vm_compute. exact I.
Defined.

Lemma foldl_rev_foldr {X Y : Type} (f : X → Y → X) (l : list Y) (x : X) :
  foldl f x (rev l) = foldr (λ y acc, f acc y) x l.
Proof.
  induction l as [|y l IH]; [done|].
  cbn [rev foldr]. by rewrite foldl_app, IH.
Qed.

Lemma col_score_residues subst a b :
  a ≠ gap → b ≠ gap → col_score subst (a, b) = subst a b.
Proof.
  intros Ha Hb. unfold col_score. cbn [fst snd].
  rewrite decide_False; [done|]. by intros [? | ?].
Qed.

Lemma col_score_gap_r subst a : col_score subst (a, gap) = subst gap gap.
Proof. unfold col_score. cbn [fst snd]. rewrite decide_True; [done|by right]. Qed.

Lemma col_score_gap_l subst b : col_score subst (gap, b) = subst gap gap.
Proof. unfold col_score. cbn [fst snd]. rewrite decide_True; [done|by left]. Qed.

Lemma nw_score_00 A B subst : nw_score A B subst 0 0 = 0%Z.
Proof. rewrite nw_score_row0. unfold mul64. by rewrite Z.mul_0_r. Qed.

(** The columns of the traceback from (i, j) add up, in Go's [int], to the
    cell (i, j) of the matrix. *)
Lemma nw_path_score A B subst :
  gap ∉ A → gap ∉ B →
  ∀ fuel i j cols,
    i ≤ length A → j ≤ length B →
    nw_path fuel A B subst i j = Ok cols →
    foldr (λ col acc, add64 acc (col_score subst col)) 0%Z cols
    = nw_score A B subst i j.
Proof.
  intros HA HB fuel i j cols Hi Hj Hp.
  apply (nw_path_induction A B subst
           (λ i j cols, i ≤ length A → j ≤ length B →
              foldr (λ col acc, add64 acc (col_score subst col)) 0%Z cols
              = nw_score A B subst i j)) in Hp; [done|..|done|done].
  - intros _ _. by rewrite nw_score_00.
  - intros i' j' cols' Hi' Hj' (_ & _ & Hfit) IH Hle Hle'. cbn [foldr].
    rewrite IH by lia.
    rewrite col_score_residues by (apply residue_at_not_gap; [done|lia]).
    by rewrite Hfit.
  - intros i' j' cols' Hi' (_ & Hfit) IH Hle Hle'. cbn [foldr].
    rewrite IH by lia. by rewrite col_score_gap_r, Hfit.
  - intros i' j' cols' Hj' (_ & Hfit) IH Hle Hle'. cbn [foldr].
    rewrite IH by lia. by rewrite col_score_gap_l, Hfit.
Qed.

(** X15. For sequences without the gap symbol, whose matrix length
    (len(A) + 1) * (len(B) + 1) is a value of Go's [int], the scores of the
    columns of the alignment that [NeedlemanWunsch] returns (the
    substitution score of a pair of residues, [subst('-', '-')] for a column
    with a gap), added up in Go's [int], give the last cell of the matrix of
    the recurrence. *)
Theorem NeedlemanWunsch_score (A B : list Residue) (subst : MatLookup) :
  fits_int ((length A + 1) * (length B + 1)) →
  gap ∉ A → gap ∉ B →
  ∃ aln, NeedlemanWunsch A B subst = Ok aln ∧
         aln_score subst aln = nw_score A B subst (length A) (length B).
Proof.
  intros _ HA HB.
  destruct (NeedlemanWunsch_columns A B subst) as (cols & Hp & -> & Hcols).
  eexists. split; [done|].
  unfold aln_score. rewrite Hcols, foldl_rev_foldr.
  exact (nw_path_score A B subst HA HB _ _ _ cols
           (Nat.le_refl _) (Nat.le_refl _) Hp).
Qed.

Lemma NeedlemanWunsch_score_witness :
  ∃ aln, NeedlemanWunsch (residues "ABC") (residues "AC") unit_score = Ok aln ∧
         aln_score unit_score aln
         = nw_score (residues "ABC") (residues "AC") unit_score 3 2.
Proof.
  apply (NeedlemanWunsch_score (residues "ABC") (residues "AC") unit_score).
  - unfold fits_int. vm_compute. reflexivity.
  - apply (bool_decide_unpack _). vm_compute. exact I.
  - apply (bool_decide_unpack _). vm_compute. exact I.
Defined.

(** X16. For a symmetric substitution function and sequences without the
    gap symbol, whose matrix length (len(A) + 1) * (len(B) + 1) is a value
    of Go's [int], [NeedlemanWunsch(A, B, subst)] and
    [NeedlemanWunsch(B, A, subst)] return alignments of the same score,
    also when the one is not the transpose of the other. *)
Theorem NeedlemanWunsch_symmetric_score (A B : list Residue)
    (subst : MatLookup) :
  fits_int ((length A + 1) * (length B + 1)) →
  symmetric subst → gap ∉ A → gap ∉ B →
  ∃ aln aln', NeedlemanWunsch A B subst = Ok aln ∧
              NeedlemanWunsch B A subst = Ok aln' ∧
              aln_score subst aln = aln_score subst aln'.
Proof.
  intros _ Hsym HA HB.
  destruct (NeedlemanWunsch_columns A B subst) as (cols & Hp & -> & Hcols).
  destruct (NeedlemanWunsch_columns B A subst) as (cols' & Hp' & -> & Hcols').
  eexists _, _. split; [done|]. split; [done|].
  unfold aln_score. rewrite Hcols, Hcols', !foldl_rev_foldr.
  rewrite (nw_path_score A B subst HA HB _ _ _ cols
             (Nat.le_refl _) (Nat.le_refl _) Hp).
  rewrite (nw_path_score B A subst HB HA _ _ _ cols'
             (Nat.le_refl _) (Nat.le_refl _) Hp').
  symmetry. by apply nw_score_transpose.
Qed.

Lemma NeedlemanWunsch_symmetric_score_witness :
  ∃ aln aln', NeedlemanWunsch (residues "AB") (residues "BA") unit_score = Ok aln ∧
              NeedlemanWunsch (residues "BA") (residues "AB") unit_score = Ok aln' ∧
              aln_score unit_score aln = aln_score unit_score aln'.
Proof.
  apply (NeedlemanWunsch_symmetric_score (residues "AB") (residues "BA")
           unit_score).
  - unfold fits_int. vm_compute. reflexivity.
  - apply unit_score_symmetric.
  - apply (bool_decide_unpack _). vm_compute. exact I.
  - apply (bool_decide_unpack _). vm_compute. exact I.
Defined.

(** *** Optimality, where the scores do not overflow *)

Section Optimal.

Variables (A B : list Residue) (subst : MatLookup) (M : Z).

Hypothesis Hbound : ∀ a b, (- M ≤ subst a b ≤ M)%Z.

Hypothesis Hroom : (M * Z.of_nat (length A + length B) < 2 ^ 63)%Z.

Lemma bound_nonneg : (0 ≤ M)%Z.
Proof. pose proof (Hbound gap gap). lia. Qed.

Lemma add64_exact (x y : Z) (n : nat) :
  n < length A + length B →
  (- (M * Z.of_nat n) ≤ x ≤ M * Z.of_nat n)%Z → (- M ≤ y ≤ M)%Z →
  add64 x y = (x + y)%Z ∧
  (- (M * Z.of_nat (S n)) ≤ x + y ≤ M * Z.of_nat (S n))%Z.
Proof.
  intros Hn Hx Hy. pose proof bound_nonneg as HM.
  assert (M * Z.of_nat (S n) ≤ M * Z.of_nat (length A + length B))%Z
    by (apply Z.mul_le_mono_nonneg_l; lia).
  assert (M * Z.of_nat (S n) = M * Z.of_nat n + M)%Z by lia.
  split; [|lia]. unfold add64. apply wrap64_small. lia.
Qed.

Lemma mul64_exact (n : nat) :
  n ≤ length A + length B →
  mul64 (subst gap gap) (Z.of_nat n) = (subst gap gap * Z.of_nat n)%Z ∧
  (- (M * Z.of_nat n) ≤ subst gap gap * Z.of_nat n ≤ M * Z.of_nat n)%Z.
Proof.
  intros Hn. pose proof bound_nonneg as HM. pose proof (Hbound gap gap) as Hg.
  assert (M * Z.of_nat n ≤ M * Z.of_nat (length A + length B))%Z
    by (apply Z.mul_le_mono_nonneg_l; lia).
  assert (- (M * Z.of_nat n) ≤ subst gap gap * Z.of_nat n ≤ M * Z.of_nat n)%Z
    by nia.
  split; [|done]. unfold mul64. apply wrap64_small. lia.
Qed.

Lemma nw_score_within i : ∀ j,
  i ≤ length A → j ≤ length B →
  (- (M * Z.of_nat (i + j)) ≤ nw_score A B subst i j ≤ M * Z.of_nat (i + j))%Z.
Proof.
  induction i as [|i IHi]; intros j Hi Hj.
  - rewrite nw_score_row0.
    destruct (mul64_exact j ltac:(lia)) as [-> ?]. by rewrite Nat.add_0_l.
  - induction j as [|j IHj].
    + rewrite nw_score_col0.
      destruct (mul64_exact (S i) ltac:(lia)) as [-> ?]. by rewrite Nat.add_0_r.
    + rewrite nw_score_interior, max3_max.
      destruct (add64_exact (nw_score A B subst i j)
                  (subst (residue_at A i) (residue_at B j)) (i + j)
                  ltac:(lia) (IHi j ltac:(lia) ltac:(lia)) (Hbound _ _))
        as [-> ?].
      destruct (add64_exact (nw_score A B subst i (S j)) (subst gap gap)
                  (i + S j) ltac:(lia) (IHi (S j) ltac:(lia) ltac:(lia))
                  (Hbound _ _)) as [-> ?].
      destruct (add64_exact (nw_score A B subst (S i) j) (subst gap gap)
                  (S i + j) ltac:(lia) (IHj ltac:(lia)) (Hbound _ _))
        as [-> ?].
      replace (S i + S j) with (S (S i + j)) by lia.
      replace (S (i + S j)) with (S (S i + j)) in * by lia.
      assert (M * Z.of_nat (S (i + j)) ≤ M * Z.of_nat (S (S i + j)))%Z
        by (apply Z.mul_le_mono_nonneg_l; [apply bound_nonneg|lia]).
      lia.
Qed.

(** The three ways into a cell, without the wrap-around. *)
Lemma step_diag_exact i j :
  0 < i ≤ length A → 0 < j ≤ length B →
  add64 (nw_score A B subst (i - 1) (j - 1))
        (subst (residue_at A (i - 1)) (residue_at B (j - 1)))
  = (nw_score A B subst (i - 1) (j - 1)
     + subst (residue_at A (i - 1)) (residue_at B (j - 1)))%Z.
Proof.
  intros Hi Hj.
  apply (add64_exact _ _ (i - 1 + (j - 1))); [lia| |apply Hbound].
  apply nw_score_within; lia.
Qed.

Lemma step_up_exact i j :
  0 < i ≤ length A → j ≤ length B →
  add64 (nw_score A B subst (i - 1) j) (subst gap gap)
  = (nw_score A B subst (i - 1) j + subst gap gap)%Z.
Proof.
  intros Hi Hj.
  apply (add64_exact _ _ (i - 1 + j)); [lia| |apply Hbound].
  apply nw_score_within; lia.
Qed.

Lemma step_left_exact i j :
  i ≤ length A → 0 < j ≤ length B →
  add64 (nw_score A B subst i (j - 1)) (subst gap gap)
  = (nw_score A B subst i (j - 1) + subst gap gap)%Z.
Proof.
  intros Hi Hj.
  apply (add64_exact _ _ (i + (j - 1))); [lia| |apply Hbound].
  apply nw_score_within; lia.
Qed.

(** Every way into a cell scores at most what the cell holds. *)
Lemma diag_le i j :
  0 < i ≤ length A → 0 < j ≤ length B →
  (nw_score A B subst (i - 1) (j - 1)
   + subst (residue_at A (i - 1)) (residue_at B (j - 1))
   ≤ nw_score A B subst i j)%Z.
Proof.
  intros Hi Hj. rewrite <- step_diag_exact by done.
  destruct i as [|i], j as [|j]; try lia.
  replace (S i - 1) with i by lia. replace (S j - 1) with j by lia.
  rewrite nw_score_interior, max3_max. lia.
Qed.

Lemma up_le i j :
  0 < i ≤ length A → j ≤ length B →
  (nw_score A B subst (i - 1) j + subst gap gap ≤ nw_score A B subst i j)%Z.
Proof.
  intros Hi Hj. rewrite <- step_up_exact by done.
  destruct i as [|i]; [lia|]. replace (S i - 1) with i by lia.
  destruct j as [|j].
  - rewrite !nw_score_col0, border_step. lia.
  - rewrite nw_score_interior, max3_max. lia.
Qed.

Lemma left_le i j :
  i ≤ length A → 0 < j ≤ length B →
  (nw_score A B subst i (j - 1) + subst gap gap ≤ nw_score A B subst i j)%Z.
Proof.
  intros Hi Hj. rewrite <- step_left_exact by done.
  destruct j as [|j]; [lia|]. replace (S j - 1) with j by lia.
  destruct i as [|i].
  - rewrite !nw_score_row0, border_step. lia.
  - rewrite nw_score_interior, max3_max. lia.
Qed.

Hypothesis HA : gap ∉ A.

Hypothesis HB : gap ∉ B.

Lemma rev_take_cons (l : list Residue) i x rest :
  i ≤ length l → x :: rest = rev (take i l) →
  0 < i ∧ x = residue_at l (i - 1) ∧ rest = rev (take (i - 1) l).
Proof.
  intros Hi Heq. destruct i as [|i]; [done|].
  rewrite (take_pred_snoc l (S i)) in Heq by lia.
  rewrite rev_app_distr in Heq. cbn [rev app] in Heq.
  injection Heq as -> ->. split; [lia|done].
Qed.

(** No alignment of the first [i] residues of [A] with the first [j]
    residues of [B] scores more than the cell (i, j); the columns are
    taken last column first. *)
Lemma total_score_le cols : ∀ i j,
  i ≤ length A → j ≤ length B →
  ungap cols.*1 = rev (take i A) → ungap cols.*2 = rev (take j B) →
  Forall (λ col, col.1 ≠ gap ∨ col.2 ≠ gap) cols →
  (total_score subst cols ≤ nw_score A B subst i j)%Z.
Proof.
  induction cols as [|[a b] cols IH]; intros i j Hi Hj Ha Hb Hall.
  - cbn in Ha, Hb.
    assert (i = 0) as ->.
    { apply (f_equal length) in Ha. rewrite length_rev, length_take in Ha.
      cbn in Ha. lia. }
    assert (j = 0) as ->.
    { apply (f_equal length) in Hb. rewrite length_rev, length_take in Hb.
      cbn in Hb. lia. }
    rewrite nw_score_00. done.
  - apply Forall_cons in Hall as [Hab Hall].
    cbn [fmap list_fmap fst snd] in Ha, Hb, Hab.
    unfold total_score. cbn [foldr]. fold (total_score subst cols).
    destruct (decide (a = gap)) as [-> | Hna],
             (decide (b = gap)) as [-> | Hnb].
    + by destruct Hab.
    + rewrite ungap_cons_gap in Ha.
      rewrite ungap_cons_residue in Hb by done.
      apply rev_take_cons in Hb as (Hj0 & -> & Hb); [|done].
      rewrite col_score_gap_l.
      pose proof (IH i (j - 1) Hi ltac:(lia) Ha Hb Hall).
      pose proof (left_le i j Hi ltac:(lia)). lia.
    + rewrite ungap_cons_gap in Hb.
      rewrite ungap_cons_residue in Ha by done.
      apply rev_take_cons in Ha as (Hi0 & -> & Ha); [|done].
      rewrite col_score_gap_r.
      pose proof (IH (i - 1) j ltac:(lia) Hj Ha Hb Hall).
      pose proof (up_le i j ltac:(lia) Hj). lia.
    + rewrite ungap_cons_residue in Ha by done.
      rewrite ungap_cons_residue in Hb by done.
      apply rev_take_cons in Ha as (Hi0 & -> & Ha); [|done].
      apply rev_take_cons in Hb as (Hj0 & -> & Hb); [|done].
      rewrite col_score_residues by done.
      pose proof (IH (i - 1) (j - 1) ltac:(lia) ltac:(lia) Ha Hb Hall).
      pose proof (diag_le i j ltac:(lia) ltac:(lia)). lia.
Qed.

(** The columns of the traceback from (i, j) score what the cell holds. *)
Lemma nw_path_total_score fuel i j cols :
  i ≤ length A → j ≤ length B →
  nw_path fuel A B subst i j = Ok cols →
  total_score subst cols = nw_score A B subst i j.
Proof.
  intros Hi Hj Hp.
  apply (nw_path_induction A B subst
           (λ i j cols, i ≤ length A → j ≤ length B →
              total_score subst cols = nw_score A B subst i j)) in Hp;
    [done|..|done|done].
  - intros _ _. by rewrite nw_score_00.
  - intros i' j' cols' Hi' Hj' (_ & _ & Hfit) IH Hle Hle'.
    unfold total_score. cbn [foldr]. fold (total_score subst cols').
    rewrite IH by lia.
    rewrite col_score_residues by (apply residue_at_not_gap; [done|lia]).
    rewrite Hfit, step_diag_exact by lia. lia.
  - intros i' j' cols' Hi' (_ & Hfit) IH Hle Hle'.
    unfold total_score. cbn [foldr]. fold (total_score subst cols').
    rewrite IH by lia. rewrite col_score_gap_r, Hfit, step_up_exact by lia. lia.
  - intros i' j' cols' Hj' (_ & Hfit) IH Hle Hle'.
    unfold total_score. cbn [foldr]. fold (total_score subst cols').
    rewrite IH by lia.
    rewrite col_score_gap_l, Hfit, step_left_exact by lia. lia.
Qed.

End Optimal.

Lemma fmap_rev {X Y : Type} (f : X → Y) (l : list X) :
  f <$> rev l = rev (f <$> l).
Proof. exact (map_rev f l). Qed.

Lemma total_score_app subst cols1 cols2 :
  total_score subst (cols1 ++ cols2)
  = (total_score subst cols1 + total_score subst cols2)%Z.
Proof.
  unfold total_score. induction cols1 as [|c cols1 IH]; [done|].
  cbn [app foldr]. rewrite IH. lia.
Qed.

Lemma total_score_rev subst cols :
  total_score subst (rev cols) = total_score subst cols.
Proof.
  induction cols as [|c cols IH]; [done|].
  cbn [rev]. rewrite total_score_app, IH. unfold total_score. cbn [foldr]. lia.
Qed.

(** X17. Where neither the matrix length nor the scores can overflow
    ((len(A) + 1) * (len(B) + 1) is a value of Go's [int], every
    substitution score is at most [M] in absolute value and
    [M * (len(A) + len(B))] fits Go's [int]), [NeedlemanWunsch] returns, for
    sequences without the gap symbol, an alignment of [A] with [B] of the
    highest score: no alignment of [A] with [B] scores more. *)
Theorem NeedlemanWunsch_optimal (A B : list Residue) (subst : MatLookup)
    (M : Z) :
  fits_int ((length A + 1) * (length B + 1)) →
  gap ∉ A → gap ∉ B →
  (∀ a b, (- M ≤ subst a b ≤ M)%Z) →
  (M * Z.of_nat (length A + length B) < 2 ^ 63)%Z →
  ∃ aln, NeedlemanWunsch A B subst = Ok aln ∧
         is_alignment A B (columns aln) ∧
         ∀ cols, is_alignment A B cols →
           (total_score subst cols ≤ total_score subst (columns aln))%Z.
Proof.
  intros _ HA HB Hbound Hroom.
  destruct (NeedlemanWunsch_columns A B subst) as (cols & Hp & -> & Hcols).
  eexists. split; [done|]. rewrite Hcols.
  destruct (nw_path_spells A B subst HA HB _ _ _ cols
              (Nat.le_refl _) (Nat.le_refl _) Hp) as [Ha Hb].
  rewrite firstn_all in Ha, Hb.
  split.
  - unfold is_alignment. rewrite !fmap_rev.
    rewrite !ungap_rev, Ha, Hb, !rev_involutive.
    split; [done|]. split; [done|].
    apply Forall_rev.
    exact (nw_path_no_gap_pair A B subst HA HB _ _ _ cols
             (Nat.le_refl _) (Nat.le_refl _) Hp).
  - intros cols' (Ha' & Hb' & Hall').
    rewrite total_score_rev.
    rewrite (nw_path_total_score A B subst M Hbound Hroom HA HB _ _ _ cols
               (Nat.le_refl _) (Nat.le_refl _) Hp).
    rewrite <- (total_score_rev subst cols').
    apply (total_score_le A B subst M Hbound Hroom).
    + done.
    + done.
    + by rewrite fmap_rev, ungap_rev, firstn_all, Ha'.
    + by rewrite fmap_rev, ungap_rev, firstn_all, Hb'.
    + by apply Forall_rev.
Qed.

Lemma NeedlemanWunsch_optimal_witness :
  ∃ aln, NeedlemanWunsch (residues "ABC") (residues "AC") unit_score = Ok aln ∧
         is_alignment (residues "ABC") (residues "AC") (columns aln) ∧
         ∀ cols, is_alignment (residues "ABC") (residues "AC") cols →
           (total_score unit_score cols
            ≤ total_score unit_score (columns aln))%Z.
Proof.
  apply (NeedlemanWunsch_optimal (residues "ABC") (residues "AC") unit_score 1).
  - unfold fits_int. vm_compute. reflexivity.
  - apply (bool_decide_unpack _). vm_compute. exact I.
  - apply (bool_decide_unpack _). vm_compute. exact I.
  - intros a b. unfold unit_score. case_decide; lia.
  - vm_compute. reflexivity.
Defined.

(** X18. [max3] returns the greatest of its three arguments, which is one
    of them, and [max] the greater of its two. *)
Theorem max3_greatest (a b c : Z) (m n : nat) :
  max3 a b c = Z.max a (Z.max b c) ∧
  (max3 a b c = a ∨ max3 a b c = b ∨ max3 a b c = c) ∧
  max m n = Nat.max m n.
Proof.
  split; [apply max3_max|]. split; [apply max3_cases|].
  unfold max. case_decide; lia.
Qed.

(** ** [Slice] of a part of the model, [HMMCat], and how they compose *)

Lemma slice_elems_length (σ : store_of_arrays) (s : slice) :
  valid σ s → length (slice_elems σ s) = s_len s.
Proof.
  intros (Hlen & _ & arr & Harr & Hfit). unfold slice_elems.
  rewrite Harr. cbn [default from_option id].
  rewrite length_take, length_drop. lia.
Qed.

Lemma fresh_not_in (σ : store_of_arrays) a arr :
  σ !! a = Some arr → fresh (dom σ) ≠ a.
Proof.
  intros Ha Heq. apply (is_fresh (dom σ)). rewrite Heq.
  apply elem_of_dom. by eexists.
Qed.

Lemma slice_elems_insert_ne (σ : store_of_arrays) s a arr :
  a ≠ s_arr s → slice_elems (<[a := arr]> σ) s = slice_elems σ s.
Proof. intros Hne. unfold slice_elems. by rewrite lookup_insert_ne. Qed.

Lemma force_exit_idemp nd : force_exit (force_exit nd) = force_exit nd.
Proof. reflexivity. Qed.

(** What [Slice] leaves, in terms of the nodes that the parts read. *)
Lemma Slice_nodes (hmm : HMMstruct) (σ : store_of_arrays) (start end_ : nat) :
  valid σ (SNodes hmm) → start < end_ ≤ s_cap (SNodes hmm) →
  ∃ hmm' σ',
    Slice hmm (Z.of_nat start) (Z.of_nat end_) σ = Ok (hmm', σ') ∧
    SNodes hmm' = mkSlice (fresh (dom σ)) 0 (end_ - start) (end_ - start) ∧
    SAlphabet hmm' = SAlphabet hmm ∧ SNull hmm' = SNull hmm ∧
    σ' = <[fresh (dom σ) :=
             alter force_exit (end_ - start - 1)
               (take (end_ - start) (drop start (backing σ (SNodes hmm))))]> σ.
Proof.
  intros (Hlen & Hcap & arr & Harr & Hfit) Hse.
  rewrite Slice_Ok by (lia || by eexists).
  replace (Z.to_nat (Z.of_nat end_ - Z.of_nat start)) with (end_ - start) by lia.
  rewrite Nat2Z.id.
  eexists _, _. split; [done|]. cbn [SNodes SAlphabet SNull].
  split; [done|]. split; [done|]. split; [done|].
  f_equal. f_equal.
  unfold backing, slice_elems. cbn [s_arr s_off s_len].
  rewrite Harr. cbn [default from_option id].
  set (xs := take (end_ - start) (drop (s_off (SNodes hmm) + start) arr)).
  assert (length xs = end_ - start) as Hxs
    by (unfold xs; rewrite length_take, length_drop; lia).
  rewrite Hxs, drop_ge, app_nil_r by (rewrite length_replicate; lia).
  unfold xs.
  replace (s_cap (SNodes hmm)) with (start + (s_cap (SNodes hmm) - start))
    by lia.
  rewrite <- take_drop_commute, take_take, drop_drop.
  f_equal. lia.
Qed.

Lemma backing_length (σ : store_of_arrays) (s : slice) :
  valid σ s → length (backing σ s) = s_cap s.
Proof.
  intros (Hlen & _ & arr & Harr & Hfit). unfold backing, slice_elems.
  cbn [s_arr s_off s_len]. rewrite Harr. cbn [default from_option id].
  rewrite length_take, length_drop. lia.
Qed.

Lemma backing_take (σ : store_of_arrays) (s : slice) :
  valid σ s → take (s_len s) (backing σ s) = slice_elems σ s.
Proof.
  intros (Hlen & _). unfold backing, slice_elems. cbn [s_arr s_off s_len].
  rewrite take_take. f_equal. lia.
Qed.

(** The header and the store that [Slice] leaves, read as a model. *)
Lemma Slice_view (hmm : HMMstruct) (σ : store_of_arrays) (start end_ : nat) :
  valid σ (SNodes hmm) → start < end_ ≤ s_cap (SNodes hmm) →
  ∃ hmm' σ',
    Slice hmm (Z.of_nat start) (Z.of_nat end_) σ = Ok (hmm', σ') ∧
    valid σ' (SNodes hmm') ∧
    s_len (SNodes hmm') = end_ - start ∧
    view σ' hmm'
    = mkHMM (alter force_exit (end_ - start - 1)
               (take (end_ - start) (drop start (backing σ (SNodes hmm)))))
        (SAlphabet hmm) (SNull hmm) ∧
    (∀ s, is_Some (σ !! s_arr s) → slice_elems σ' s = slice_elems σ s) ∧
    (∀ a arr, σ !! a = Some arr → σ' !! a = Some arr).
Proof.
  intros Hvalid Hse.
  destruct (Slice_nodes hmm σ start end_ Hvalid Hse)
    as (hmm' & σ' & Hrun & Hnodes & Halpha & Hnull & ->).
  pose proof (backing_length σ (SNodes hmm) Hvalid) as Hback.
  pose proof Hvalid as (Hlen & Hcap & _).
  set (xs := alter force_exit (end_ - start - 1)
               (take (end_ - start) (drop start (backing σ (SNodes hmm))))).
  assert (length xs = end_ - start) as Hxs
    by (unfold xs; rewrite length_alter, length_take, length_drop; lia).
  exists hmm', (<[fresh (dom σ) := xs]> σ). split; [done|].
  split; [|split; [by rewrite Hnodes|split; [|split]]].
  - rewrite Hnodes. split; [done|]. cbn [s_len s_cap s_arr s_off].
    split; [lia|]. exists xs. split; [apply lookup_insert_eq|lia].
  - unfold view. rewrite Hnodes, Halpha, Hnull. f_equal.
    unfold slice_elems. cbn [s_arr s_off s_len].
    rewrite lookup_insert_eq. cbn [default from_option id drop].
    apply take_ge. lia.
  - intros s [arr Harr]. apply slice_elems_insert_ne.
    by apply (fresh_not_in σ _ arr).
  - intros a arr Ha. rewrite lookup_insert_ne; [done|].
    by apply (fresh_not_in σ _ arr).
Qed.



(** X20. Slicing a slice at its full length changes nothing more: the
    model that [Slice(0, end - start)] returns on the result of
    [Slice(start, end)] reads like that result. *)
Theorem Slice_twice (hmm : HMMstruct) (σ : store_of_arrays) (start end_ : nat) :
  valid σ (SNodes hmm) → start < end_ ≤ s_cap (SNodes hmm) →
  ∃ hmm1 σ1 hmm2 σ2,
    Slice hmm (Z.of_nat start) (Z.of_nat end_) σ = Ok (hmm1, σ1) ∧
    Slice hmm1 0 (Z.of_nat (end_ - start)) σ1 = Ok (hmm2, σ2) ∧
    view σ2 hmm2 = view σ1 hmm1 ∧
    view σ2 hmm1 = view σ1 hmm1.
Proof.
  intros Hvalid Hse.
  destruct (Slice_view hmm σ start end_ Hvalid Hse)
    as (hmm1 & σ1 & Hrun1 & Hvalid1 & Hlen1 & Hview1 & _ & _).
  pose proof Hvalid1 as (Hle1 & _ & arr1 & Harr1 & _).
  assert (s_cap (SNodes hmm1) = end_ - start) as Hcap1.
  { destruct (Slice_nodes hmm σ start end_ Hvalid Hse)
      as (hmm1' & σ1' & Hrun1' & Hnodes & _).
    rewrite Hrun1 in Hrun1'. injection Hrun1' as <- <-. by rewrite Hnodes. }
  destruct (Slice_view hmm1 σ1 0 (end_ - start) Hvalid1 ltac:(lia))
    as (hmm2 & σ2 & Hrun2 & _ & _ & Hview2 & Hold2 & _).
  exists hmm1, σ1, hmm2, σ2. split; [done|]. split; [done|]. split.
  - rewrite Hview2. rewrite Nat.sub_0_r. cbn [drop].
    assert (backing σ1 (SNodes hmm1) = Nodes (view σ1 hmm1)) as ->.
    { unfold view. cbn [Nodes].
      rewrite <- (backing_take σ1 (SNodes hmm1) Hvalid1).
      rewrite take_ge; [done|].
      rewrite (backing_length σ1 (SNodes hmm1) Hvalid1). lia. }
    pose proof (f_equal Alphabet Hview1) as Halpha.
    pose proof (f_equal Null Hview1) as Hnull.
    cbn [view Alphabet Null] in Halpha, Hnull. rewrite Halpha, Hnull.
    rewrite Hview1. cbn [Nodes]. f_equal. rewrite drop_0.
    rewrite take_ge by (rewrite length_alter, length_take, length_drop;
                        rewrite (backing_length σ _ Hvalid); lia).
    rewrite list_alter_alter_eq. apply list_alter_ext; [|done].
    intros nd _. apply force_exit_idemp.
  - unfold view. f_equal. apply Hold2. by eexists.
Qed.

Lemma Slice_twice_witness :
  ∃ hmm1 σ1 hmm2 σ2,
    Slice hmm_full 0 2 store_Z = Ok (hmm1, σ1) ∧
    Slice hmm1 0 2 σ1 = Ok (hmm2, σ2) ∧
    view σ2 hmm2 = view σ1 hmm1 ∧
    view σ2 hmm1 = view σ1 hmm1.
Proof.
  apply (Slice_twice hmm_full store_Z 0 2).
  - split; [cbn; lia|]. split; [cbn; lia|].
    exists [node_Z; node_Z]. split; [reflexivity|cbn; lia].
  - cbn. lia.
Defined.

(** [HMMCat] of two models that fit the store, where the sum of the
    lengths is a Go [int]: the new array holds the nodes of the first and
    then those of the second. *)
Lemma HMMCat_Ok (h1 h2 : HMMstruct) (σ : store_of_arrays) :
  valid σ (SNodes h1) → valid σ (SNodes h2) →
  (Z.of_nat (s_len (SNodes h1) + s_len (SNodes h2)) < 2 ^ 63)%Z →
  let n := s_len (SNodes h1) + s_len (SNodes h2) in
  HMMCat h1 h2 σ
  = Ok (mkHMMstruct (mkSlice (fresh (dom σ)) 0 n n) (SAlphabet h1) (SNull h1),
        <[fresh (dom σ) :=
            slice_elems σ (SNodes h1) ++ slice_elems σ (SNodes h2)]> σ).
Proof.
  intros Hv1 Hv2 Hsum n.
  pose proof (slice_elems_length σ _ Hv1) as Hl1.
  pose proof (slice_elems_length σ _ Hv2) as Hl2.
  destruct Hv1 as (_ & _ & arr1 & Harr1 & _).
  destruct Hv2 as (_ & _ & arr2 & Harr2 & _).
  pose proof (fresh_not_in σ _ _ Harr1) as Hne1.
  pose proof (fresh_not_in σ _ _ Harr2) as Hne2.
  unfold HMMCat, make_nodes, add64.
  rewrite wrap64_small by lia. rewrite decide_False by lia. ok_step.
  replace (Z.to_nat (Z.of_nat (s_len (SNodes h1)) + Z.of_nat (s_len (SNodes h2))))
    with n by lia.
  cbv zeta. cbn [s_len].
  unfold reslice. cbn [s_cap s_arr s_off]. rewrite decide_True by lia. ok_step.
  rewrite Nat2Z.id.
  replace (Z.to_nat (Z.of_nat n - Z.of_nat (s_len (SNodes h1))))
    with (s_len (SNodes h2)) by lia.
  f_equal. f_equal.
  unfold copy at 2. cbn [s_len s_arr s_off].
  rewrite slice_elems_insert_ne by done.
  replace (Nat.min n (s_len (SNodes h1))) with (s_len (SNodes h1)) by lia.
  rewrite (take_ge (slice_elems σ (SNodes h1))) by lia.
  rewrite alter_insert_eq. cbn [take app]. rewrite Hl1, Nat.add_0_l.
  unfold copy. cbn [s_len s_arr s_off].
  rewrite slice_elems_insert_ne by done.
  rewrite Nat.min_id, (take_ge (slice_elems σ (SNodes h2))) by lia.
  rewrite alter_insert_eq. rewrite Hl2. f_equal.
  rewrite !take_0. cbn [app].
  rewrite take_app_length' by done.
  rewrite drop_ge, app_nil_r; [done|].
  rewrite length_app, length_drop, length_replicate. lia.
Qed.

(** X21. [HMMCat(h1, h2)] returns a model in an array of its own whose
    nodes are those of [h1] followed by those of [h2], unchanged, with the
    alphabet and the null model of [h1] (those of [h2] are not looked at);
    [h1] and [h2] read as before, and no array that was in the store has
    changed. *)
Theorem HMMCat_nodes (h1 h2 : HMMstruct) (σ : store_of_arrays) :
  valid σ (SNodes h1) → valid σ (SNodes h2) →
  (Z.of_nat (s_len (SNodes h1) + s_len (SNodes h2)) < 2 ^ 63)%Z →
  ∃ h σ',
    HMMCat h1 h2 σ = Ok (h, σ') ∧
    Nodes (view σ' h) = Nodes (view σ h1) ++ Nodes (view σ h2) ∧
    Alphabet (view σ' h) = Alphabet (view σ h1) ∧
    Null (view σ' h) = Null (view σ h1) ∧
    view σ' h1 = view σ h1 ∧ view σ' h2 = view σ h2 ∧
    σ !! s_arr (SNodes h) = None ∧
    ∀ a arr, σ !! a = Some arr → σ' !! a = Some arr.
Proof.
  intros Hv1 Hv2 Hsum. rewrite (HMMCat_Ok h1 h2 σ Hv1 Hv2 Hsum).
  pose proof (slice_elems_length σ _ Hv1) as Hl1.
  pose proof (slice_elems_length σ _ Hv2) as Hl2.
  destruct Hv1 as (_ & _ & arr1 & Harr1 & _).
  destruct Hv2 as (_ & _ & arr2 & Harr2 & _).
  eexists _, _. split; [done|].
  unfold view. cbn [Nodes Alphabet Null SNodes SAlphabet SNull s_arr].
  split; [|split; [done|split; [done|split; [|split; [|split]]]]].
  - unfold slice_elems at 1. cbn [s_arr s_off s_len].
    rewrite lookup_insert_eq. cbn [default from_option id drop].
    apply take_ge. rewrite length_app. lia.
  - f_equal. apply slice_elems_insert_ne. by apply (fresh_not_in σ _ arr1).
  - f_equal. apply slice_elems_insert_ne. by apply (fresh_not_in σ _ arr2).
  - apply not_elem_of_dom. apply is_fresh.
  - intros a arr Ha. rewrite lookup_insert_ne; [done|].
    by apply (fresh_not_in σ _ arr).
Qed.

Lemma HMMCat_nodes_witness :
  ∃ h σ',
    HMMCat hmm_full hmm_W store_ZW = Ok (h, σ') ∧
    Nodes (view σ' h) = [node_Z; node_Z; node_W] ∧
    Alphabet (view σ' h) = ["X"%byte] ∧
    Null (view σ' h) = NewEProbs ["X"%byte] ∧
    view σ' hmm_full = view store_ZW hmm_full ∧
    view σ' hmm_W = view store_ZW hmm_W ∧
    store_ZW !! s_arr (SNodes h) = None ∧
    ∀ a arr, store_ZW !! a = Some arr → σ' !! a = Some arr.
Proof.
  apply (HMMCat_nodes hmm_full hmm_W store_ZW).
  - split; [cbn; lia|]. split; [cbn; lia|].
    exists [node_Z; node_Z]. split; [reflexivity|cbn; lia].
  - split; [cbn; lia|]. split; [cbn; lia|].
    exists [node_W]. split; [reflexivity|cbn; lia].
  - cbn. lia.
Defined.

(** X22. Cutting a concatenation at the seam gives the two models back,
    each with the exit transitions on its last node: on the result of
    [HMMCat(h1, h2)], [Slice(0, len(h1.Nodes))] returns the nodes of [h1]
    and [Slice(len(h1.Nodes), len(h1.Nodes) + len(h2.Nodes))] those of
    [h2]. *)
Theorem Slice_of_HMMCat (h1 h2 : HMMstruct) (σ : store_of_arrays) :
  valid σ (SNodes h1) → valid σ (SNodes h2) →
  1 ≤ s_len (SNodes h1) → 1 ≤ s_len (SNodes h2) →
  (Z.of_nat (s_len (SNodes h1) + s_len (SNodes h2)) < 2 ^ 63)%Z →
  ∃ h σ1,
    HMMCat h1 h2 σ = Ok (h, σ1) ∧
    (∃ hl σ2,
       Slice h 0 (Z.of_nat (s_len (SNodes h1))) σ1 = Ok (hl, σ2) ∧
       Nodes (view σ2 hl)
       = alter force_exit (s_len (SNodes h1) - 1) (Nodes (view σ h1))) ∧
    (∃ hr σ2,
       Slice h (Z.of_nat (s_len (SNodes h1)))
         (Z.of_nat (s_len (SNodes h1) + s_len (SNodes h2))) σ1 = Ok (hr, σ2) ∧
       Nodes (view σ2 hr)
       = alter force_exit (s_len (SNodes h2) - 1) (Nodes (view σ h2))).
Proof.
  intros Hv1 Hv2 Hn1 Hn2 Hsum. rewrite (HMMCat_Ok h1 h2 σ Hv1 Hv2 Hsum).
  pose proof (slice_elems_length σ _ Hv1) as Hl1.
  pose proof (slice_elems_length σ _ Hv2) as Hl2.
  set (n := s_len (SNodes h1) + s_len (SNodes h2)) in *.
  set (xs := slice_elems σ (SNodes h1) ++ slice_elems σ (SNodes h2)).
  set (h := mkHMMstruct (mkSlice (fresh (dom σ)) 0 n n) (SAlphabet h1) (SNull h1)).
  set (σ1 := <[fresh (dom σ) := xs]> σ).
  assert (length xs = n) as Hxs by (unfold xs; rewrite length_app; lia).
  assert (valid σ1 (SNodes h)) as Hv.
  { split; [done|]. split; [cbn [h SNodes s_cap]; lia|].
    exists xs. split; [apply lookup_insert_eq|cbn [h SNodes s_off s_cap]; lia]. }
  assert (backing σ1 (SNodes h) = xs) as Hback.
  { unfold backing, slice_elems. cbn [h SNodes s_arr s_off s_cap s_len].
    unfold σ1. rewrite lookup_insert_eq. cbn [default from_option id drop].
    apply take_ge. lia. }
  exists h, σ1. split; [done|]. split.
  - destruct (Slice_view h σ1 0 (s_len (SNodes h1)) Hv)
      as (hl & σ2 & Hrun & _ & _ & Hview & _); [cbn [h SNodes s_cap]; lia|].
    exists hl, σ2. split; [done|]. rewrite Hview, Hback. cbn [Nodes view].
    rewrite Nat.sub_0_r, drop_0. unfold xs.
    by rewrite take_app_length' by done.
  - destruct (Slice_view h σ1 (s_len (SNodes h1)) n Hv)
      as (hr & σ2 & Hrun & _ & _ & Hview & _); [cbn [h SNodes s_cap]; lia|].
    exists hr, σ2. split; [done|]. rewrite Hview, Hback. cbn [Nodes view].
    replace (n - s_len (SNodes h1)) with (s_len (SNodes h2)) by lia.
    unfold xs. rewrite drop_app_length' by done.
    by rewrite take_ge by lia.
Qed.

Lemma Slice_of_HMMCat_witness :
  ∃ h σ1,
    HMMCat hmm_full hmm_W store_ZW = Ok (h, σ1) ∧
    (∃ hl σ2,
       Slice h 0 2 σ1 = Ok (hl, σ2) ∧
       Nodes (view σ2 hl) = [node_Z; force_exit node_Z]) ∧
    (∃ hr σ2,
       Slice h 2 3 σ1 = Ok (hr, σ2) ∧
       Nodes (view σ2 hr) = [force_exit node_W]).
Proof.
  apply (Slice_of_HMMCat hmm_full hmm_W store_ZW).
  - split; [cbn; lia|]. split; [cbn; lia|].
    exists [node_Z; node_Z]. split; [reflexivity|cbn; lia].
  - split; [cbn; lia|]. split; [cbn; lia|].
    exists [node_W]. split; [reflexivity|cbn; lia].
  - cbn. lia.
  - cbn. lia.
  - cbn. lia.
Defined.

Lemma slice_elems_update_ne (σ σ' : store_of_arrays) (s t : slice) i f :
  update_at s i f σ = Ok σ' → s_arr s ≠ s_arr t →
  slice_elems σ' t = slice_elems σ t.
Proof.
  unfold update_at. case_decide; [|done]. intros [= <-] Hne.
  unfold slice_elems. by rewrite lookup_alter_ne.
Qed.

Lemma slice_elems_update (σ σ' : store_of_arrays) (s : slice) (i : nat) f :
  valid σ s → update_at s (Z.of_nat i) f σ = Ok σ' →
  i < s_len s ∧ slice_elems σ' s = alter f i (slice_elems σ s).
Proof.
  intros (Hlen & _ & arr & Harr & Hfit).
  unfold update_at. case_decide as Hi; [|done]. intros [= <-].
  split; [lia|]. unfold slice_elems.
  rewrite lookup_alter_eq, Harr. cbn [fmap option_fmap option_map default
                                   from_option id].
  rewrite Nat2Z.id.
  apply list_eq. intros k.
  destruct (decide (k < s_len s)) as [Hk|Hk].
  - rewrite lookup_take_lt, lookup_drop by done.
    destruct (decide (k = i)) as [-> | Hne].
    + rewrite !list_lookup_alter_eq.
      by rewrite lookup_take_lt, lookup_drop by done.
    + rewrite !list_lookup_alter_ne by lia.
      by rewrite lookup_take_lt, lookup_drop by done.
  - rewrite lookup_take_ge by lia.
    rewrite list_lookup_alter_ne by lia.
    by rewrite lookup_take_ge by lia.
Qed.

(** X23. [NewHMM] keeps the slice it is given, while [HMMCat] copies the
    nodes: a write to a node through the slice given to [NewHMM] shows in
    the model; a write to a node of [h1] after [HMMCat(h1, h2)] that leaves
    the two emission tables of the node alone (a copied node shares the
    arrays of its emission tables with the original) shows in [h1] but not
    in the concatenation. *)
Theorem NewHMM_aliases_HMMCat_copies (h1 h2 : HMMstruct)
    (σ σ' : store_of_arrays) (i : nat) (f : HMMNode → HMMNode) :
  valid σ (SNodes h1) → valid σ (SNodes h2) →
  (Z.of_nat (s_len (SNodes h1) + s_len (SNodes h2)) < 2 ^ 63)%Z →
  update_at (SNodes h1) (Z.of_nat i) f σ = Ok σ' →
  view σ' (NewHMM (SNodes h1) (SAlphabet h1) (SNull h1))
  = mkHMM (alter f i (Nodes (view σ h1))) (SAlphabet h1) (SNull h1) ∧
  ((∀ nd, InsEmit (f nd) = InsEmit nd ∧ MatEmit (f nd) = MatEmit nd) →
   ∃ h σ1 σ2,
     HMMCat h1 h2 σ = Ok (h, σ1) ∧
     update_at (SNodes h1) (Z.of_nat i) f σ1 = Ok σ2 ∧
     Nodes (view σ2 h1) = alter f i (Nodes (view σ1 h1)) ∧
     view σ2 h = view σ1 h).
Proof.
  intros Hv1 Hv2 Hsum Hup.
  destruct (slice_elems_update σ σ' _ i f Hv1 Hup) as [Hi Helems].
  split.
  - unfold view, NewHMM. cbn [SNodes SAlphabet SNull Nodes]. by rewrite Helems.
  - intros _. rewrite (HMMCat_Ok h1 h2 σ Hv1 Hv2 Hsum).
    destruct Hv1 as (Hlen1 & Hcap1 & arr1 & Harr1 & Hfit1).
    pose proof (fresh_not_in σ _ _ Harr1) as Hne.
    set (σ1 := <[fresh (dom σ) := _]> σ).
    assert (valid σ1 (SNodes h1)) as Hv1'.
    { split; [done|]. split; [done|]. exists arr1.
      split; [|done]. unfold σ1. by rewrite lookup_insert_ne. }
    assert (∃ σ2, update_at (SNodes h1) (Z.of_nat i) f σ1 = Ok σ2) as [σ2 Hup2].
    { unfold update_at. rewrite decide_True by lia. by eexists. }
    eexists _, σ1, σ2. split; [done|]. split; [done|]. split.
    + unfold view. cbn [Nodes].
      by destruct (slice_elems_update σ1 σ2 _ i f Hv1' Hup2) as [_ ->].
    + unfold view. cbn [SNodes SAlphabet SNull]. f_equal.
      apply (slice_elems_update_ne σ1 σ2 (SNodes h1) _ _ f Hup2).
      cbn [s_arr]. done.
Qed.

Lemma NewHMM_aliases_HMMCat_copies_witness :
  view (alter (alter force_exit 0) 0 store_ZW)
    (NewHMM (SNodes hmm_full) (SAlphabet hmm_full) (SNull hmm_full))
  = mkHMM (alter force_exit 0 (Nodes (view store_ZW hmm_full)))
      (SAlphabet hmm_full) (SNull hmm_full) ∧
  ∃ h σ1 σ2,
    HMMCat hmm_full hmm_W store_ZW = Ok (h, σ1) ∧
    update_at (SNodes hmm_full) 0 force_exit σ1 = Ok σ2 ∧
    Nodes (view σ2 hmm_full) = alter force_exit 0 (Nodes (view σ1 hmm_full)) ∧
    view σ2 h = view σ1 h.
Proof.
  destruct (NewHMM_aliases_HMMCat_copies hmm_full hmm_W store_ZW
              (alter (alter force_exit 0) 0 store_ZW) 0 force_exit)
    as [Hshared Hcopied].
  - split; [cbn; lia|]. split; [cbn; lia|].
    exists [node_Z; node_Z]. split; [reflexivity|cbn; lia].
  - split; [cbn; lia|]. split; [cbn; lia|].
    exists [node_W]. split; [reflexivity|cbn; lia].
  - cbn. lia.
  - reflexivity.
  - split; [exact Hshared|]. apply Hcopied.
    intros nd. split; reflexivity.
Defined.

(** ** Alphabets, residues and the helper of the tests *)

Lemma Equals_loop_drop a1 : ∀ a2 i,
  i + length a1 = length a2 →
  Equals_loop a1 a2 i = Ok (bool_decide (a1 = drop i a2)).
Proof.
  induction a1 as [|r a1 IH]; intros a2 i Hlen; cbn [Equals_loop].
  - rewrite drop_ge by (cbn in Hlen; lia). by rewrite bool_decide_eq_true_2.
  - cbn [length] in Hlen.
    destruct (lookup_lt_is_Some_2 a2 i ltac:(lia)) as [x Hx].
    rewrite (proj2 (get_Ok _ _ _) Hx). ok_step.
    rewrite (drop_S _ _ _ Hx).
    case_decide as Hne.
    + rewrite bool_decide_eq_false_2; [done|]. by intros [= ? ?].
    + subst x. rewrite IH by lia.
      replace (i + 1) with (S i) by lia.
      f_equal. apply bool_decide_ext. split; [by intros ->|by intros [= ?]].
Qed.

(** X24. [Equals] never panics and returns true exactly when the two
    alphabets hold the same residues in the same order. *)
Theorem Equals_iff (a1 a2 : list Residue) :
  Equals a1 a2 = Ok (bool_decide (a1 = a2)).
Proof.
  unfold Equals. case_decide as Hlen.
  - rewrite bool_decide_eq_false_2; [done|]. by intros ->.
  - by rewrite Equals_loop_drop, drop_0.
Qed.

Lemma Index_loop_length a : ∀ i index,
  length (Index_loop a i index) = length index.
Proof.
  induction a as [|r a IH]; intros i index; [done|].
  cbn [Index_loop]. by rewrite IH, length_insert.
Qed.

Lemma Index_loop_absent a : ∀ i index r,
  r ∉ a → Index_loop a i index !! rnum r = index !! rnum r.
Proof.
  induction a as [|x a IH]; intros i index r Hr; [done|].
  cbn [Index_loop]. apply not_elem_of_cons in Hr as [Hne Hr].
  rewrite IH by done. apply list_lookup_insert_ne.
  intros Heq. apply Hne. symmetry. by apply rnum_inj.
Qed.

Lemma Index_loop_last a : ∀ i index k r,
  256 ≤ length index →
  a !! k = Some r → (∀ j, k < j → a !! j ≠ Some r) →
  Index_loop a i index !! rnum r = Some (i + k).
Proof.
  induction a as [|x a IH]; intros i index k r Hlen Hk Hlast; [done|].
  cbn [Index_loop]. destruct k as [|k].
  - injection Hk as ->.
    rewrite Index_loop_absent.
    + rewrite Nat.add_0_r. apply list_lookup_insert_eq.
      pose proof (rnum_bounded r). lia.
    + intros [j Hj]%list_elem_of_lookup_1.
      apply (Hlast (S j)); [lia|done].
  - rewrite (IH (i + 1) _ k r); [f_equal; lia| |done|].
    + by rewrite length_insert.
    + intros j Hj. apply (Hlast (S j)). lia.
Qed.

(** X25. [Index] returns an array of 256 indices in which the byte of a
    residue holds the position of its last occurrence in the alphabet, and
    the byte of a residue that is not in the alphabet holds 0, the position
    of the first residue. *)
Theorem Index_positions (a : list Residue) :
  length (Index a) = 256 ∧
  (∀ k r, a !! k = Some r → (∀ j, k < j → a !! j ≠ Some r) →
     Index a !! rnum r = Some k) ∧
  (∀ r, r ∉ a → Index a !! rnum r = Some 0).
Proof.
  unfold Index. split; [|split].
  - by rewrite Index_loop_length, length_replicate.
  - intros k r Hk Hlast.
    rewrite (Index_loop_last a 0 _ k r); [done| |done|done].
    by rewrite length_replicate.
  - intros r Hr. rewrite Index_loop_absent by done.
    apply lookup_replicate_2. apply rnum_bounded.
Qed.

Lemma Index_positions_witness :
  Index shortAlpha !! rnum "C"%byte = Some 2 ∧
  Index shortAlpha !! rnum "Z"%byte = Some 0.
Proof.
  destruct (Index_positions shortAlpha) as (_ & Hin & Hout).
  split.
  - apply (Hin 2 "C"%byte); [reflexivity|].
    intros [|[|[|j]]] Hj; first [lia | discriminate].
  - apply Hout. apply (bool_decide_unpack _). vm_compute. exact I.
Defined.

(** X26. [HMMState] returns for every byte, without a panic: Deletion for
    '-' only, Insertion for '.' and the lower-case letters only, Match for
    every other byte; so the state is always one that the dynamic table
    stores. *)
Theorem Residue_HMMState_cases (r : Residue) :
  (Residue_HMMState r = Deletion ↔ r = "-"%byte) ∧
  (Residue_HMMState r = Insertion
   ↔ r = "."%byte ∨ (rnum "a"%byte ≤ rnum r ∧ rnum r ≤ rnum "z"%byte)) ∧
  (Residue_HMMState r = Match
   ↔ r ≠ "-"%byte ∧ r ≠ "."%byte
     ∧ ¬ (rnum "a"%byte ≤ rnum r ∧ rnum r ≤ rnum "z"%byte)) ∧
  stored (Residue_HMMState r).
Proof.
  unfold Residue_HMMState, stored.
  destruct (decide (r = "-"%byte)) as [-> | Hd].
  { cbn. repeat split; try done; try lia; intros; try done.
    - destruct H as [? | [? ?]]; [done|lia].
    - by destruct H. }
  destruct (decide (r = "."%byte)) as [-> | Hi].
  { cbn. repeat split; try done; try lia; intros; try done.
    - by left.
    - by destruct H as (_ & ? & _). }
  destruct (decide (rnum "a"%byte ≤ rnum r ∧ rnum r ≤ rnum "z"%byte)) as [Hl | Hl].
  { cbn. repeat split; try done; try lia; intros; try done.
    - by right.
    - by destruct H as (_ & _ & ?). }
  destruct (decide (rnum "A"%byte ≤ rnum r ∧ rnum r ≤ rnum "Z"%byte));
    cbn; (repeat split; try done; try lia; intros; try done);
    by destruct H as [? | ?].
Qed.

Lemma Residue_HMMState_cases_witness :
  Residue_HMMState "-"%byte = Deletion ∧ Residue_HMMState "q"%byte = Insertion.
Proof.
  split.
  - apply (proj1 (Residue_HMMState_cases "-"%byte)). reflexivity.
  - apply (proj1 (proj2 (Residue_HMMState_cases "q"%byte))).
    right. vm_compute. lia.
Defined.

(** Two [Set]s of different residues commute, panics included. *)
Lemma Set_commute ep r p r' p' :
  r ≠ r' →
  (ep1 ← Set_ ep r p; Set_ ep1 r' p') = (ep1 ← Set_ ep r' p'; Set_ ep1 r p).
Proof.
  intros Hne. unfold Set_, store.
  assert (sub8 (rnum r) (rnum (Offset ep)) ≠ sub8 (rnum r') (rnum (Offset ep)))
    as Hidx.
  { intros Heq. apply Hne. apply rnum_inj.
    eapply sub8_inj; [apply rnum_bounded..|exact Heq]. }
  destruct (decide (sub8 (rnum r) (rnum (Offset ep)) < length (Probs ep)))
    as [Hi|Hi],
    (decide (sub8 (rnum r') (rnum (Offset ep)) < length (Probs ep)))
    as [Hi'|Hi']; ok_step; cbn [Offset Probs].
  - rewrite !decide_True by (by rewrite length_insert). ok_step.
    f_equal. f_equal. by apply list_insert_insert_ne.
  - rewrite decide_False by (by rewrite length_insert). done.
  - rewrite decide_False by (by rewrite length_insert). done.
  - done.
Qed.

Lemma set_all_perm m m' :
  m ≡ₚ m' → NoDup m.*1 → ∀ ep, set_all ep m = set_all ep m'.
Proof.
  induction 1 as [|[r p] m m' Hperm IH|[r p] [r' p'] m|m1 m2 m3 H12 IH12 H23 IH23];
    intros Hnd ep.
  - done.
  - cbn [set_all]. apply NoDup_cons in Hnd as [_ Hnd].
    destruct (Set_ ep r p) as [ep1|]; [|done]. ok_step. by apply IH.
  - cbn [set_all].
    cbn [fmap list_fmap fst] in Hnd.
    apply NoDup_cons in Hnd as [Hne _].
    apply not_elem_of_cons in Hne as [Hne _].
    pose proof (Set_commute ep r' p' r p ltac:(done)) as Hc.
    destruct (Set_ ep r p) as [ep1|], (Set_ ep r' p') as [ep2|];
      cbn in Hc |- *.
    + destruct (Set_ ep1 r' p') as [ep3|], (Set_ ep2 r p) as [ep4|];
        cbn in Hc |- *; congruence.
    + destruct (Set_ ep1 r' p'); cbn in Hc |- *; congruence.
    + destruct (Set_ ep2 r p); cbn in Hc |- *; congruence.
    + congruence.
  - rewrite IH12 by done. apply IH23.
    by rewrite <- H12.
Qed.

(** X27. The tables that the test helper [newEProbs] builds do not depend
    on the order in which Go ranges over the maps: for maps with the same
    entries, listed in any two orders, the result is the same (the same
    tables, or a panic in both). *)
Theorem newEProbs_any_order (alpha : list Residue)
    (probs probs' : list (list (Residue * Prob))) :
  Forall2 (≡ₚ) probs probs' → Forall (λ m, NoDup m.*1) probs →
  newEProbs alpha probs = newEProbs alpha probs'.
Proof.
  intros Hperm Hnd. unfold newEProbs. generalize (@nil EProbs).
  induction Hperm as [|m m' probs probs' Hm _ IH]; intros eps; [done|].
  apply Forall_cons in Hnd as [Hnd1 Hnd].
  cbn [newEProbs_loop]. rewrite (set_all_perm m m' Hm Hnd1).
  destruct (set_all (NewEProbs alpha) m') as [ep|]; [|done]. ok_step.
  by apply IH.
Qed.

Lemma newEProbs_any_order_witness :
  newEProbs shortAlpha [[("A"%byte, pzero); ("C"%byte, MinProb)]]
  = newEProbs shortAlpha [[("C"%byte, MinProb); ("A"%byte, pzero)]].
Proof.
  apply newEProbs_any_order.
  - constructor; [apply perm_swap|constructor].
  - constructor; [|constructor].
    apply (bool_decide_unpack _). vm_compute. exact I.
Defined.

Lemma set_all_members alphabet m :
  ¬ (x00 ∈ alphabet ∧ xff ∈ alphabet) →
  Forall (λ e, e.1 ∈ alphabet) m →
  ∀ ep, Offset ep = Offset (NewEProbs alphabet) →
        length (Probs ep) = length (Probs (NewEProbs alphabet)) →
  ∃ ep', set_all ep m = Ok ep' ∧
         Offset ep' = Offset ep ∧ length (Probs ep') = length (Probs ep) ∧
         ∀ r, Lookup ep' r
              = Ok (default (ViterbiSpec.lookup ep r)
                      (snd <$> last (filter (λ e, e.1 = r) m))).
Proof.
  intros Hwide. induction m as [|[r p] m IH]; intros Hall ep Hoff Hlen.
  - exists ep. split; [done|]. split; [done|]. split; [done|].
    intros r. apply Lookup_lookup.
  - apply Forall_cons in Hall as [Hr Hall]. cbn [fst] in Hr.
    assert (alphabet ≠ []) as Hne by (intros ->; by apply elem_of_nil in Hr).
    destruct (NewEProbs_shape alphabet Hne Hwide) as (lo & hi & Hshape & Hspan).
    rewrite Hshape in Hoff, Hlen. cbn [Offset Probs] in Hoff, Hlen.
    rewrite length_replicate in Hlen.
    specialize (Hspan r Hr). pose proof (rnum_bounded r).
    assert (sub8 (rnum r) (rnum (Offset ep)) < length (Probs ep)) as Hlt
      by (rewrite Hoff, sub8_small by lia; lia).
    cbn [set_all]. unfold Set_ at 1. rewrite store_lt by done. ok_step.
    destruct (IH Hall (mkEProbs (Offset ep)
                         (<[sub8 (rnum r) (rnum (Offset ep)) := p]> (Probs ep))))
      as (ep' & -> & Hoff' & Hlen' & Hlook).
    { cbn [Offset]. by rewrite Hoff, Hshape. }
    { cbn [Probs]. rewrite length_insert, Hlen, Hshape. cbn [Probs].
      by rewrite length_replicate. }
    cbn [Offset Probs] in Hoff', Hlen'. rewrite length_insert in Hlen'.
    exists ep'. split; [done|]. split; [done|]. split; [done|].
    intros r'. rewrite Hlook. f_equal.
    rewrite filter_cons. cbn [fst].
    destruct (decide (r = r')) as [-> | Hrr'].
    + destruct (filter _ m) as [|e es].
      * cbn [last fmap option_fmap option_map default from_option snd].
        unfold ViterbiSpec.lookup. cbn [Offset Probs].
        by rewrite list_lookup_insert_eq.
      * rewrite last_cons_cons.
        destruct (last (e :: es)) eqn:Hl; [done|].
        by apply last_None in Hl.
    + f_equal. unfold ViterbiSpec.lookup. cbn [Offset Probs].
      rewrite list_lookup_insert_ne; [done|].
      intros Heq. apply Hrr'. apply rnum_inj.
      eapply sub8_inj; [apply rnum_bounded..|exact Heq].
Qed.

Lemma filter_key_absent (m : list (Residue * Prob)) r :
  r ∉ m.*1 → filter (λ e, e.1 = r) m = [].
Proof.
  induction m as [|[r' p'] m IH]; [done|]. cbn [fmap list_fmap fst].
  intros [Hne Hr]%not_elem_of_cons.
  rewrite filter_cons. cbn [fst]. rewrite decide_False by done. by apply IH.
Qed.

Lemma filter_key_NoDup (m : list (Residue * Prob)) r p :
  NoDup m.*1 → (r, p) ∈ m → filter (λ e, e.1 = r) m = [(r, p)].
Proof.
  induction m as [|[r' p'] m IH]; intros Hnd Hin.
  - by apply elem_of_nil in Hin.
  - cbn [fmap list_fmap fst] in Hnd. apply NoDup_cons in Hnd as [Hnot Hnd].
    rewrite filter_cons. cbn [fst].
    apply elem_of_cons in Hin as [[= -> ->] | Hin].
    + rewrite decide_True by done. by rewrite filter_key_absent.
    + rewrite decide_False; [by apply IH|].
      intros ->. apply Hnot. apply list_elem_of_fmap.
      by exists (r, p).
Qed.

Lemma Lookup_NewEProbs alphabet r : Lookup (NewEProbs alphabet) r = Ok MinProb.
Proof.
  rewrite Lookup_lookup. f_equal. unfold NewEProbs, ViterbiSpec.lookup.
  destruct (foldl span_step (xff, x00) alphabet) as [lo hi].
  cbn [Offset Probs].
  destruct (replicate _ MinProb !! _) eqn:Hl; [|done].
  by apply lookup_replicate in Hl as [-> _].
Qed.

Lemma newEProbs_loop_tables alpha probs :
  ¬ (x00 ∈ alpha ∧ xff ∈ alpha) →
  Forall (λ m, NoDup m.*1 ∧ Forall (λ e, e.1 ∈ alpha) m) probs →
  ∀ eps, ∃ new,
    newEProbs_loop alpha probs eps = Ok (eps ++ new) ∧
    Forall2 (λ m ep, (∀ r p, (r, p) ∈ m → Lookup ep r = Ok p) ∧
                     (∀ r, r ∉ m.*1 → Lookup ep r = Ok MinProb)) probs new.
Proof.
  intros Hwide. induction probs as [|m probs IH]; intros Hall eps.
  - exists []. split; [by rewrite app_nil_r|constructor].
  - apply Forall_cons in Hall as [[Hnd Hm] Hall].
    destruct (set_all_members alpha m Hwide Hm (NewEProbs alpha) eq_refl eq_refl)
      as (ep & Hrun & _ & _ & Hlook).
    destruct (IH Hall (eps ++ [ep])) as (new & Hloop & Hnew).
    exists (ep :: new). cbn [newEProbs_loop]. rewrite Hrun. ok_step.
    rewrite Hloop. split; [by rewrite <- app_assoc|].
    constructor; [|done]. split.
    + intros r p Hin. rewrite Hlook.
      by rewrite (filter_key_NoDup m r p Hnd Hin).
    + intros r Hr. rewrite Hlook, (filter_key_absent m r Hr).
      cbn [last fmap option_fmap option_map default from_option].
      rewrite <- Lookup_lookup. apply Lookup_NewEProbs.
Qed.

(** X28. For an alphabet that does not hold both the bytes 0 and 255 and
    maps whose keys are residues of the alphabet, the test helper
    [newEProbs] returns one table for each map; the table answers a
    [Lookup] of a key with the value of the map and every other [Lookup]
    with [MinProb]. *)
Theorem newEProbs_tables (alpha : list Residue)
    (probs : list (list (Residue * Prob))) :
  ¬ (x00 ∈ alpha ∧ xff ∈ alpha) →
  Forall (λ m, NoDup m.*1 ∧ Forall (λ e, e.1 ∈ alpha) m) probs →
  ∃ eps,
    newEProbs alpha probs = Ok eps ∧
    Forall2 (λ m ep, (∀ r p, (r, p) ∈ m → Lookup ep r = Ok p) ∧
                     (∀ r, r ∉ m.*1 → Lookup ep r = Ok MinProb)) probs eps.
Proof.
  intros Hwide Hall.
  destruct (newEProbs_loop_tables alpha probs Hwide Hall []) as (new & Hrun & H).
  exists new. by split.
Qed.

Lemma newEProbs_tables_witness :
  ∃ eps,
    newEProbs shortAlpha [[("A"%byte, pzero); ("C"%byte, MinProb)]] = Ok eps ∧
    Forall2 (λ m ep, (∀ r p, (r, p) ∈ m → Lookup ep r = Ok p) ∧
                     (∀ r, r ∉ m.*1 → Lookup ep r = Ok MinProb))
      [[("A"%byte, pzero); ("C"%byte, MinProb)]] eps.
Proof.
  apply newEProbs_tables.
  - intros [H0 _]. revert H0. apply (bool_decide_unpack _). vm_compute. exact I.
  - constructor; [|constructor]. split.
    + apply (bool_decide_unpack _). vm_compute. exact I.
    + repeat constructor; apply (bool_decide_unpack _); vm_compute; exact I.
Defined.

(** ** [Sequence.Slice] shares, [Sequence.Copy] does not *)

Lemma Sequence_slice_elems_length (σ : gmap nat (list Residue)) (s : slice) :
  SequenceMethods.valid σ s → length (SequenceMethods.slice_elems σ s) = s_len s.
Proof.
  intros (Hlen & _ & arr & Harr & Hfit). unfold SequenceMethods.slice_elems.
  rewrite Harr. cbn [default from_option id].
  rewrite length_take, length_drop. lia.
Qed.

Lemma Sequence_write_elems (σ σ' : gmap nat (list Residue)) (s t : slice)
    (i : nat) (r : Residue) :
  SequenceMethods.write s (Z.of_nat i) r σ = Ok σ' →
  s_arr t = s_arr s →
  s_off t ≤ s_off s + i < s_off t + s_len t →
  SequenceMethods.slice_elems σ' t
  = <[s_off s + i - s_off t := r]> (SequenceMethods.slice_elems σ t).
Proof.
  unfold SequenceMethods.write. case_decide as Hi; [|done]. intros [= <-] Harr Hin.
  unfold SequenceMethods.slice_elems. rewrite Harr, lookup_alter_eq.
  destruct (σ !! s_arr s) as [arr|]; cbn [fmap option_fmap option_map default
                                          from_option id].
  - rewrite Nat2Z.id. apply list_eq. intros k.
    destruct (decide (k < s_len t)) as [Hk|Hk].
    + rewrite lookup_take_lt, lookup_drop by done.
      destruct (decide (k = s_off s + i - s_off t)) as [-> | Hne].
      * replace (s_off t + (s_off s + i - s_off t)) with (s_off s + i) by lia.
        destruct (decide (s_off s + i < length arr)) as [Hlt|Hge].
        -- rewrite !list_lookup_insert_eq; [done| |done].
           rewrite length_take, length_drop. lia.
        -- rewrite !list_insert_ge by
             (try rewrite length_take, length_drop; lia).
           rewrite lookup_take_lt, lookup_drop by lia. f_equal. lia.
      * rewrite !list_lookup_insert_ne by lia.
        by rewrite lookup_take_lt, lookup_drop by done.
    + rewrite lookup_take_ge by lia.
      destruct (decide (k = s_off s + i - s_off t)) as [-> | Hne]; [lia|].
      rewrite list_lookup_insert_ne by lia.
      by rewrite lookup_take_ge by lia.
  - by rewrite drop_nil, take_nil.
Qed.

(** X29. [Sequence.Slice(start, end)] returns exactly when
    [0 ≤ start ≤ end ≤ cap(s.Residues)] (an empty slice is fine); it
    allocates nothing and keeps the name; for [end ≤ len(s.Residues)] its
    residues are those from [start] to [end - 1]; and it shares them with
    the original: a write to residue [i] of the slice is a write to residue
    [start + i] of the original. *)
Theorem Sequence_Slice_shares (σ : gmap nat (list Residue))
    (s : SequenceMethods.SequenceStruct) (start end_ : Z) :
  SequenceMethods.valid σ (SequenceMethods.SResidues s) →
  (is_Ok (SequenceMethods.Slice s start end_)
   ↔ (0 ≤ start ≤ end_ ∧
      end_ ≤ Z.of_nat (s_cap (SequenceMethods.SResidues s)))%Z) ∧
  ∀ s', SequenceMethods.Slice s start end_ = Ok s' →
    (end_ ≤ Z.of_nat (s_len (SequenceMethods.SResidues s)))%Z →
    SequenceMethods.view σ s'
    = mkSequence (SequenceMethods.SName s)
        (take (Z.to_nat (end_ - start))
           (drop (Z.to_nat start) (Residues (SequenceMethods.view σ s)))) ∧
    ∀ (i : nat) r σ',
      SequenceMethods.write (SequenceMethods.SResidues s') (Z.of_nat i) r σ
      = Ok σ' →
      Residues (SequenceMethods.view σ' s)
      = <[Z.to_nat start + i := r]> (Residues (SequenceMethods.view σ s)) ∧
      Residues (SequenceMethods.view σ' s')
      = <[i := r]> (Residues (SequenceMethods.view σ s')).
Proof.
  intros (Hlen & Hcap & arr & Harr & Hfit). split.
  - unfold SequenceMethods.Slice, reslice. case_decide as Hb.
    + split; [intros _; lia|]. intros _. ok_step. constructor.
    + split; [by intros ?%not_is_Ok_bind_Panic|]. intros ?. lia.
  - intros s'. unfold SequenceMethods.Slice, reslice.
    case_decide as Hb; [|done]. ok_step. intros [= <-] Hend.
    split.
    + unfold SequenceMethods.view, SequenceMethods.slice_elems.
      cbn [SequenceMethods.SName SequenceMethods.SResidues s_arr s_off s_len
           Residues].
      f_equal. rewrite Harr. cbn [default from_option id].
      replace (s_len (SequenceMethods.SResidues s))
        with (Z.to_nat start
              + (s_len (SequenceMethods.SResidues s) - Z.to_nat start)) at 1
        by lia.
      rewrite <- take_drop_commute, take_take, drop_drop.
      f_equal. lia.
    + intros i r σ' Hw.
      pose proof Hw as Hw'. unfold SequenceMethods.write in Hw'.
      cbn [s_len SequenceMethods.SResidues] in Hw'.
      case_decide as Hi; [|done]. clear Hw'.
      unfold SequenceMethods.view.
      cbn [Residues SequenceMethods.SResidues] in Hw |- *.
      split.
      * rewrite (Sequence_write_elems σ σ' _ (SequenceMethods.SResidues s) i r Hw);
          cbn [s_arr s_off s_len]; [f_equal; lia|done|lia].
      * rewrite (Sequence_write_elems σ σ' _ _ i r Hw);
          cbn [s_arr s_off s_len]; [f_equal; lia|done|lia].
Qed.

Lemma Sequence_Slice_shares_witness :
  (is_Ok (SequenceMethods.Slice SequenceMethods.seq_ABCD 1 3)
   ↔ (0 ≤ 1 ≤ 3 ∧ 3 ≤ 4)%Z) ∧
  ∀ s', SequenceMethods.Slice SequenceMethods.seq_ABCD 1 3 = Ok s' →
    (3 ≤ 4)%Z →
    SequenceMethods.view SequenceMethods.store_ABCD s'
    = mkSequence "abcd" ["B"%byte; "C"%byte] ∧
    ∀ (i : nat) r σ',
      SequenceMethods.write (SequenceMethods.SResidues s') (Z.of_nat i) r
        SequenceMethods.store_ABCD = Ok σ' →
      Residues (SequenceMethods.view σ' SequenceMethods.seq_ABCD)
      = <[1 + i := r]> ["A"%byte; "B"%byte; "C"%byte; "D"%byte] ∧
      Residues (SequenceMethods.view σ' s')
      = <[i := r]>
          (Residues (SequenceMethods.view SequenceMethods.store_ABCD s')).
Proof.
  apply (Sequence_Slice_shares SequenceMethods.store_ABCD
           SequenceMethods.seq_ABCD 1 3).
  split; [cbn; lia|]. split; [cbn; lia|].
  exists ["A"%byte; "B"%byte; "C"%byte; "D"%byte].
  split; [reflexivity|cbn; lia].
Defined.

Lemma Sequence_write_ne (σ σ' : gmap nat (list Residue)) (s t : slice) i r :
  SequenceMethods.write s i r σ = Ok σ' → s_arr s ≠ s_arr t →
  SequenceMethods.slice_elems σ' t = SequenceMethods.slice_elems σ t.
Proof.
  unfold SequenceMethods.write. case_decide; [|done]. intros [= <-] Hne.
  unfold SequenceMethods.slice_elems. by rewrite lookup_alter_ne.
Qed.

(** X30. [Sequence.Copy] returns a sequence of the same name and residues
    in an array of its own; the original reads as before, and afterwards
    a write to a residue of the one does not show in the other. *)
Theorem Sequence_Copy_independent (σ : gmap nat (list Residue))
    (s : SequenceMethods.SequenceStruct) :
  SequenceMethods.valid σ (SequenceMethods.SResidues s) →
  ∃ s' σ',
    SequenceMethods.Copy s σ = Ok (s', σ') ∧
    SequenceMethods.view σ' s' = SequenceMethods.view σ s ∧
    SequenceMethods.view σ' s = SequenceMethods.view σ s ∧
    σ !! s_arr (SequenceMethods.SResidues s') = None ∧
    (∀ a arr, σ !! a = Some arr → σ' !! a = Some arr) ∧
    (∀ i r σ'',
       SequenceMethods.write (SequenceMethods.SResidues s) i r σ' = Ok σ'' →
       SequenceMethods.view σ'' s' = SequenceMethods.view σ' s') ∧
    (∀ i r σ'',
       SequenceMethods.write (SequenceMethods.SResidues s') i r σ' = Ok σ'' →
       SequenceMethods.view σ'' s = SequenceMethods.view σ' s).
Proof.
  intros Hv. pose proof (Sequence_slice_elems_length σ _ Hv) as Hl.
  destruct Hv as (Hlen & Hcap & arr & Harr & Hfit).
  assert (fresh (dom σ) ≠ s_arr (SequenceMethods.SResidues s)) as Hne.
  { intros Heq. apply (is_fresh (dom σ)). rewrite Heq.
    apply elem_of_dom. by eexists. }
  unfold SequenceMethods.Copy, SequenceMethods.make_residues.
  rewrite decide_False by lia. ok_step. rewrite Nat2Z.id. cbv zeta.
  set (n := s_len (SequenceMethods.SResidues s)) in *.
  set (a := fresh (dom σ)) in *.
  assert (SequenceMethods.copy (mkSlice a 0 n n) (SequenceMethods.SResidues s)
            (<[a := replicate n x00]> σ)
          = <[a := SequenceMethods.slice_elems σ (SequenceMethods.SResidues s)]> σ)
    as ->.
  { unfold SequenceMethods.copy. cbn [s_len s_arr s_off].
    assert (SequenceMethods.slice_elems (<[a := replicate n x00]> σ)
              (SequenceMethods.SResidues s)
            = SequenceMethods.slice_elems σ (SequenceMethods.SResidues s)) as ->.
    { unfold SequenceMethods.slice_elems. by rewrite lookup_insert_ne. }
    fold n. rewrite Nat.min_id, take_ge by lia.
    rewrite alter_insert_eq. f_equal.
    rewrite take_0, Hl, Nat.add_0_l. cbn [app].
    rewrite drop_ge, app_nil_r; [done|]. rewrite length_replicate. lia. }
  eexists _, _. split; [done|].
  unfold SequenceMethods.view.
  cbn [SequenceMethods.SName SequenceMethods.SResidues s_arr].
  assert (SequenceMethods.slice_elems
            (<[a := SequenceMethods.slice_elems σ (SequenceMethods.SResidues s)]> σ)
            (mkSlice a 0 n n)
          = SequenceMethods.slice_elems σ (SequenceMethods.SResidues s)) as Hnew.
  { unfold SequenceMethods.slice_elems at 1. cbn [s_arr s_off s_len].
    rewrite lookup_insert_eq. cbn [default from_option id drop].
    apply take_ge. lia. }
  assert (SequenceMethods.slice_elems
            (<[a := SequenceMethods.slice_elems σ (SequenceMethods.SResidues s)]> σ)
            (SequenceMethods.SResidues s)
          = SequenceMethods.slice_elems σ (SequenceMethods.SResidues s)) as Hold.
  { unfold SequenceMethods.slice_elems at 1 3. by rewrite lookup_insert_ne. }
  split; [by rewrite Hnew|]. split; [by rewrite Hold|].
  split; [apply not_elem_of_dom, is_fresh|]. split; [|split].
  - intros a' arr' Ha'. rewrite lookup_insert_ne; [done|].
    intros Heq. apply (is_fresh (dom σ)). fold a. rewrite Heq.
    apply elem_of_dom. by eexists.
  - intros i r σ'' Hw. f_equal.
    apply (Sequence_write_ne _ _ _ _ _ _ Hw). cbn [s_arr]. done.
  - intros i r σ'' Hw. f_equal.
    apply (Sequence_write_ne _ _ _ _ _ _ Hw). cbn [s_arr]. done.
Qed.

Lemma Sequence_Copy_independent_witness :
  ∃ s' σ',
    SequenceMethods.Copy SequenceMethods.seq_ABCD SequenceMethods.store_ABCD
    = Ok (s', σ') ∧
    SequenceMethods.view σ' s'
    = SequenceMethods.view SequenceMethods.store_ABCD SequenceMethods.seq_ABCD ∧
    SequenceMethods.view σ' SequenceMethods.seq_ABCD
    = SequenceMethods.view SequenceMethods.store_ABCD SequenceMethods.seq_ABCD ∧
    SequenceMethods.store_ABCD !! s_arr (SequenceMethods.SResidues s') = None ∧
    (∀ a arr, SequenceMethods.store_ABCD !! a = Some arr → σ' !! a = Some arr) ∧
    (∀ i r σ'',
       SequenceMethods.write (SequenceMethods.SResidues SequenceMethods.seq_ABCD)
         i r σ' = Ok σ'' →
       SequenceMethods.view σ'' s' = SequenceMethods.view σ' s') ∧
    (∀ i r σ'',
       SequenceMethods.write (SequenceMethods.SResidues s') i r σ' = Ok σ'' →
       SequenceMethods.view σ'' SequenceMethods.seq_ABCD
       = SequenceMethods.view σ' SequenceMethods.seq_ABCD).
Proof.
  apply (Sequence_Copy_independent SequenceMethods.store_ABCD
           SequenceMethods.seq_ABCD).
  split; [cbn; lia|]. split; [cbn; lia|].
  exists ["A"%byte; "B"%byte; "C"%byte; "D"%byte].
  split; [reflexivity|cbn; lia].
Defined.
